(** * Schema diff engine: a shallow embedding of [src/diff.js] and of
    [computeStats] from [src/report-terminal.js], with the properties
    stated about them.

    JavaScript strings are sequences of UTF-16 code units, plain objects
    carry the properties inherited from [Object.prototype], and [Set] and
    [Map] iterate in insertion order; the embedding keeps all three. *)

From Stdlib Require Import ZArith NArith Ascii String.
From stdpp Require Import base decidable option list sorting numbers strings pretty.

Open Scope N_scope.
Set Warnings "-register-all,-clear-no-such-hyp".

(** ** Strings *)

(** A JavaScript string: its UTF-16 code units. *)
Abbreviation jsstring := (list N).

(** Source-text literals (all of them ASCII in this program). *)
Definition js (s : string) : jsstring :=
  N_of_ascii <$> list_ascii_of_string s.

(** [x < y] on strings, as used by [Array.prototype.sort] without a
    comparator: code unit by code unit, a proper prefix first. *)
Fixpoint str_ltb (s t : jsstring) : bool :=
  match s, t with
  | _, [] => false
  | [], _ :: _ => true
  | a :: s', b :: t' =>
      if a <? b then true else if a =? b then str_ltb s' t' else false
  end.

(** The order in which the default sort leaves two elements [x], [y]:
    [y < x] does not hold. *)
Definition str_le (s t : jsstring) : Prop := str_ltb t s = false.

Global Instance str_le_dec s t : Decision (str_le s t).
Proof. unfold str_le. apply _. Defined.

(** [arr.sort()] on an array of strings. *)
Definition Array_sort (l : list jsstring) : list jsstring :=
  merge_sort str_le l.

(** [arr.join(sep)] on an array of strings. *)
Fixpoint Array_join (sep : jsstring) (l : list jsstring) : jsstring :=
  match l with
  | [] => []
  | [x] => x
  | x :: l' => x ++ sep ++ Array_join sep l'
  end.

(** ** Values *)

(** The values a record field can hold. Numbers are the integers the
    catalog columns deliver (int4), so [String(n)] is the decimal form. *)
Inductive JSValue : Type :=
  | JNull
  | JUndefined
  | JBool (b : bool)
  | JNum (n : Z)
  | JStr (s : jsstring)
  | JArr (l : list JSValue).

(** [String(v)]. *)
Fixpoint ToString (v : JSValue) : jsstring :=
  match v with
  | JNull => js "null"
  | JUndefined => js "undefined"
  | JBool true => js "true"
  | JBool false => js "false"
  | JNum n => js (pretty n)
  | JStr s => s
  | JArr l =>
      Array_join (js ",")
        ((fix elems (l : list JSValue) : list jsstring :=
            match l with
            | [] => []
            | JNull :: l' => [] :: elems l'
            | JUndefined :: l' => [] :: elems l'
            | v :: l' => ToString v :: elems l'
            end) l)
  end.

(** WhiteSpace and LineTerminator code units, the ones [trim] strips. *)
Definition is_whitespace (c : N) : bool :=
  bool_decide (c ∈ [0x09; 0x0A; 0x0B; 0x0C; 0x0D; 0x20; 0xA0; 0x1680;
                    0x2028; 0x2029; 0x202F; 0x205F; 0x3000; 0xFEFF])
  || ((0x2000 <=? c) && (c <=? 0x200A)).

Fixpoint dropWhile {A} (p : A → bool) (l : list A) : list A :=
  match l with
  | [] => []
  | x :: l' => if p x then dropWhile p l' else l
  end.

Definition trimStart (s : jsstring) : jsstring := dropWhile is_whitespace s.
Definition trimEnd (s : jsstring) : jsstring :=
  reverse (dropWhile is_whitespace (reverse s)).

(** [s.trim()]. *)
Definition trim (s : jsstring) : jsstring := trimEnd (trimStart s).

(** ** JSON.stringify *)

Definition hex_digit (d : N) : N :=
  if d <? 10 then 48 + d else 87 + d.

(** [\uXXXX] with lowercase hexadecimal digits. *)
Definition UnicodeEscape (c : N) : jsstring :=
  js "\u" ++ [hex_digit (c / 4096 mod 16); hex_digit (c / 256 mod 16);
              hex_digit (c / 16 mod 16); hex_digit (c mod 16)].

Definition is_high_surrogate (c : N) : bool := (0xD800 <=? c) && (c <=? 0xDBFF).
Definition is_low_surrogate (c : N) : bool := (0xDC00 <=? c) && (c <=? 0xDFFF).

(** One code unit that is not part of a surrogate pair. *)
Definition quote_unit (c : N) : jsstring :=
  if c =? 0x08 then js "\b"
  else if c =? 0x09 then js "\t"
  else if c =? 0x0A then js "\n"
  else if c =? 0x0C then js "\f"
  else if c =? 0x0D then js "\r"
  else if c =? 0x22 then [0x5C; 0x22]
  else if c =? 0x5C then [0x5C; 0x5C]
  else if (c <? 0x20) || is_high_surrogate c || is_low_surrogate c
       then UnicodeEscape c
  else [c].

(** The body of QuoteJSONString: well-formed surrogate pairs are copied,
    anything else goes through [quote_unit]. *)
Fixpoint quote_body (s : jsstring) : jsstring :=
  match s with
  | [] => []
  | a :: tl =>
      match tl with
      | b :: rest =>
          if is_high_surrogate a && is_low_surrogate b
          then a :: b :: quote_body rest
          else quote_unit a ++ quote_body tl
      | [] => quote_unit a
      end
  end.

Definition QuoteJSONString (s : jsstring) : jsstring :=
  [0x22] ++ quote_body s ++ [0x22].

(** SerializeJSONProperty; [None] is the "undefined" outcome, which drops
    an object property and prints as [null] inside an array. *)
Fixpoint SerializeJSONProperty (v : JSValue) : option jsstring :=
  match v with
  | JNull => Some (js "null")
  | JUndefined => None
  | JBool true => Some (js "true")
  | JBool false => Some (js "false")
  | JNum n => Some (js (pretty n))
  | JStr s => Some (QuoteJSONString s)
  | JArr l =>
      Some (js "[" ++
            Array_join (js ",")
              ((fix elems (l : list JSValue) : list jsstring :=
                  match l with
                  | [] => []
                  | v :: l' =>
                      default (js "null") (SerializeJSONProperty v) :: elems l'
                  end) l)
            ++ js "]")
  end.

(** [JSON.stringify] of an array of strings. *)
Definition JSON_stringify_strings (l : list jsstring) : jsstring :=
  default [] (SerializeJSONProperty (JArr (JStr <$> l))).

(** [JSON.stringify] of an object literal, given its properties in the
    order they are written. *)
Definition JSON_stringify_object (props : list (string * JSValue)) : jsstring :=
  js "{" ++
  Array_join (js ",")
    (omap (λ '(k, v),
            (λ sv, QuoteJSONString (js k) ++ js ":" ++ sv)
              <$> SerializeJSONProperty v) props)
  ++ js "}".

(** ** Completions *)

(** The only exception this code can raise on well-typed records. *)
Inductive JSError : Type := TypeError.

(** The outcome of running a piece of code: a value, or a throw. *)
Inductive Completion (A : Type) : Type :=
  | Normal (a : A)
  | Throw (e : JSError).
Arguments Normal {A} a.
Arguments Throw {A} e.

Global Instance Completion_ret : MRet Completion := λ A a, Normal a.

Global Instance Completion_bind : MBind Completion := λ A B k c,
  match c with
  | Normal a => k a
  | Throw e => Throw e
  end.

(** A [for]-[of] loop whose body can throw, threading the loop state. *)
Fixpoint for_of {S T} (body : S → T → Completion S) (items : list T) (st : S)
    : Completion S :=
  match items with
  | [] => Normal st
  | x :: rest => st' ← body st x; for_of body rest st'
  end.

(** ** Set, Map and plain objects *)

Section containers.
Context {K : Type} `{EqDecision K}.

(** A [Set]: its elements in insertion order. *)
Definition Set_add (s : list K) (x : K) : list K :=
  if decide (x ∈ s) then s else s ++ [x].

(** [new Set(iterable)]. *)
Definition new_Set (l : list K) : list K := foldl Set_add [] l.

(** [s.has(x)]. *)
Definition Set_has (s : list K) (x : K) : bool := bool_decide (x ∈ s).

Context {V : Type}.

(** A [Map]: its entries in insertion order. Setting an existing key
    replaces the value and keeps the entry's position. *)
Fixpoint Map_set (m : list (K * V)) (k : K) (v : V) : list (K * V) :=
  match m with
  | [] => [(k, v)]
  | (k', v') :: m' =>
      if decide (k = k') then (k, v) :: m' else (k', v') :: Map_set m' k v
  end.

(** [new Map(entries)]. *)
Definition new_Map (entries : list (K * V)) : list (K * V) :=
  foldl (λ m e, Map_set m e.1 e.2) [] entries.

(** [m.get(k)]; [None] is [undefined]. *)
Fixpoint Map_get (m : list (K * V)) (k : K) : option V :=
  match m with
  | [] => None
  | (k', v) :: m' => if decide (k = k') then Some v else Map_get m' k
  end.

(** [m.has(k)]. *)
Definition Map_has (m : list (K * V)) (k : K) : bool :=
  bool_decide (is_Some (Map_get m k)).

(** [[...m.keys()]]. *)
Definition Map_keys (m : list (K * V)) : list K := m.*1.
End containers.

(** A plain object created by [{}]: its own properties in creation
    order. Its prototype is [Object.prototype]. *)
Abbreviation JSObject V := (list (list N * V)).

(** The property names every plain object inherits. *)
Definition Object_prototype_keys : list jsstring :=
  js <$> ["constructor"; "__proto__"; "hasOwnProperty"; "isPrototypeOf";
          "propertyIsEnumerable"; "toLocaleString"; "toString"; "valueOf";
          "__defineGetter__"; "__defineSetter__"; "__lookupGetter__";
          "__lookupSetter__"]%string.

(** What [obj[key]] finds. *)
Inductive Property (V : Type) : Type :=
  | Own (v : V)      (** a value stored by this program *)
  | Inherited        (** a function or object from the prototype: truthy,
                         and neither [push] nor [sort] is defined on it *)
  | Absent.          (** [undefined] *)
Arguments Own {V} v.
Arguments Inherited {V}.
Arguments Absent {V}.

(** [obj[key]]. *)
Definition obj_get {V} (o : JSObject V) (key : jsstring) : Property V :=
  match Map_get o key with
  | Some v => Own v
  | None => if decide (key ∈ Object_prototype_keys) then Inherited else Absent
  end.

(** [obj[key] = v], for a key other than [__proto__]: in this program an
    assignment is reached only with keys that [obj_get] found [Own] or
    [Absent], or that came out of [Object.keys]. *)
Definition obj_set {V} (o : JSObject V) (key : jsstring) (v : V) : JSObject V :=
  Map_set o key v.

(** An array index: the canonical decimal form of an integer below
    [2^32 - 1]. *)
Definition digits_value (s : jsstring) : N :=
  foldl (λ acc c, 10 * acc + (c - 48)) 0 s.

Definition array_index (s : jsstring) : option N :=
  match s with
  | [] => None
  | c :: rest =>
      if forallb (λ d, (48 <=? d) && (d <=? 57)) s
         && (bool_decide (rest = []) || negb (c =? 48))
         && (length s <=? 10)%nat
         && (digits_value s <? 4294967295)
      then Some (digits_value s) else None
  end.

Definition index_le (a b : jsstring) : Prop :=
  default 0 (array_index a) ≤ default 0 (array_index b).

Global Instance index_le_dec a b : Decision (index_le a b).
Proof. unfold index_le. apply _. Defined.

(** [Object.keys(obj)]: array indices in ascending numeric order, then
    the other names in creation order. *)
Definition Object_keys {V} (o : JSObject V) : list jsstring :=
  merge_sort index_le (filter (λ k, is_Some (array_index k)) o.*1)
  ++ filter (λ k, ¬ is_Some (array_index k)) o.*1.

(** [Object.values(obj)], in the order of [Object.keys]. *)
Definition Object_values {V} (o : JSObject V) : list V :=
  omap (Map_get o) (Object_keys o).

(** ** Schema snapshots

    One record type per row shape produced by [extractSchema]. Names and
    definition texts are strings; the remaining catalog columns are kept
    as values, since they may be [null], numbers or arrays. *)

Module Table.
Record t : Type := {
  table_name : jsstring;
  table_type : JSValue;
  comment : JSValue;
}.
End Table.

Module Column.
Record t : Type := {
  table_name : jsstring;
  column_name : jsstring;
  ordinal_position : JSValue;
  data_type : JSValue;
  udt_name : JSValue;
  character_maximum_length : JSValue;
  numeric_precision : JSValue;
  numeric_scale : JSValue;
  is_nullable : JSValue;
  column_default : JSValue;
  is_identity : JSValue;
  identity_generation : JSValue;
  is_generated : JSValue;
  generation_expression : JSValue;
}.

(** [c[f]] for a property name [f]; a name the row does not carry reads
    as [undefined]. *)
Definition get (c : t) (f : jsstring) : JSValue :=
  if decide (f = js "data_type") then data_type c
  else if decide (f = js "udt_name") then udt_name c
  else if decide (f = js "character_maximum_length") then character_maximum_length c
  else if decide (f = js "numeric_precision") then numeric_precision c
  else if decide (f = js "numeric_scale") then numeric_scale c
  else if decide (f = js "is_nullable") then is_nullable c
  else if decide (f = js "column_default") then column_default c
  else if decide (f = js "is_identity") then is_identity c
  else if decide (f = js "identity_generation") then identity_generation c
  else if decide (f = js "is_generated") then is_generated c
  else if decide (f = js "generation_expression") then generation_expression c
  else if decide (f = js "ordinal_position") then ordinal_position c
  else if decide (f = js "table_name") then JStr (table_name c)
  else if decide (f = js "column_name") then JStr (column_name c)
  else JUndefined.
End Column.

Module Index.
Record t : Type := {
  schemaname : jsstring;
  tablename : jsstring;
  indexname : jsstring;
  indexdef : jsstring;
}.
End Index.

Module ForeignKey.
Record t : Type := {
  table_name : jsstring;
  constraint_name : jsstring;
  column_name : jsstring;
  foreign_table_name : jsstring;
  foreign_column_name : jsstring;
}.
End ForeignKey.

Module Enum.
Record t : Type := {
  enum_name : jsstring;
  enum_value : jsstring;
  enumsortorder : JSValue;
}.
End Enum.

Module Policy.
Record t : Type := {
  schemaname : jsstring;
  tablename : jsstring;
  policyname : jsstring;
  permissive : JSValue;
  roles : JSValue;
  cmd : JSValue;
  qual : JSValue;
  with_check : JSValue;
}.
End Policy.

Module Function.
Record t : Type := {
  function_name : jsstring;
  arguments : jsstring;
  return_type : JSValue;
  kind : JSValue;
  security_definer : JSValue;
  language : JSValue;
}.
End Function.

Module Trigger.
Record t : Type := {
  trigger_name : jsstring;
  event_manipulation : jsstring;
  event_object_table : jsstring;
  action_statement : JSValue;
  action_timing : JSValue;
  action_orientation : JSValue;
}.
End Trigger.

Module Schema.
Record t : Type := {
  tables : list Table.t;
  columns : list Column.t;
  indexes : list Index.t;
  foreignKeys : list ForeignKey.t;
  enums : list Enum.t;
  policies : list Policy.t;
  functions : list Function.t;
  triggers : list Trigger.t;
}.
End Schema.

(** ** Diff results *)

(** [{ onlyInA, onlyInB, common }]. *)
Module TableDiff.
Record t : Type := {
  onlyInA : list jsstring;
  onlyInB : list jsstring;
  common : list jsstring;
}.
End TableDiff.

(** [{ onlyInA, onlyInB, changed }], with the shape of a [changed] entry
    left to the category. *)
Module Keyed.
Record t (C : Type) : Type := {
  onlyInA : list jsstring;
  onlyInB : list jsstring;
  changed : list C;
}.
Arguments onlyInA {C} _.
Arguments onlyInB {C} _.
Arguments changed {C} _.
End Keyed.

(** [{ field, valueA, valueB }]. *)
Record FieldDiff : Type := {
  field : jsstring;
  valueA : JSValue;
  valueB : JSValue;
}.

(** [{ column, differences }]. *)
Record ColumnChange : Type := {
  column : jsstring;
  differences : list FieldDiff;
}.

(** [{ name, valuesA, valuesB }]. *)
Record EnumChange : Type := {
  name : jsstring;
  valuesA : list jsstring;
  valuesB : list jsstring;
}.

(** A [changed] entry of the five routines built on [Map]: an object
    literal with three properties, whose names differ by routine. *)
Abbreviation KeyedChange := (JSObject JSValue).

Module DiffResult.
Record t : Type := {
  labelA : jsstring;
  labelB : jsstring;
  tables : TableDiff.t;
  columns : JSObject (Keyed.t ColumnChange);
  indexes : Keyed.t KeyedChange;
  foreignKeys : Keyed.t KeyedChange;
  enums : Keyed.t EnumChange;
  policies : Keyed.t KeyedChange;
  functions : Keyed.t KeyedChange;
  triggers : Keyed.t KeyedChange;
}.
End DiffResult.

Record Stats : Type := {
  tablesOnlyA : nat; tablesOnlyB : nat; tablesCommon : nat;
  columnsOnlyA : nat; columnsOnlyB : nat; columnsChanged : nat;
  indexesOnlyA : nat; indexesOnlyB : nat; indexesChanged : nat;
  fksOnlyA : nat; fksOnlyB : nat; fksChanged : nat;
  enumsOnlyA : nat; enumsOnlyB : nat; enumsChanged : nat;
  policiesOnlyA : nat; policiesOnlyB : nat; policiesChanged : nat;
  functionsOnlyA : nat; functionsOnlyB : nat; functionsChanged : nat;
  triggersOnlyA : nat; triggersOnlyB : nat; triggersChanged : nat;
}.

(** ** Helpers *)

(** [normalize(v)]. *)
Definition normalize (v : JSValue) : jsstring :=
  match v with
  | JNull | JUndefined => []
  | _ => trim (ToString v)
  end.

(** One turn of the loop in [groupBy]: [if (!result[key]) result[key] =
    []; result[key].push(item)]. An array is truthy, so an own entry is
    kept; an inherited property is truthy too, and calling its missing
    [push] throws. [buildMap] in [diffEnums] is the same loop, pushing
    [e.enum_value] under [e.enum_name]. *)
Definition push_under {T} (result : JSObject (list T)) (key : jsstring) (item : T)
    : Completion (JSObject (list T)) :=
  match obj_get result key with
  | Absent => Normal (obj_set (obj_set result key []) key [item])
  | Own arr => Normal (obj_set result key (arr ++ [item]))
  | Inherited => Throw TypeError
  end.

(** [groupBy(arr, fn)]. *)
Definition groupBy {T} (arr : list T) (fn : T → jsstring)
    : Completion (JSObject (list T)) :=
  for_of (λ result item, push_under result (fn item) item) arr [].

(** [arr.find(pred)]; [None] is [undefined]. *)
Fixpoint Array_find {T} (pred : T → bool) (arr : list T) : option T :=
  match arr with
  | [] => None
  | x :: rest => if pred x then Some x else Array_find pred rest
  end.

(** ** Tables *)

Definition diffTables (a b : Schema.t) : TableDiff.t :=
  let namesA := new_Set (Table.table_name <$> Schema.tables a) in
  let namesB := new_Set (Table.table_name <$> Schema.tables b) in
  {| TableDiff.onlyInA := Array_sort (filter (λ n, negb (Set_has namesB n)) namesA);
     TableDiff.onlyInB := Array_sort (filter (λ n, negb (Set_has namesA n)) namesB);
     TableDiff.common := Array_sort (filter (λ n, Set_has namesB n) namesA) |}.

(** ** Columns *)

Definition fields : list jsstring :=
  js <$> ["data_type"; "udt_name"; "character_maximum_length";
          "numeric_precision"; "numeric_scale"; "is_nullable";
          "column_default"; "is_identity"; "identity_generation";
          "is_generated"; "generation_expression"]%string.

Definition compareColumnDetails (a b : Column.t) : list FieldDiff :=
  foldl (λ diffs f,
           let vA := normalize (Column.get a f) in
           let vB := normalize (Column.get b f) in
           if decide (vA ≠ vB)
           then diffs ++ [{| field := f; valueA := Column.get a f;
                             valueB := Column.get b f |}]
           else diffs)
        [] fields.

(** [mapX[table] || []]; an inherited property would be kept by [||] and
    then fail at [.map]. *)
Definition cols_of (mapX : JSObject (list Column.t)) (table : jsstring)
    : Completion (list Column.t) :=
  match obj_get mapX table with
  | Own cols => Normal cols
  | Absent => Normal []
  | Inherited => Throw TypeError
  end.

(** The inner loop of [diffColumns] over [colNamesA]; a column that
    [find] does not return would fail at the first field read. *)
Definition changed_columns (colsA colsB : list Column.t)
    (colNamesA colNamesB : list jsstring) : Completion (list ColumnChange) :=
  for_of (λ changed name,
            if negb (Set_has colNamesB name) then Normal changed
            else
              match Array_find (λ c, bool_decide (Column.column_name c = name)) colsA,
                    Array_find (λ c, bool_decide (Column.column_name c = name)) colsB with
              | Some cA, Some cB =>
                  let diffs := compareColumnDetails cA cB in
                  if (0 <? length diffs)%nat
                  then Normal (changed ++ [{| column := name; differences := diffs |}])
                  else Normal changed
              | _, _ => Throw TypeError
              end)
         colNamesA [].

(** The body of the loop of [diffColumns] over [allTables]. *)
Definition diffColumns_table (mapA mapB : JSObject (list Column.t))
    (result : JSObject (Keyed.t ColumnChange)) (table : jsstring)
    : Completion (JSObject (Keyed.t ColumnChange)) :=
  colsA ← cols_of mapA table;
  colsB ← cols_of mapB table;
  let colNamesA := new_Set (Column.column_name <$> colsA) in
  let colNamesB := new_Set (Column.column_name <$> colsB) in
  let onlyInA := filter (λ n, negb (Set_has colNamesB n)) colNamesA in
  let onlyInB := filter (λ n, negb (Set_has colNamesA n)) colNamesB in
  changed ← changed_columns colsA colsB colNamesA colNamesB;
  if (0 <? length onlyInA)%nat || (0 <? length onlyInB)%nat
     || (0 <? length changed)%nat
  then Normal (obj_set result table
                 {| Keyed.onlyInA := onlyInA; Keyed.onlyInB := onlyInB;
                    Keyed.changed := changed |})
  else Normal result.

Definition diffColumns (a b : Schema.t)
    : Completion (JSObject (Keyed.t ColumnChange)) :=
  mapA ← groupBy (Schema.columns a) Column.table_name;
  mapB ← groupBy (Schema.columns b) Column.table_name;
  let allTables := new_Set (Object_keys mapA ++ Object_keys mapB) in
  for_of (diffColumns_table mapA mapB) allTables [].

(** ** The five routines built on [Map]

    [diffIndexes], [diffForeignKeys], [diffPolicies], [diffFunctions] and
    [diffTriggers] repeat one body; they differ in the key and value
    functions and in the property names of a [changed] entry. *)

Section keyed.
Context {R : Type} (keyFn valFn : R → jsstring) (nameA nameB : string).

Definition keyed_entry (mapA mapB : list (jsstring * jsstring)) (k : jsstring)
    : KeyedChange :=
  [(js "key", JStr k);
   (js nameA, from_option JStr JUndefined (Map_get mapA k));
   (js nameB, from_option JStr JUndefined (Map_get mapB k))].

Definition diffKeyed (recsA recsB : list R) : Keyed.t KeyedChange :=
  let mapA := new_Map ((λ r, (keyFn r, valFn r)) <$> recsA) in
  let mapB := new_Map ((λ r, (keyFn r, valFn r)) <$> recsB) in
  {| Keyed.onlyInA :=
       Array_sort (filter (λ k, negb (Map_has mapB k)) (Map_keys mapA));
     Keyed.onlyInB :=
       Array_sort (filter (λ k, negb (Map_has mapA k)) (Map_keys mapB));
     Keyed.changed :=
       keyed_entry mapA mapB <$>
         filter (λ k, Map_has mapB k
                      && bool_decide (Map_get mapA k ≠ Map_get mapB k))
                (Map_keys mapA) |}.
End keyed.

(** The [keyFn] and [valFn] constants of each routine. *)
Definition diffIndexes_keyFn (i : Index.t) : jsstring :=
  Index.tablename i ++ js "::" ++ Index.indexname i.

Definition diffForeignKeys_keyFn (fk : ForeignKey.t) : jsstring :=
  ForeignKey.table_name fk ++ js "." ++ ForeignKey.constraint_name fk.

Definition diffForeignKeys_valFn (fk : ForeignKey.t) : jsstring :=
  ForeignKey.column_name fk ++ js "->" ++ ForeignKey.foreign_table_name fk
  ++ js "." ++ ForeignKey.foreign_column_name fk.

Definition diffPolicies_keyFn (p : Policy.t) : jsstring :=
  Policy.tablename p ++ js "::" ++ Policy.policyname p.

Definition diffPolicies_valFn (p : Policy.t) : jsstring :=
  JSON_stringify_object
    [("permissive", Policy.permissive p); ("roles", Policy.roles p);
     ("cmd", Policy.cmd p); ("qual", Policy.qual p);
     ("with_check", Policy.with_check p)]%string.

Definition diffFunctions_keyFn (f : Function.t) : jsstring :=
  Function.function_name f ++ js "(" ++ Function.arguments f ++ js ")".

Definition diffFunctions_valFn (f : Function.t) : jsstring :=
  JSON_stringify_object
    [("return_type", Function.return_type f); ("kind", Function.kind f);
     ("security_definer", Function.security_definer f);
     ("language", Function.language f)]%string.

Definition diffTriggers_keyFn (t : Trigger.t) : jsstring :=
  Trigger.event_object_table t ++ js "::" ++ Trigger.trigger_name t
  ++ js "::" ++ Trigger.event_manipulation t.

Definition diffTriggers_valFn (t : Trigger.t) : jsstring :=
  JSON_stringify_object
    [("action_statement", Trigger.action_statement t);
     ("action_timing", Trigger.action_timing t);
     ("action_orientation", Trigger.action_orientation t)]%string.

(** [diffIndexes] stores [i.indexdef] itself and names the two values
    [defA] and [defB]. *)
Definition diffIndexes (a b : Schema.t) : Keyed.t KeyedChange :=
  diffKeyed diffIndexes_keyFn Index.indexdef "defA" "defB"
            (Schema.indexes a) (Schema.indexes b).

Definition diffForeignKeys (a b : Schema.t) : Keyed.t KeyedChange :=
  diffKeyed diffForeignKeys_keyFn diffForeignKeys_valFn "valueA" "valueB"
            (Schema.foreignKeys a) (Schema.foreignKeys b).

Definition diffPolicies (a b : Schema.t) : Keyed.t KeyedChange :=
  diffKeyed diffPolicies_keyFn diffPolicies_valFn "valueA" "valueB"
            (Schema.policies a) (Schema.policies b).

(** [diffFunctions] names the two values [signatureA] and [signatureB]. *)
Definition diffFunctions (a b : Schema.t) : Keyed.t KeyedChange :=
  diffKeyed diffFunctions_keyFn diffFunctions_valFn "signatureA" "signatureB"
            (Schema.functions a) (Schema.functions b).

Definition diffTriggers (a b : Schema.t) : Keyed.t KeyedChange :=
  diffKeyed diffTriggers_keyFn diffTriggers_valFn "valueA" "valueB"
            (Schema.triggers a) (Schema.triggers b).

(** ** Enums *)

(** [buildMap(enums)], local to [diffEnums]. *)
Definition buildMap (enums : list Enum.t) : Completion (JSObject (list jsstring)) :=
  for_of (λ map e, push_under map (Enum.enum_name e) (Enum.enum_value e)) enums [].

(** The loop of [diffEnums] over [namesA]. [mapX[name].sort()] sorts the
    array stored in the map in place; each name is visited once and the
    maps are not read afterwards, so only the sorted result is kept. *)
Definition changed_enums (mapA mapB : JSObject (list jsstring))
    (namesA namesB : list jsstring) : Completion (list EnumChange) :=
  for_of (λ changed name,
            if negb (Set_has namesB name) then Normal changed
            else
              match obj_get mapA name, obj_get mapB name with
              | Own arrA, Own arrB =>
                  let valsA := Array_sort arrA in
                  let valsB := Array_sort arrB in
                  if decide (JSON_stringify_strings valsA
                             ≠ JSON_stringify_strings valsB)
                  then Normal (changed ++ [{| name := name; valuesA := valsA;
                                              valuesB := valsB |}])
                  else Normal changed
              | _, _ => Throw TypeError
              end)
         namesA [].

Definition diffEnums (a b : Schema.t) : Completion (Keyed.t EnumChange) :=
  mapA ← buildMap (Schema.enums a);
  mapB ← buildMap (Schema.enums b);
  let namesA := new_Set (Object_keys mapA) in
  let namesB := new_Set (Object_keys mapB) in
  changed ← changed_enums mapA mapB namesA namesB;
  Normal {| Keyed.onlyInA :=
              Array_sort (filter (λ n, negb (Set_has namesB n)) namesA);
            Keyed.onlyInB :=
              Array_sort (filter (λ n, negb (Set_has namesA n)) namesB);
            Keyed.changed := changed |}.

(** ** The orchestrator *)

(** [diffSchemas(schemaA, schemaB, labelA, labelB)]; the properties of the
    object literal are evaluated in the order they are written. *)
Definition diffSchemas (schemaA schemaB : Schema.t) (labelA labelB : jsstring)
    : Completion DiffResult.t :=
  let tables := diffTables schemaA schemaB in
  columns ← diffColumns schemaA schemaB;
  let indexes := diffIndexes schemaA schemaB in
  let foreignKeys := diffForeignKeys schemaA schemaB in
  enums ← diffEnums schemaA schemaB;
  let policies := diffPolicies schemaA schemaB in
  let functions := diffFunctions schemaA schemaB in
  let triggers := diffTriggers schemaA schemaB in
  Normal {| DiffResult.labelA := labelA;
            DiffResult.labelB := labelB;
            DiffResult.tables := tables;
            DiffResult.columns := columns;
            DiffResult.indexes := indexes;
            DiffResult.foreignKeys := foreignKeys;
            DiffResult.enums := enums;
            DiffResult.policies := policies;
            DiffResult.functions := functions;
            DiffResult.triggers := triggers |}.

(** ** Stats *)

Definition computeStats (diff : DiffResult.t) : Stats :=
  let '(columnsOnlyA, columnsOnlyB, columnsChanged) :=
    foldl (λ '(oa, ob, ch) table,
             (oa + length (Keyed.onlyInA table),
              ob + length (Keyed.onlyInB table),
              ch + length (Keyed.changed table))%nat)
          (0, 0, 0)%nat
          (Object_values (DiffResult.columns diff)) in
  {| tablesOnlyA := length (TableDiff.onlyInA (DiffResult.tables diff));
     tablesOnlyB := length (TableDiff.onlyInB (DiffResult.tables diff));
     tablesCommon := length (TableDiff.common (DiffResult.tables diff));
     columnsOnlyA := columnsOnlyA;
     columnsOnlyB := columnsOnlyB;
     columnsChanged := columnsChanged;
     indexesOnlyA := length (Keyed.onlyInA (DiffResult.indexes diff));
     indexesOnlyB := length (Keyed.onlyInB (DiffResult.indexes diff));
     indexesChanged := length (Keyed.changed (DiffResult.indexes diff));
     fksOnlyA := length (Keyed.onlyInA (DiffResult.foreignKeys diff));
     fksOnlyB := length (Keyed.onlyInB (DiffResult.foreignKeys diff));
     fksChanged := length (Keyed.changed (DiffResult.foreignKeys diff));
     enumsOnlyA := length (Keyed.onlyInA (DiffResult.enums diff));
     enumsOnlyB := length (Keyed.onlyInB (DiffResult.enums diff));
     enumsChanged := length (Keyed.changed (DiffResult.enums diff));
     policiesOnlyA := length (Keyed.onlyInA (DiffResult.policies diff));
     policiesOnlyB := length (Keyed.onlyInB (DiffResult.policies diff));
     policiesChanged := length (Keyed.changed (DiffResult.policies diff));
     functionsOnlyA := length (Keyed.onlyInA (DiffResult.functions diff));
     functionsOnlyB := length (Keyed.onlyInB (DiffResult.functions diff));
     functionsChanged := length (Keyed.changed (DiffResult.functions diff));
     triggersOnlyA := length (Keyed.onlyInA (DiffResult.triggers diff));
     triggersOnlyB := length (Keyed.onlyInB (DiffResult.triggers diff));
     triggersChanged := length (Keyed.changed (DiffResult.triggers diff)) |}.

(** ** Sample data: the scenarios of the specification *)

Definition empty_schema : Schema.t :=
  {| Schema.tables := []; Schema.columns := []; Schema.indexes := [];
     Schema.foreignKeys := []; Schema.enums := []; Schema.policies := [];
     Schema.functions := []; Schema.triggers := [] |}.

Definition mk_table (n : string) : Table.t :=
  {| Table.table_name := js n; Table.table_type := JStr (js "BASE TABLE");
     Table.comment := JNull |}.

(** A [text] column with the given nullability. *)
Definition mk_column (t c nullable : string) : Column.t :=
  {| Column.table_name := js t; Column.column_name := js c;
     Column.ordinal_position := JNum 1;
     Column.data_type := JStr (js "text"); Column.udt_name := JStr (js "text");
     Column.character_maximum_length := JNull;
     Column.numeric_precision := JNull; Column.numeric_scale := JNull;
     Column.is_nullable := JStr (js nullable); Column.column_default := JNull;
     Column.is_identity := JStr (js "NO"); Column.identity_generation := JNull;
     Column.is_generated := JStr (js "NEVER");
     Column.generation_expression := JNull |}.

Definition mk_enum (n v : string) : Enum.t :=
  {| Enum.enum_name := js n; Enum.enum_value := js v;
     Enum.enumsortorder := JNum 1 |}.

Definition mk_index (t i d : string) : Index.t :=
  {| Index.schemaname := js "public"; Index.tablename := js t;
     Index.indexname := js i; Index.indexdef := js d |}.

Definition mk_function (n args : string) (secdef : bool) : Function.t :=
  {| Function.function_name := js n; Function.arguments := js args;
     Function.return_type := JStr (js "integer");
     Function.kind := JStr (js "function");
     Function.security_definer := JBool secdef;
     Function.language := JStr (js "sql") |}.

Definition with_tables (l : list Table.t) : Schema.t :=
  {| Schema.tables := l; Schema.columns := []; Schema.indexes := [];
     Schema.foreignKeys := []; Schema.enums := []; Schema.policies := [];
     Schema.functions := []; Schema.triggers := [] |}.

Definition with_columns (l : list Column.t) : Schema.t :=
  {| Schema.tables := []; Schema.columns := l; Schema.indexes := [];
     Schema.foreignKeys := []; Schema.enums := []; Schema.policies := [];
     Schema.functions := []; Schema.triggers := [] |}.

Definition with_enums (l : list Enum.t) : Schema.t :=
  {| Schema.tables := []; Schema.columns := []; Schema.indexes := [];
     Schema.foreignKeys := []; Schema.enums := l; Schema.policies := [];
     Schema.functions := []; Schema.triggers := [] |}.

Definition with_indexes (l : list Index.t) : Schema.t :=
  {| Schema.tables := []; Schema.columns := []; Schema.indexes := l;
     Schema.foreignKeys := []; Schema.enums := []; Schema.policies := [];
     Schema.functions := []; Schema.triggers := [] |}.

Definition with_functions (l : list Function.t) : Schema.t :=
  {| Schema.tables := []; Schema.columns := []; Schema.indexes := [];
     Schema.foreignKeys := []; Schema.enums := []; Schema.policies := [];
     Schema.functions := l; Schema.triggers := [] |}.

(** ** Notions used to state the properties *)

(** Sorted for the default sort order, and free of duplicates. *)
Definition sorted_nodup (l : list jsstring) : Prop :=
  Sorted str_le l ∧ NoDup l.

(** No column's table name and no enum type name is a property name that
    plain objects inherit. *)
Definition prototype_free (s : Schema.t) : Prop :=
  Forall (λ c, Column.table_name c ∉ Object_prototype_keys) (Schema.columns s)
  ∧ Forall (λ e, Enum.enum_name e ∉ Object_prototype_keys) (Schema.enums s).

(** The last record of a collection, in its order, that has key [k]. *)
Definition last_with_key {R} (keyFn : R → jsstring) (k : jsstring)
    (recs : list R) : option R :=
  last (filter (λ r, keyFn r = k) recs).

(** The column records of table [t] named [n], in snapshot order. *)
Definition columns_named (s : Schema.t) (t n : jsstring) : list Column.t :=
  filter (λ c, Column.table_name c = t ∧ Column.column_name c = n)
         (Schema.columns s).

(** The member values recorded for enum type [n], in snapshot order. *)
Definition enum_values (s : Schema.t) (n : jsstring) : list jsstring :=
  Enum.enum_value <$> filter (λ e, Enum.enum_name e = n) (Schema.enums s).

(** The property names of an object literal, in order. *)
Definition property_names {V} (o : JSObject V) : list jsstring := o.*1.

(** The [key] property of every [changed] entry, as a renderer reads it
    with [ch.key]. *)
Definition changed_keys (d : Keyed.t KeyedChange) : list JSValue :=
  omap (λ e, Map_get e (js "key")) (Keyed.changed d).

(** The object literal [{ key: k, nameA: vA, nameB: vB }]. *)
Definition entry_literal (nameA nameB : string) (k vA vB : jsstring)
    : KeyedChange :=
  [(js "key", JStr k); (js nameA, JStr vA); (js nameB, JStr vB)].

(** [e] reports key [k] with the values derived from the last record of
    either side that has this key, the two values being different. *)
Definition changed_entry_of {R} (keyFn valFn : R → jsstring)
    (nameA nameB : string) (recsA recsB : list R) (e : KeyedChange) : Prop :=
  ∃ k rA rB,
    last_with_key keyFn k recsA = Some rA
    ∧ last_with_key keyFn k recsB = Some rB
    ∧ valFn rA ≠ valFn rB
    ∧ e = entry_literal nameA nameB k (valFn rA) (valFn rB).

(** Duplicate keys inside one collection: the output mentions a key at
    most once, and whether and how a key present on both sides is
    reported depends on the last record of each side only. *)
Definition last_record_wins {R} (keyFn valFn : R → jsstring)
    (recsA recsB : list R) (d : Keyed.t KeyedChange) : Prop :=
  NoDup ((JStr <$> Keyed.onlyInA d) ++ (JStr <$> Keyed.onlyInB d)
         ++ changed_keys d)
  ∧ ∀ k rA rB,
      last_with_key keyFn k recsA = Some rA →
      last_with_key keyFn k recsB = Some rB →
      (k ∉ Keyed.onlyInA d) ∧ (k ∉ Keyed.onlyInB d)
      ∧ if decide (valFn rA = valFn rB)
        then JStr k ∉ changed_keys d
        else ∃ e, e ∈ Keyed.changed d
                  ∧ e.*2 = [JStr k; JStr (valFn rA); JStr (valFn rB)].

(** Snapshot [s] records a column [n] under table [t]. *)
Definition has_column (s : Schema.t) (t n : jsstring) : Prop :=
  columns_named s t n ≠ [].

(** Column [n] of table [t] is recorded in [s] and not in [s']. *)
Definition column_only_in (s s' : Schema.t) (t n : jsstring) : Prop :=
  has_column s t n ∧ ¬ has_column s' t n.

(** Column [n] of table [t] is recorded on both sides, and the first
    record of each side differ in some compared field. *)
Definition column_changed (a b : Schema.t) (t n : jsstring) : Prop :=
  ∃ cA cB, head (columns_named a t n) = Some cA
           ∧ head (columns_named b t n) = Some cB
           ∧ compareColumnDetails cA cB ≠ [].

(** What the inner loop of [diffColumns] pushes for column name [n], if
    anything, when it does not throw. *)
Definition column_change (colsA colsB : list Column.t) (n : jsstring)
    : option ColumnChange :=
  cA ← head (filter (λ c, Column.column_name c = n) colsA);
  cB ← head (filter (λ c, Column.column_name c = n) colsB);
  let diffs := compareColumnDetails cA cB in
  if decide (diffs = []) then None
  else Some {| column := n; differences := diffs |}.

(** What one turn of the outer loop of [diffColumns] computes for table
    [t], when it does not throw. *)
Definition table_delta (a b : Schema.t) (t : jsstring) : Keyed.t ColumnChange :=
  let colsA := filter (λ c, Column.table_name c = t) (Schema.columns a) in
  let colsB := filter (λ c, Column.table_name c = t) (Schema.columns b) in
  let colNamesA := new_Set (Column.column_name <$> colsA) in
  let colNamesB := new_Set (Column.column_name <$> colsB) in
  {| Keyed.onlyInA := filter (λ n, negb (Set_has colNamesB n)) colNamesA;
     Keyed.onlyInB := filter (λ n, negb (Set_has colNamesA n)) colNamesB;
     Keyed.changed := omap (column_change colsA colsB) colNamesA |}.

(** A per-table record with nothing in it. *)
Definition delta_empty {C} (d : Keyed.t C) : Prop :=
  Keyed.onlyInA d = [] ∧ Keyed.onlyInB d = [] ∧ Keyed.changed d = [].

Global Instance delta_empty_dec {C} (d : Keyed.t C) : Decision (delta_empty d).
Proof.
  unfold delta_empty.
  destruct (Keyed.onlyInA d), (Keyed.onlyInB d), (Keyed.changed d);
    (left; done) || (right; intros (? & ? & ?); done).
Defined.

(** A reader for what [QuoteJSONString] writes after the opening quote:
    it yields the string read up to the closing quote, and the input
    left after it. It serves to show that the serializer keeps different
    strings apart. *)
Definition hex_value (h : N) : N :=
  if h <? 58 then h - 48 else h - 87.

Definition unescape (e : N) : option N :=
  if e =? 0x62 then Some 0x08
  else if e =? 0x74 then Some 0x09
  else if e =? 0x6E then Some 0x0A
  else if e =? 0x66 then Some 0x0C
  else if e =? 0x72 then Some 0x0D
  else if e =? 0x22 then Some 0x22
  else if e =? 0x5C then Some 0x5C
  else None.

Fixpoint unquote_body (input : jsstring) : option (jsstring * jsstring) :=
  match input with
  | [] => None
  | c :: r =>
      if c =? 0x22 then Some ([], r)
      else if c =? 0x5C then
        match r with
        | [] => None
        | e :: r' =>
            if e =? 0x75 then
              match r' with
              | h1 :: h2 :: h3 :: h4 :: r'' =>
                  match unquote_body r'' with
                  | Some (s, rest) =>
                      Some ((4096 * hex_value h1 + 256 * hex_value h2
                             + 16 * hex_value h3 + hex_value h4) :: s, rest)
                  | None => None
                  end
              | _ => None
              end
            else
              match unescape e, unquote_body r' with
              | Some u, Some (s, rest) => Some (u :: s, rest)
              | _, _ => None
              end
        end
      else
        match unquote_body r with
        | Some (s, rest) => Some (c :: s, rest)
        | None => None
        end
  end.

(** What the loop of [diffEnums] pushes for type name [n] of A, if
    anything, when it does not throw. *)
Definition enum_change (a b : Schema.t) (n : jsstring) : option EnumChange :=
  if decide (n ∈ Enum.enum_name <$> Schema.enums b)
  then
    let valsA := Array_sort (enum_values a n) in
    let valsB := Array_sort (enum_values b n) in
    if decide (valsA = valsB) then None
    else Some {| name := n; valuesA := valsA; valuesB := valsB |}
  else None.

(** The [changed] entries reported for enum type [n]. *)
Definition enum_entries (d : Keyed.t EnumChange) (n : jsstring) : list EnumChange :=
  filter (λ e, name e = n) (Keyed.changed d).

(** Two sequences with the same members, whatever their order and
    multiplicities. *)
Definition same_set (l1 l2 : list jsstring) : Prop := ∀ x, x ∈ l1 ↔ x ∈ l2.

(** Both lists of a category result are sorted and free of duplicates. *)
Definition keyed_sorted {C} (d : Keyed.t C) : Prop :=
  sorted_nodup (Keyed.onlyInA d) ∧ sorted_nodup (Keyed.onlyInB d).

(** The sort invariant over a whole result, the per-table column lists
    included. *)
Definition sort_invariant (r : DiffResult.t) : Prop :=
  sorted_nodup (TableDiff.onlyInA (DiffResult.tables r))
  ∧ sorted_nodup (TableDiff.onlyInB (DiffResult.tables r))
  ∧ (∀ t d, (t, d) ∈ DiffResult.columns r → keyed_sorted d)
  ∧ keyed_sorted (DiffResult.indexes r)
  ∧ keyed_sorted (DiffResult.foreignKeys r)
  ∧ keyed_sorted (DiffResult.enums r)
  ∧ keyed_sorted (DiffResult.policies r)
  ∧ keyed_sorted (DiffResult.functions r)
  ∧ keyed_sorted (DiffResult.triggers r).

(** Every [changed] entry has the properties [key], [valueA], [valueB],
    in this order and no other. *)
Definition value_fields_only (d : Keyed.t KeyedChange) : Prop :=
  ∀ e, e ∈ Keyed.changed d →
       property_names e = [js "key"; js "valueA"; js "valueB"].

(** An entry [{ key, nameA, nameB }] carrying the values derived from
    the two sides for its key. *)
Definition named_entry {R} (keyFn valFn : R → jsstring) (nameA nameB : string)
    (recsA recsB : list R) (e : KeyedChange) : Prop :=
  property_names e = [js "key"; js nameA; js nameB]
  ∧ changed_entry_of keyFn valFn nameA nameB recsA recsB e.

(** A type name known on both sides gets no [changed] entry when the two
    value sequences are equal as sets, and exactly one, holding the two
    sorted sequences, when they are not. *)
Definition enum_set_rule (a b : Schema.t) (d : Keyed.t EnumChange)
    (n : jsstring) : Prop :=
  (same_set (enum_values a n) (enum_values b n) → enum_entries d n = [])
  ∧ (¬ same_set (enum_values a n) (enum_values b n) →
     enum_entries d n
     = [{| name := n; valuesA := Array_sort (enum_values a n);
           valuesB := Array_sort (enum_values b n) |}]).

(** The same with sequences compared as multisets. *)
Definition enum_multiset_rule (a b : Schema.t) (d : Keyed.t EnumChange)
    (n : jsstring) : Prop :=
  (enum_values a n ≡ₚ enum_values b n → enum_entries d n = [])
  ∧ (¬ enum_values a n ≡ₚ enum_values b n →
     ∃ e, enum_entries d n = [e]
          ∧ name e = n
          ∧ Sorted str_le (valuesA e) ∧ valuesA e ≡ₚ enum_values a n
          ∧ Sorted str_le (valuesB e) ∧ valuesB e ≡ₚ enum_values b n).

(** More sample data. *)
Definition mk_foreign_key (t c col ft fc : string) : ForeignKey.t :=
  {| ForeignKey.table_name := js t; ForeignKey.constraint_name := js c;
     ForeignKey.column_name := js col; ForeignKey.foreign_table_name := js ft;
     ForeignKey.foreign_column_name := js fc |}.

(** Two sample snapshots touching tables, columns, indexes and enums. *)
Definition sample_A : Schema.t :=
  {| Schema.tables := [mk_table "users"; mk_table "orders"];
     Schema.columns := [mk_column "users" "email" "YES";
                        mk_column "users" "zeta" "YES";
                        mk_column "users" "alpha" "YES";
                        mk_column "users" "email" "NO"];
     Schema.indexes := [mk_index "users" "users_pkey" "d1";
                        mk_index "users" "users_pkey" "d2"];
     Schema.foreignKeys := [];
     Schema.enums := [mk_enum "status" "active"; mk_enum "status" "inactive"];
     Schema.policies := [];
     Schema.functions := [mk_function "f" "int" true];
     Schema.triggers := [] |}.

Definition sample_B : Schema.t :=
  {| Schema.tables := [mk_table "users"; mk_table "payments"];
     Schema.columns := [mk_column "users" "email" "NO"];
     Schema.indexes := [mk_index "users" "users_pkey" "d2"];
     Schema.foreignKeys := [];
     Schema.enums := [mk_enum "status" "inactive"; mk_enum "status" "active";
                      mk_enum "status" "archived"];
     Schema.policies := [];
     Schema.functions := [mk_function "f" "int" false];
     Schema.triggers := [] |}.

(** ** The HTML escape of [report-html.js] *)

(** [s.replace(/c/g, rep)] for a pattern of one character [c] and a
    replacement text without [$]. *)
Definition replace_all (c : N) (rep s : jsstring) : jsstring :=
  concat ((λ x, if x =? c then rep else [x]) <$> s).

(** [esc(s)]: [String(s)] with [&], [<], [>] and the double quote
    replaced, in this order. *)
Definition esc (s : JSValue) : jsstring :=
  replace_all 0x22 (js "&quot;")
    (replace_all 0x3E (js "&gt;")
       (replace_all 0x3C (js "&lt;")
          (replace_all 0x26 (js "&amp;") (ToString s)))).

(** ** The command line of [index.js] *)

(** [s.startsWith(p)]. *)
Definition startsWith (p s : jsstring) : bool :=
  bool_decide (take (length p) s = p).

(** The loop of [parseFlags], on the arguments from index [i] on:
    [args[i + 1]] is [undefined] past the end, and an empty string is
    falsy, so either leaves the flag with [true]; a value that is taken
    is skipped by the extra [i++]. Every key stored starts with [-], so
    [flags[arg] = ...] never meets [__proto__]. *)
Fixpoint parseFlags_from (flags : JSObject JSValue) (args : list jsstring)
    : JSObject JSValue :=
  match args with
  | [] => flags
  | arg :: rest =>
      if startsWith (js "-") arg then
        match rest with
        | next :: rest' =>
            if negb (bool_decide (next = [])) && negb (startsWith (js "-") next)
            then parseFlags_from (obj_set flags arg (JStr next)) rest'
            else parseFlags_from (obj_set flags arg (JBool true)) rest
        | [] => obj_set flags arg (JBool true)
        end
      else parseFlags_from flags rest
  end.

(** [parseFlags(args)]. *)
Definition parseFlags (args : list jsstring) : JSObject JSValue :=
  parseFlags_from [] args.

(** A string fit to be taken as the value of a flag. *)
Definition flag_value (s : jsstring) : Prop :=
  s ≠ [] ∧ startsWith (js "-") s = false.

(** ** The terminal report of [report-terminal.js] *)

(** The [colors] helpers that [printSimpleSection] uses. *)
Definition ansi (on off : string) (s : jsstring) : jsstring :=
  [0x1B] ++ js on ++ s ++ [0x1B] ++ js off.

Definition colors_bold : jsstring → jsstring := ansi "[1m" "[22m".
Definition colors_dim : jsstring → jsstring := ansi "[2m" "[22m".
Definition colors_green : jsstring → jsstring := ansi "[32m" "[39m".
Definition colors_yellow : jsstring → jsstring := ansi "[33m" "[39m".
Definition colors_blue : jsstring → jsstring := ansi "[34m" "[39m".

(** [s.repeat(n)]. *)
Definition String_repeat (s : jsstring) (n : nat) : jsstring :=
  concat (replicate n s).

(** [String(n)] for a length. *)
Definition nat_to_string (n : nat) : jsstring := js (pretty n).

(** [ch.key] inside a template literal. *)
Definition entry_key_text (ch : KeyedChange) : jsstring :=
  match Map_get ch (js "key") with
  | Some v => ToString v
  | None => js "undefined"
  end.

(** The lines one "only in" block logs: a heading, at most [15] keys,
    and a remainder line when keys were left out. *)
Definition only_in_block (color : jsstring → jsstring) (side label : jsstring)
    (keys : list jsstring) : list jsstring :=
  if (0 <? length keys)%nat then
    [color (js "  Only in " ++ side ++ js " (" ++ label ++ js "): "
            ++ nat_to_string (length keys) ++ js " items")]
    ++ ((λ k, color (js "    + " ++ k)) <$> take 15 keys)
    ++ (if (15 <? length keys)%nat
        then [colors_dim (js "    ... and " ++ nat_to_string (length keys - 15)
                          ++ js " more")]
        else [])
  else [].

(** [printSimpleSection(title, section, labelA, labelB)]: the lines it
    passes to [console.log], in order; a call without argument logs an
    empty line. *)
Definition printSimpleSection (title : jsstring) (section : Keyed.t KeyedChange)
    (labelA labelB : jsstring) : list jsstring :=
  if negb (0 <? length (Keyed.onlyInA section))%nat
     && negb (0 <? length (Keyed.onlyInB section))%nat
     && negb (0 <? length (Keyed.changed section))%nat
  then []
  else
    [colors_bold ([0x2500; 0x2500; 0x2500; 0x20] ++ title ++ [0x20]
                  ++ String_repeat [0x2500]
                       (Z.to_nat (Z.max 0 (60 - Z.of_nat (length title) - 5))))]
    ++ only_in_block colors_green (js "A") labelA (Keyed.onlyInA section)
    ++ only_in_block colors_blue (js "B") labelB (Keyed.onlyInB section)
    ++ (if (0 <? length (Keyed.changed section))%nat then
          [colors_yellow (js "  Changed: "
                          ++ nat_to_string (length (Keyed.changed section))
                          ++ js " items")]
          ++ ((λ ch, colors_yellow (js "    ~ " ++ entry_key_text ch))
                <$> take 10 (Keyed.changed section))
          ++ (if (10 <? length (Keyed.changed section))%nat
              then [colors_dim (js "    ... and "
                                ++ nat_to_string
                                     (length (Keyed.changed section) - 10)
                                ++ js " more")]
              else [])
        else [])
    ++ [[]].

(** The number of lines a block of [n] items capped at [cap] takes. *)
Definition block_lines (cap n : nat) : nat :=
  if (0 <? n)%nat then 1 + n `min` cap + (if (cap <? n)%nat then 1 else 0) else 0.

(** ** Notions used by the further properties *)

(** [d] lists under [onlyInA] exactly the keys of [recsA] that no record
    of [recsB] has, and the converse under [onlyInB]. *)
Definition only_in_exact {R} (keyFn : R → jsstring) (recsA recsB : list R)
    (d : Keyed.t KeyedChange) : Prop :=
  ∀ k, (k ∈ Keyed.onlyInA d ↔ k ∈ keyFn <$> recsA ∧ k ∉ keyFn <$> recsB)
       ∧ (k ∈ Keyed.onlyInB d ↔ k ∈ keyFn <$> recsB ∧ k ∉ keyFn <$> recsA).

(** [d'] is [d] seen from the other side: the two "only in" lists are
    exchanged, and the same keys are reported as changed. *)
Definition keyed_swapped (d d' : Keyed.t KeyedChange) : Prop :=
  Keyed.onlyInA d' = Keyed.onlyInB d
  ∧ Keyed.onlyInB d' = Keyed.onlyInA d
  ∧ changed_keys d' ≡ₚ changed_keys d.

(** The keys of [changed] follow the order in which the keys first occur
    among the records of A. *)
Definition changed_in_order_of {R} (keyFn : R → jsstring) (recsA : list R)
    (d : Keyed.t KeyedChange) : Prop :=
  ∃ ks, changed_keys d = JStr <$> ks
        ∧ ks `sublist_of` new_Set (keyFn <$> recsA).

(** A field difference read from the other side. *)
Definition swap_values (d : FieldDiff) : FieldDiff :=
  {| field := field d; valueA := valueB d; valueB := valueA d |}.

(** One of the four characters [esc] replaces. *)
Definition html_special (c : N) : bool :=
  (c =? 0x26) || (c =? 0x3C) || (c =? 0x3E) || (c =? 0x22).

(** What [esc] makes of one code unit. *)
Definition esc_unit (c : N) : jsstring :=
  if c =? 0x26 then js "&amp;"
  else if c =? 0x3C then js "&lt;"
  else if c =? 0x3E then js "&gt;"
  else if c =? 0x22 then js "&quot;"
  else [c].

(** The stats [s'] are the stats [s] with the two sides exchanged: the
    "only in" counts change places and the other counts stay. *)
Definition stats_swapped (s s' : Stats) : Prop :=
  tablesOnlyA s' = tablesOnlyB s ∧ tablesOnlyB s' = tablesOnlyA s
  ∧ tablesCommon s' = tablesCommon s
  ∧ columnsOnlyA s' = columnsOnlyB s ∧ columnsOnlyB s' = columnsOnlyA s
  ∧ columnsChanged s' = columnsChanged s
  ∧ indexesOnlyA s' = indexesOnlyB s ∧ indexesOnlyB s' = indexesOnlyA s
  ∧ indexesChanged s' = indexesChanged s
  ∧ fksOnlyA s' = fksOnlyB s ∧ fksOnlyB s' = fksOnlyA s
  ∧ fksChanged s' = fksChanged s
  ∧ enumsOnlyA s' = enumsOnlyB s ∧ enumsOnlyB s' = enumsOnlyA s
  ∧ enumsChanged s' = enumsChanged s
  ∧ policiesOnlyA s' = policiesOnlyB s ∧ policiesOnlyB s' = policiesOnlyA s
  ∧ policiesChanged s' = policiesChanged s
  ∧ functionsOnlyA s' = functionsOnlyB s ∧ functionsOnlyB s' = functionsOnlyA s
  ∧ functionsChanged s' = functionsChanged s
  ∧ triggersOnlyA s' = triggersOnlyB s ∧ triggersOnlyB s' = triggersOnlyA s
  ∧ triggersChanged s' = triggersChanged s.

(** * Properties *)

(** ** The default sort order *)

(** Case analysis on every code-unit comparison in sight. *)
Ltac unit_cases :=
  repeat match goal with
    | |- context [N.ltb ?a ?b] => destruct (N.ltb_spec0 a b)
    | |- context [N.eqb ?a ?b] => destruct (N.eqb_spec a b)
    end;
  try done; try lia.

Lemma str_ltb_irrefl s : str_ltb s s = false.
Proof. induction s as [|a s IH]; simpl; [done|]. by unit_cases. Qed.

Lemma str_ltb_asym s t : str_ltb s t = true → str_ltb t s = false.
Proof.
  revert t. induction s as [|a s IH]; intros [|b t]; simpl; try done.
  unit_cases. apply IH.
Qed.

Lemma str_ltb_trichotomy s t :
  str_ltb s t = false → str_ltb t s = false → s = t.
Proof.
  revert t. induction s as [|a s IH]; intros [|b t]; simpl; try done.
  unit_cases. intros. subst. f_equal. by apply IH.
Qed.

Lemma str_ltb_trans s t u :
  str_ltb s t = true → str_ltb t u = true → str_ltb s u = true.
Proof.
  revert t u. induction s as [|a s IH]; intros [|b t] [|c u]; simpl; try done.
  unit_cases. apply IH.
Qed.

Global Instance str_le_refl : Reflexive str_le.
Proof. intros s. apply str_ltb_irrefl. Qed.

Global Instance str_le_total : Total str_le.
Proof.
  intros s t. unfold str_le.
  destruct (str_ltb t s) eqn:E; [right; by apply str_ltb_asym | by left].
Qed.

Global Instance str_le_antisym : AntiSymm (=) str_le.
Proof. intros s t H1 H2. by apply str_ltb_trichotomy. Qed.

Global Instance str_le_trans : Transitive str_le.
Proof.
  intros s t u Hst Htu. unfold str_le in *.
  destruct (str_ltb u s) eqn:E; [|done].
  destruct (str_ltb t u) eqn:E2.
  - by rewrite (str_ltb_trans _ _ _ E2 E) in Hst.
  - assert (t = u) by by apply str_ltb_trichotomy. subst. congruence.
Qed.

Lemma Array_sort_sorted l : Sorted str_le (Array_sort l).
Proof. apply (Sorted_merge_sort str_le). Qed.

Lemma Array_sort_perm l : Array_sort l ≡ₚ l.
Proof. apply merge_sort_Permutation. Qed.

Lemma Array_sort_elem_of l x : x ∈ Array_sort l ↔ x ∈ l.
Proof. by rewrite Array_sort_perm. Qed.

Lemma Array_sort_nodup l : NoDup l → NoDup (Array_sort l).
Proof. by rewrite Array_sort_perm. Qed.

Lemma Array_sort_nil_inv l : Array_sort l = [] ↔ l = [].
Proof.
  split; [|by intros ->].
  intros H. apply Permutation_nil_r. rewrite <- H. by rewrite Array_sort_perm.
Qed.

Lemma Array_sort_length l : length (Array_sort l) = length l.
Proof. by rewrite Array_sort_perm. Qed.

(** Two arrays sort to the same array exactly when one is a permutation
    of the other. *)
Lemma Array_sort_eq_iff l1 l2 : Array_sort l1 = Array_sort l2 ↔ l1 ≡ₚ l2.
Proof.
  split.
  - intros H. rewrite <- (Array_sort_perm l1), <- (Array_sort_perm l2).
    by rewrite H.
  - intros H. apply (Sorted_unique str_le); try apply Array_sort_sorted.
    by rewrite !Array_sort_perm.
Qed.

Lemma Array_sort_sorted_nodup l : NoDup l → sorted_nodup (Array_sort l).
Proof. split; [apply Array_sort_sorted | by apply Array_sort_nodup]. Qed.

(** ** Lists *)

Lemma filter_nil_iff {A} (P : A → Prop) `{∀ x, Decision (P x)} (l : list A) :
  filter P l = [] ↔ Forall (λ x, ¬ P x) l.
Proof.
  induction l as [|x l IH]; [by rewrite Forall_nil|].
  rewrite filter_cons, Forall_cons. destruct (decide (P x)); naive_solver.
Qed.

Lemma filter_all {A} (P : A → Prop) `{∀ x, Decision (P x)} (l : list A) :
  Forall P l → filter P l = l.
Proof.
  induction 1 as [|x l Hx Hl IH]; [done|].
  by rewrite filter_cons_True, IH.
Qed.

Lemma filter_ext_in {A} (P Q : A → Prop) `{∀ x, Decision (P x)}
    `{∀ x, Decision (Q x)} (l : list A) :
  (∀ x, x ∈ l → (P x ↔ Q x)) → filter P l = filter Q l.
Proof.
  induction l as [|x l IH]; intros HPQ; [done|].
  rewrite !filter_cons, IH by (intros; apply HPQ; by right).
  destruct (decide (P x)) as [HP|HP], (decide (Q x)) as [HQ|HQ]; try done;
    exfalso; apply (HPQ x) in HP || apply (HPQ x) in HQ; done || by left.
Qed.

Lemma length_pos_iff {A} (l : list A) : (0 <? length l)%nat ↔ l ≠ [].
Proof. destruct l; simpl; naive_solver. Qed.

(** ** Set and Map *)

Section container_facts.
Context {K : Type} `{EqDecision K}.

Lemma Set_add_elem_of (s : list K) x y : y ∈ Set_add s x ↔ y ∈ s ∨ y = x.
Proof.
  unfold Set_add. case_decide.
  - split; [by left | intros [?| ->]; done].
  - rewrite elem_of_app, list_elem_of_singleton. done.
Qed.

Lemma Set_add_nodup (s : list K) x : NoDup s → NoDup (Set_add s x).
Proof.
  intros Hs. unfold Set_add. case_decide; [done|].
  apply NoDup_app. split_and!; [done | | apply NoDup_singleton].
  intros y Hy ->%list_elem_of_singleton. done.
Qed.

Lemma foldl_Set_add_elem_of (l s : list K) y :
  y ∈ foldl Set_add s l ↔ y ∈ s ∨ y ∈ l.
Proof.
  revert s. induction l as [|x l IH]; intros s; simpl.
  - rewrite elem_of_nil. naive_solver.
  - rewrite IH, Set_add_elem_of, elem_of_cons. naive_solver.
Qed.

Lemma foldl_Set_add_nodup (l s : list K) : NoDup s → NoDup (foldl Set_add s l).
Proof.
  revert s. induction l as [|x l IH]; intros s Hs; simpl; [done|].
  by apply IH, Set_add_nodup.
Qed.

Lemma new_Set_elem_of (l : list K) y : y ∈ new_Set l ↔ y ∈ l.
Proof.
  unfold new_Set. rewrite foldl_Set_add_elem_of, elem_of_nil. naive_solver.
Qed.

Lemma new_Set_nodup (l : list K) : NoDup (new_Set l).
Proof. apply foldl_Set_add_nodup, NoDup_nil_2. Qed.

Lemma new_Set_nil_inv (l : list K) : new_Set l = [] → l = [].
Proof.
  intros H. destruct l as [|x l]; [done|].
  assert (x ∈ new_Set (x :: l)) as Hx by (apply new_Set_elem_of; left).
  rewrite H in Hx. by apply elem_of_nil in Hx.
Qed.

Lemma Set_has_spec (s : list K) x : Set_has s x ↔ x ∈ s.
Proof. apply bool_decide_spec. Qed.

Lemma Set_has_new_Set (l : list K) x : Set_has (new_Set l) x ↔ x ∈ l.
Proof. by rewrite Set_has_spec, new_Set_elem_of. Qed.

(** Filtering a set by membership in itself keeps nothing out. *)
Lemma filter_not_has_self (s : list K) :
  filter (λ n, negb (Set_has s n)) s = [].
Proof.
  apply filter_nil_iff, Forall_forall. intros x Hx Hn.
  apply negb_True in Hn. apply Hn. by apply Set_has_spec.
Qed.

Lemma filter_has_self (s : list K) : filter (λ n, Set_has s n) s = s.
Proof.
  apply filter_all, Forall_forall. intros x Hx. by apply Set_has_spec.
Qed.

Context {V : Type}.
Implicit Types m : list (K * V).

Lemma Map_get_set m k v k' :
  Map_get (Map_set m k v) k' = if decide (k' = k) then Some v else Map_get m k'.
Proof.
  induction m as [|[k0 v0] m IH]; simpl.
  - by repeat case_decide.
  - destruct (decide (k = k0)) as [->|Hne]; simpl.
    + repeat case_decide; congruence.
    + rewrite IH. repeat case_decide; congruence.
Qed.

Lemma Map_keys_set m k v : Map_keys (Map_set m k v) = Set_add (Map_keys m) k.
Proof.
  unfold Map_keys, Set_add. induction m as [|[k0 v0] m IH]; csimpl.
  - done.
  - destruct (decide (k = k0)) as [->|Hne]; csimpl.
    + rewrite decide_True by left. done.
    + rewrite IH. destruct (decide (k ∈ m.*1)) as [Hin|Hin].
      * rewrite decide_True by (by right). done.
      * rewrite decide_False; [done|].
        intros [?|?]%elem_of_cons; done.
Qed.

Lemma Map_get_None m k : Map_get m k = None ↔ k ∉ Map_keys m.
Proof.
  unfold Map_keys. induction m as [|[k0 v0] m IH]; csimpl.
  - split; [intros _; apply not_elem_of_nil | done].
  - rewrite not_elem_of_cons. case_decide; naive_solver.
Qed.

Lemma Map_get_is_Some m k : is_Some (Map_get m k) ↔ k ∈ Map_keys m.
Proof.
  rewrite <- not_eq_None_Some, Map_get_None.
  destruct (decide (k ∈ Map_keys m)); naive_solver.
Qed.

Lemma Map_has_spec m k : Map_has m k ↔ k ∈ Map_keys m.
Proof. unfold Map_has. by rewrite bool_decide_spec, Map_get_is_Some. Qed.

Lemma Map_get_elem_of m k v : Map_get m k = Some v → (k, v) ∈ m.
Proof.
  induction m as [|[k0 v0] m IH]; simpl; [done|].
  case_decide; [intros [= ->]; subst; left | intros; right; auto].
Qed.

Lemma Map_get_nodup m k v :
  NoDup (Map_keys m) → (k, v) ∈ m → Map_get m k = Some v.
Proof.
  unfold Map_keys. induction m as [|[k0 v0] m IH]; csimpl.
  - by intros _ ?%elem_of_nil.
  - intros [Hk0 Hnd]%NoDup_cons [[= -> ->]|Hin]%elem_of_cons.
    + by rewrite decide_True.
    + rewrite decide_False; [by apply IH|].
      intros ->. apply Hk0. by apply (list_elem_of_fmap_2 fst) in Hin.
Qed.

(** Building a map from entries: keys in first-occurrence order, values
    from the last occurrence. *)
Lemma foldl_Map_set_keys (entries : list (K * V)) m :
  Map_keys (foldl (λ m e, Map_set m e.1 e.2) m entries)
  = foldl Set_add (Map_keys m) entries.*1.
Proof.
  revert m. induction entries as [|[k v] l IH]; intros m; simpl; [done|].
  by rewrite IH, Map_keys_set.
Qed.

Lemma foldl_Map_set_get (entries : list (K * V)) m k :
  Map_get (foldl (λ m e, Map_set m e.1 e.2) m entries) k
  = match last (filter (λ e, e.1 = k) entries) with
    | Some e => Some e.2
    | None => Map_get m k
    end.
Proof.
  revert m. induction entries as [|[k0 v0] l IH]; intros m; simpl; [done|].
  rewrite IH, filter_cons, Map_get_set. simpl.
  destruct (decide (k0 = k)) as [->|Hne].
  - rewrite last_cons, decide_True by done.
    by destruct (last (filter _ l)).
  - rewrite decide_False by done. done.
Qed.

Lemma new_Map_keys (entries : list (K * V)) :
  Map_keys (new_Map entries) = new_Set entries.*1.
Proof. apply foldl_Map_set_keys. Qed.

Lemma new_Map_get (entries : list (K * V)) k :
  Map_get (new_Map entries) k = snd <$> last (filter (λ e, e.1 = k) entries).
Proof.
  unfold new_Map. rewrite foldl_Map_set_get.
  by destruct (last (filter _ entries)).
Qed.

Lemma new_Map_keys_nodup (entries : list (K * V)) :
  NoDup (Map_keys (new_Map entries)).
Proof. rewrite new_Map_keys. apply new_Set_nodup. Qed.
End container_facts.

(** ** Loops that can throw *)

Lemma bind_Normal_inv {A B} (c : Completion A) (k : A → Completion B) b :
  c ≫= k = Normal b → ∃ a, c = Normal a ∧ k a = Normal b.
Proof. destruct c as [a|e]; [by exists a | done]. Qed.

Lemma for_of_app {S T} (body : S → T → Completion S) l1 l2 st :
  for_of body (l1 ++ l2) st = for_of body l1 st ≫= for_of body l2.
Proof.
  revert st. induction l1 as [|x l1 IH]; intros st; simpl; [done|].
  destruct (body st x) as [st'|e]; simpl; [apply IH | done].
Qed.

Lemma for_of_snoc_Normal {S T} (body : S → T → Completion S) l x st st' :
  for_of body (l ++ [x]) st = Normal st' ↔
  ∃ st1, for_of body l st = Normal st1 ∧ body st1 x = Normal st'.
Proof.
  rewrite for_of_app. split.
  - intros (st1 & H1 & H2)%bind_Normal_inv. exists st1. split; [done|].
    simpl in H2. by destruct (body st1 x).
  - intros (st1 & -> & H2). simpl. by rewrite H2.
Qed.

(** ** Plain objects *)

Lemma Map_set_set {K V} `{EqDecision K} (m : list (K * V)) k v v' :
  Map_set (Map_set m k v) k v' = Map_set m k v'.
Proof.
  induction m as [|[k0 v0] m IH]; simpl.
  - by rewrite decide_True.
  - destruct (decide (k = k0)) as [->|Hne]; simpl.
    + by rewrite decide_True.
    + rewrite decide_False by done. by rewrite IH.
Qed.

Lemma obj_get_Own {V} (o : JSObject V) k v :
  obj_get o k = Own v ↔ Map_get o k = Some v.
Proof.
  unfold obj_get. destruct (Map_get o k); [naive_solver|].
  case_decide; naive_solver.
Qed.

Lemma obj_get_own_key {V} (o : JSObject V) k :
  k ∈ Map_keys o → ∃ v, obj_get o k = Own v.
Proof.
  intros [v Hv]%Map_get_is_Some. exists v. by apply obj_get_Own.
Qed.

Lemma obj_get_fresh {V} (o : JSObject V) k :
  k ∉ Map_keys o → k ∉ Object_prototype_keys → obj_get o k = Absent.
Proof.
  intros Hk%Map_get_None Hp. unfold obj_get. rewrite Hk.
  by rewrite decide_False.
Qed.

Lemma push_under_Normal {T} (result : JSObject (list T)) key item r :
  push_under result key item = Normal r ↔
  (key ∈ Map_keys result ∨ key ∉ Object_prototype_keys)
  ∧ r = obj_set result key (default [] (Map_get result key) ++ [item]).
Proof.
  unfold push_under, obj_get, obj_set.
  destruct (Map_get result key) as [arr|] eqn:E; simpl.
  - assert (key ∈ Map_keys result) by (apply Map_get_is_Some; eauto).
    naive_solver.
  - apply Map_get_None in E. rewrite Map_set_set.
    case_decide; naive_solver.
Qed.

Lemma push_under_Throw {T} (result : JSObject (list T)) key item :
  push_under result key item = Throw TypeError ↔
  (key ∉ Map_keys result) ∧ (key ∈ Object_prototype_keys).
Proof.
  unfold push_under, obj_get.
  destruct (Map_get result key) as [arr|] eqn:E; simpl.
  - assert (key ∈ Map_keys result) by (apply Map_get_is_Some; eauto).
    naive_solver.
  - apply Map_get_None in E. case_decide; naive_solver.
Qed.

Section grouping.
Context {T U : Type} (key : T → jsstring) (val : T → U).

(** The loop shared by [groupBy] and [buildMap], started on [{}]. *)
Local Abbreviation group arr :=
  (for_of (λ result x, push_under result (key x) (val x)) arr []).

Lemma group_Normal arr r :
  group arr = Normal r →
  Map_keys r = new_Set (key <$> arr)
  ∧ (∀ x, x ∈ arr → key x ∉ Object_prototype_keys)
  ∧ (∀ k, Map_get r k =
          if decide (k ∈ key <$> arr)
          then Some (val <$> filter (λ x, key x = k) arr) else None).
Proof.
  revert r. induction arr as [|x arr IH] using rev_ind; intros r.
  - intros [= <-]. split_and!; [done | by intros ? ?%elem_of_nil |].
    intros k. by rewrite decide_False by apply not_elem_of_nil.
  - intros (r1 & H1 & (Hk & ->)%push_under_Normal)%for_of_snoc_Normal.
    destruct (IH _ H1) as (Hkeys & Hproto & Hget). split_and!.
    + unfold obj_set. rewrite Map_keys_set, Hkeys, fmap_app.
      unfold new_Set. by rewrite foldl_app.
    + intros y [Hy | ->%list_elem_of_singleton]%elem_of_app; [by apply Hproto|].
      destruct Hk as [Hk|Hk]; [|done].
      rewrite Hkeys, new_Set_elem_of in Hk.
      apply list_elem_of_fmap in Hk as (z & Hz & Hzin). rewrite Hz.
      by apply Hproto.
    + intros k. unfold obj_set. rewrite Map_get_set, !Hget.
      assert (filter (λ y, key y = k) (arr ++ [x])
              = filter (λ y, key y = k) arr
                ++ (if decide (key x = k) then [x] else [])) as Hf.
      { rewrite filter_app. by f_equal. }
      assert (k ∈ key <$> arr ++ [x] ↔ k ∈ key <$> arr ∨ k = key x) as Hin.
      { rewrite fmap_app, elem_of_app. csimpl.
        rewrite list_elem_of_singleton. done. }
      destruct (decide (k ∈ key <$> arr ++ [x])) as [H|H]; rewrite Hin in H.
      * rewrite Hf, fmap_app.
        destruct (decide (k = key x)) as [->|Hne].
        -- rewrite (decide_True (P := key x = key x)) by done. f_equal.
           destruct (decide (key x ∈ key <$> arr)) as [Hx|Hx]; [done|].
           rewrite (proj2 (filter_nil_iff (λ y, key y = key x) arr)); [done|].
           apply Forall_forall. intros y Hy Heq. apply Hx.
           rewrite <- Heq. by apply list_elem_of_fmap_2.
        -- rewrite (decide_False (P := key x = k)) by done.
           rewrite (decide_True (P := k ∈ key <$> arr)) by naive_solver.
           by rewrite fmap_nil, app_nil_r.
      * rewrite (decide_False (P := k = key x)) by naive_solver.
        rewrite (decide_False (P := k ∈ key <$> arr)) by naive_solver. done.
Qed.

Lemma group_returns arr :
  (∀ x, x ∈ arr → key x ∉ Object_prototype_keys) → ∃ r, group arr = Normal r.
Proof.
  induction arr as [|x arr IH] using rev_ind; intros Hp.
  - by eexists.
  - destruct IH as [r1 H1]; [intros; apply Hp, elem_of_app; by left|].
    eexists. apply for_of_snoc_Normal. exists r1. split; [done|].
    apply push_under_Normal. split; [|done].
    right. apply Hp, elem_of_app. right. left.
Qed.

Lemma group_throws arr x :
  x ∈ arr → key x ∈ Object_prototype_keys → group arr = Throw TypeError.
Proof.
  intros Hx Hp. destruct (group arr) as [r|[]] eqn:E; [|done].
  apply group_Normal in E as (_ & Hproto & _). by apply Hproto in Hx.
Qed.
End grouping.

Lemma groupBy_Normal {T} (arr : list T) fn r :
  groupBy arr fn = Normal r →
  Map_keys r = new_Set (fn <$> arr)
  ∧ (∀ x, x ∈ arr → fn x ∉ Object_prototype_keys)
  ∧ (∀ k, Map_get r k =
          if decide (k ∈ fn <$> arr)
          then Some (filter (λ x, fn x = k) arr) else None).
Proof.
  intros H. apply (group_Normal fn id) in H as (? & ? & Hget).
  split_and!; [done..|]. intros k. rewrite Hget. by rewrite list_fmap_id.
Qed.

Lemma buildMap_Normal enums r :
  buildMap enums = Normal r →
  Map_keys r = new_Set (Enum.enum_name <$> enums)
  ∧ (∀ e, e ∈ enums → Enum.enum_name e ∉ Object_prototype_keys)
  ∧ (∀ k, Map_get r k =
          if decide (k ∈ Enum.enum_name <$> enums)
          then Some (Enum.enum_value <$>
                       filter (λ e, Enum.enum_name e = k) enums)
          else None).
Proof. apply (group_Normal Enum.enum_name Enum.enum_value). Qed.

(** [Object.keys] lists every own property name once. *)
Lemma Object_keys_perm {V} (o : JSObject V) : Object_keys o ≡ₚ Map_keys o.
Proof.
  unfold Object_keys, Map_keys. rewrite merge_sort_Permutation.
  apply filter_app_complement.
Qed.

Lemma Object_keys_elem_of {V} (o : JSObject V) k :
  k ∈ Object_keys o ↔ k ∈ Map_keys o.
Proof. by rewrite Object_keys_perm. Qed.

Lemma omap_Map_get_keys {V} (o m : JSObject V) :
  (∀ k v, (k, v) ∈ m → Map_get o k = Some v) → omap (Map_get o) m.*1 = m.*2.
Proof.
  induction m as [|[k v] m IH]; intros H; csimpl; [done|].
  rewrite (H k v) by left. rewrite IH; [done|].
  intros. apply H. by right.
Qed.

(** [Object.values] lists every own property value once. *)
Lemma Object_values_perm {V} (o : JSObject V) :
  NoDup (Map_keys o) → Object_values o ≡ₚ o.*2.
Proof.
  intros Hnd. unfold Object_values. rewrite Object_keys_perm. unfold Map_keys.
  rewrite omap_Map_get_keys; [done|]. intros k v. by apply Map_get_nodup.
Qed.

(** ** The routines built on [Map] *)

Lemma filter_fmap {A B} (f : A → B) (P : B → Prop) `{∀ y, Decision (P y)}
    (l : list A) :
  filter P (f <$> l) = f <$> filter (λ x, P (f x)) l.
Proof.
  induction l as [|x l IH]; [done|]. csimpl.
  rewrite !filter_cons, IH. by destruct (decide (P (f x))).
Qed.

Lemma last_with_key_Some {R} (keyFn : R → jsstring) k recs r :
  last_with_key keyFn k recs = Some r → r ∈ recs ∧ keyFn r = k.
Proof.
  unfold last_with_key. intros (l' & Hl)%last_Some.
  assert (r ∈ filter (λ r, keyFn r = k) recs) as Hin.
  { rewrite Hl. apply elem_of_app. right. left. }
  apply list_elem_of_filter in Hin. naive_solver.
Qed.

Lemma last_with_key_is_Some {R} (keyFn : R → jsstring) k recs :
  is_Some (last_with_key keyFn k recs) ↔ k ∈ keyFn <$> recs.
Proof.
  unfold last_with_key. split.
  - intros [r Hr]. apply last_with_key_Some in Hr as [? <-].
    by apply list_elem_of_fmap_2.
  - intros (r & -> & Hr)%list_elem_of_fmap.
    destruct (last (filter _ recs)) as [r'|] eqn:E; [by eexists|].
    apply last_None in E.
    assert (r ∈ filter (λ r0, keyFn r0 = keyFn r) recs) as Hin
      by by apply list_elem_of_filter.
    rewrite E in Hin. by apply elem_of_nil in Hin.
Qed.

Section keyed_facts.
Context {R : Type} (keyFn valFn : R → jsstring) (nameA nameB : string).

Local Abbreviation map_of recs := (new_Map ((λ r, (keyFn r, valFn r)) <$> recs)).

Lemma map_of_keys recs : Map_keys (map_of recs) = new_Set (keyFn <$> recs).
Proof. rewrite new_Map_keys. by rewrite <- list_fmap_compose. Qed.

Lemma map_of_get recs k :
  Map_get (map_of recs) k = valFn <$> last_with_key keyFn k recs.
Proof.
  rewrite new_Map_get. unfold last_with_key.
  rewrite (filter_fmap _ (λ e, e.1 = k)). simpl.
  rewrite fmap_last. by destruct (last _).
Qed.

Lemma map_of_has recs k : Map_has (map_of recs) k ↔ k ∈ keyFn <$> recs.
Proof. by rewrite Map_has_spec, map_of_keys, new_Set_elem_of. Qed.

Lemma diffKeyed_onlyInA recsA recsB k :
  k ∈ Keyed.onlyInA (diffKeyed keyFn valFn nameA nameB recsA recsB)
  ↔ k ∈ keyFn <$> recsA ∧ k ∉ keyFn <$> recsB.
Proof.
  simpl. rewrite Array_sort_elem_of, list_elem_of_filter, negb_True.
  rewrite map_of_has, map_of_keys, new_Set_elem_of. naive_solver.
Qed.

Lemma diffKeyed_onlyInB recsA recsB k :
  k ∈ Keyed.onlyInB (diffKeyed keyFn valFn nameA nameB recsA recsB)
  ↔ k ∈ keyFn <$> recsB ∧ k ∉ keyFn <$> recsA.
Proof.
  simpl. rewrite Array_sort_elem_of, list_elem_of_filter, negb_True.
  rewrite map_of_has, map_of_keys, new_Set_elem_of. naive_solver.
Qed.

Lemma diffKeyed_sorted recsA recsB :
  sorted_nodup (Keyed.onlyInA (diffKeyed keyFn valFn nameA nameB recsA recsB))
  ∧ sorted_nodup (Keyed.onlyInB (diffKeyed keyFn valFn nameA nameB recsA recsB)).
Proof.
  split; apply Array_sort_sorted_nodup, NoDup_filter, new_Map_keys_nodup.
Qed.

(** The keys that end up in [changed], in the order of A's map. *)
Lemma diffKeyed_changed recsA recsB :
  ∃ ks, Keyed.changed (diffKeyed keyFn valFn nameA nameB recsA recsB)
        = keyed_entry nameA nameB (map_of recsA) (map_of recsB) <$> ks
      ∧ NoDup ks
      ∧ ∀ k, k ∈ ks ↔
             ∃ rA rB, last_with_key keyFn k recsA = Some rA
                      ∧ last_with_key keyFn k recsB = Some rB
                      ∧ valFn rA ≠ valFn rB.
Proof.
  eexists. split; [reflexivity|]. split.
  - apply NoDup_filter, new_Map_keys_nodup.
  - intros k. rewrite list_elem_of_filter, andb_True, bool_decide_spec.
    rewrite !map_of_get, map_of_has, map_of_keys, new_Set_elem_of.
    rewrite <- !last_with_key_is_Some.
    destruct (last_with_key keyFn k recsA) as [rA|],
             (last_with_key keyFn k recsB) as [rB|]; simpl.
    + split.
      * intros [[_ Hne] _]. exists rA, rB. split_and!; [done..|]. congruence.
      * intros (? & ? & [= <-] & [= <-] & Hne). split_and!; eauto. congruence.
    + split; [intros [[[] _] _]; done | naive_solver].
    + split; [intros [_ []]; done | naive_solver].
    + split; [intros [_ []]; done | naive_solver].
Qed.

Lemma keyed_entry_literal recsA recsB k rA rB :
  last_with_key keyFn k recsA = Some rA →
  last_with_key keyFn k recsB = Some rB →
  keyed_entry nameA nameB (map_of recsA) (map_of recsB) k
  = entry_literal nameA nameB k (valFn rA) (valFn rB).
Proof.
  intros HA HB. unfold keyed_entry, entry_literal.
  by rewrite !map_of_get, HA, HB.
Qed.

Lemma diffKeyed_changed_entry recsA recsB e :
  e ∈ Keyed.changed (diffKeyed keyFn valFn nameA nameB recsA recsB)
  ↔ changed_entry_of keyFn valFn nameA nameB recsA recsB e.
Proof.
  destruct (diffKeyed_changed recsA recsB) as (ks & -> & _ & Hks).
  rewrite list_elem_of_fmap. unfold changed_entry_of. split.
  - intros (k & -> & (rA & rB & HA & HB & Hne)%Hks).
    exists k, rA, rB. split_and!; [done..|]. by apply keyed_entry_literal.
  - intros (k & rA & rB & HA & HB & Hne & ->). exists k. split.
    + symmetry. by apply keyed_entry_literal.
    + apply Hks. eauto.
Qed.

Lemma entry_literal_key k vA vB :
  Map_get (entry_literal nameA nameB k vA vB) (js "key") = Some (JStr k).
Proof. done. Qed.

Lemma diffKeyed_changed_keys recsA recsB :
  ∃ ks, changed_keys (diffKeyed keyFn valFn nameA nameB recsA recsB)
        = JStr <$> ks
      ∧ NoDup ks
      ∧ ∀ k, k ∈ ks ↔
             ∃ rA rB, last_with_key keyFn k recsA = Some rA
                      ∧ last_with_key keyFn k recsB = Some rB
                      ∧ valFn rA ≠ valFn rB.
Proof.
  destruct (diffKeyed_changed recsA recsB) as (ks & Hch & Hnd & Hks).
  exists ks. split_and!; [|done..].
  unfold changed_keys. rewrite Hch. clear.
  induction ks as [|k ks IH]; [done|]. csimpl. by rewrite IH.
Qed.

Lemma diffKeyed_last_record_wins recsA recsB :
  last_record_wins keyFn valFn recsA recsB
    (diffKeyed keyFn valFn nameA nameB recsA recsB).
Proof.
  destruct (diffKeyed_changed_keys recsA recsB) as (ks & Hck & Hnd & Hks).
  destruct (diffKeyed_sorted recsA recsB) as [[_ HndA] [_ HndB]].
  assert (Inj (=) (=) JStr) as Hinj by (intros ?? [=]; done).
  split.
  - rewrite Hck, <- !fmap_app. apply NoDup_fmap_2; [done|].
    apply NoDup_app. split_and!; [done | | apply NoDup_app; split_and!; try done].
    + intros k [HA HnB]%diffKeyed_onlyInA [[HB HnA]%diffKeyed_onlyInB | Hk%Hks]%elem_of_app;
        [done|].
      destruct Hk as (rA & rB & _ & HB & _). apply HnB.
      apply last_with_key_is_Some. by eexists.
    + intros k [HB HnA]%diffKeyed_onlyInB (rA & rB & HA & _)%Hks.
      apply HnA. apply last_with_key_is_Some. by eexists.
  - intros k rA rB HA HB.
    assert (k ∈ keyFn <$> recsA) by (apply last_with_key_is_Some; by eexists).
    assert (k ∈ keyFn <$> recsB) by (apply last_with_key_is_Some; by eexists).
    split_and!.
    + rewrite diffKeyed_onlyInA. naive_solver.
    + rewrite diffKeyed_onlyInB. naive_solver.
    + case_decide as Heq.
      * rewrite Hck. intros (k' & [= <-] & Hk%Hks)%list_elem_of_fmap.
        destruct Hk as (rA' & rB' & HA' & HB' & Hne). congruence.
      * exists (entry_literal nameA nameB k (valFn rA) (valFn rB)). split; [|done].
        apply diffKeyed_changed_entry. exists k, rA, rB. done.
Qed.

(** Comparing a collection with itself reports nothing. *)
Lemma diffKeyed_self recs :
  diffKeyed keyFn valFn nameA nameB recs recs
  = {| Keyed.onlyInA := []; Keyed.onlyInB := []; Keyed.changed := [] |}.
Proof.
  unfold diffKeyed.
  assert (filter (λ k, negb (Map_has (map_of recs) k)) (Map_keys (map_of recs))
          = []) as ->.
  { apply filter_nil_iff, Forall_forall. intros k Hk Hn.
    apply negb_True in Hn. apply Hn. by apply Map_has_spec. }
  assert (filter (λ k, Map_has (map_of recs) k
                       && bool_decide (Map_get (map_of recs) k
                                       ≠ Map_get (map_of recs) k))
                 (Map_keys (map_of recs)) = []) as ->.
  { apply filter_nil_iff, Forall_forall. intros k Hk Hn.
    apply andb_True in Hn as [_ Hn]. by apply bool_decide_spec in Hn. }
  done.
Qed.

Lemma diffKeyed_nil :
  diffKeyed keyFn valFn nameA nameB [] []
  = {| Keyed.onlyInA := []; Keyed.onlyInB := []; Keyed.changed := [] |}.
Proof. apply diffKeyed_self. Qed.
End keyed_facts.

(** ** Tables *)

Lemma diffTables_onlyInA a b n :
  n ∈ TableDiff.onlyInA (diffTables a b)
  ↔ n ∈ Table.table_name <$> Schema.tables a
    ∧ n ∉ Table.table_name <$> Schema.tables b.
Proof.
  simpl. rewrite Array_sort_elem_of, list_elem_of_filter, negb_True.
  rewrite Set_has_new_Set, new_Set_elem_of. naive_solver.
Qed.

Lemma diffTables_onlyInB a b n :
  n ∈ TableDiff.onlyInB (diffTables a b)
  ↔ n ∈ Table.table_name <$> Schema.tables b
    ∧ n ∉ Table.table_name <$> Schema.tables a.
Proof.
  simpl. rewrite Array_sort_elem_of, list_elem_of_filter, negb_True.
  rewrite Set_has_new_Set, new_Set_elem_of. naive_solver.
Qed.

Lemma diffTables_common a b n :
  n ∈ TableDiff.common (diffTables a b)
  ↔ n ∈ Table.table_name <$> Schema.tables a
    ∧ n ∈ Table.table_name <$> Schema.tables b.
Proof.
  simpl. rewrite Array_sort_elem_of, list_elem_of_filter.
  rewrite Set_has_new_Set, new_Set_elem_of. naive_solver.
Qed.

Lemma diffTables_sorted a b :
  sorted_nodup (TableDiff.onlyInA (diffTables a b))
  ∧ sorted_nodup (TableDiff.onlyInB (diffTables a b))
  ∧ sorted_nodup (TableDiff.common (diffTables a b)).
Proof.
  split_and!; apply Array_sort_sorted_nodup, NoDup_filter, new_Set_nodup.
Qed.

Lemma diffTables_self s :
  TableDiff.onlyInA (diffTables s s) = []
  ∧ TableDiff.onlyInB (diffTables s s) = []
  ∧ TableDiff.common (diffTables s s)
    = Array_sort (new_Set (Table.table_name <$> Schema.tables s)).
Proof.
  simpl. by rewrite filter_not_has_self, filter_has_self.
Qed.

(** ** Columns *)

Lemma foldl_push_filter {A B} (P : A → Prop) `{∀ x, Decision (P x)}
    (g : A → B) (l : list A) (acc : list B) :
  foldl (λ acc x, if decide (P x) then acc ++ [g x] else acc) acc l
  = acc ++ (g <$> filter P l).
Proof.
  revert acc. induction l as [|x l IH]; intros acc; csimpl.
  - by rewrite app_nil_r.
  - rewrite IH, filter_cons. destruct (decide (P x)); csimpl; [|done].
    by rewrite <- app_assoc.
Qed.

Lemma compareColumnDetails_alt a b :
  compareColumnDetails a b
  = (λ f, {| field := f; valueA := Column.get a f; valueB := Column.get b f |})
      <$> filter (λ f, normalize (Column.get a f) ≠ normalize (Column.get b f))
                 fields.
Proof. unfold compareColumnDetails. by rewrite foldl_push_filter. Qed.

Lemma compareColumnDetails_self c : compareColumnDetails c c = [].
Proof.
  rewrite compareColumnDetails_alt.
  rewrite (proj2 (filter_nil_iff _ fields)); [done|].
  apply Forall_forall. intros f _ Hne. done.
Qed.

Lemma Array_find_head {T} (pred : T → bool) (arr : list T) :
  Array_find pred arr = head (filter (λ x, pred x) arr).
Proof.
  induction arr as [|x arr IH]; [done|]. simpl. rewrite filter_cons.
  destruct (pred x) eqn:E; simpl; done.
Qed.

Lemma Array_find_column cols n :
  Array_find (λ c, bool_decide (Column.column_name c = n)) cols
  = head (filter (λ c, Column.column_name c = n) cols).
Proof.
  rewrite Array_find_head. f_equal. apply filter_ext_in.
  intros c _. apply bool_decide_spec.
Qed.

Lemma head_filter_is_Some {A} (P : A → Prop) `{∀ x, Decision (P x)} (l : list A) x :
  x ∈ l → P x → is_Some (head (filter P l)).
Proof.
  intros Hx HP. destruct (filter P l) as [|y l'] eqn:E; [|by eexists].
  assert (x ∈ filter P l) as Hin by by apply list_elem_of_filter.
  rewrite E in Hin. by apply elem_of_nil in Hin.
Qed.

Lemma head_filter_named cols n :
  n ∈ Column.column_name <$> cols →
  is_Some (head (filter (λ c, Column.column_name c = n) cols)).
Proof.
  intros (c & -> & Hc)%list_elem_of_fmap. by apply (head_filter_is_Some _ _ c).
Qed.

Lemma column_change_unfold colsA colsB n :
  column_change colsA colsB n
  = match head (filter (λ c, Column.column_name c = n) colsA),
          head (filter (λ c, Column.column_name c = n) colsB) with
    | Some cA, Some cB =>
        if (0 <? length (compareColumnDetails cA cB))%nat
        then Some {| column := n; differences := compareColumnDetails cA cB |}
        else None
    | _, _ => None
    end.
Proof.
  unfold column_change.
  destruct (head (filter _ colsA)) as [cA|]; csimpl; [|done].
  destruct (head (filter _ colsB)) as [cB|]; csimpl; [|done].
  by destruct (compareColumnDetails cA cB).
Qed.

(** The inner loop does not throw, and pushes [column_change] for each
    name of A in turn. *)
Lemma changed_columns_Normal colsA colsB :
  changed_columns colsA colsB
    (new_Set (Column.column_name <$> colsA))
    (new_Set (Column.column_name <$> colsB))
  = Normal (omap (column_change colsA colsB)
              (new_Set (Column.column_name <$> colsA))).
Proof.
  unfold changed_columns.
  assert (∀ n, n ∈ new_Set (Column.column_name <$> colsA) →
               n ∈ Column.column_name <$> colsA) as Hsub
    by (intros n; by rewrite new_Set_elem_of).
  revert Hsub. generalize (new_Set (Column.column_name <$> colsA)) as ns.
  induction ns as [|n ns IH] using rev_ind; intros Hsub; [done|].
  apply for_of_snoc_Normal. eexists. split.
  { apply IH. intros; apply Hsub, elem_of_app; by left. }
  rewrite omap_app. csimpl.
  rewrite column_change_unfold, !Array_find_column.
  assert (n ∈ Column.column_name <$> colsA) as HnA
    by (apply Hsub, elem_of_app; right; left).
  destruct (head_filter_named _ _ HnA) as [cA ->].
  destruct (Set_has _ n) eqn:EB; simpl.
  - assert (n ∈ Column.column_name <$> colsB) as HnB.
    { apply Set_has_new_Set. by rewrite EB. }
    destruct (head_filter_named _ _ HnB) as [cB ->].
    destruct (0 <? length (compareColumnDetails cA cB))%nat; [done|].
    by rewrite app_nil_r.
  - destruct (head (filter (λ c, Column.column_name c = n) colsB))
      as [cB|] eqn:HcB; [|by rewrite app_nil_r].
    exfalso. assert (Set_has (new_Set (Column.column_name <$> colsB)) n) as HB.
    { apply Set_has_new_Set.
      apply head_Some_elem_of, list_elem_of_filter in HcB as [<- Hc].
      by apply list_elem_of_fmap_2. }
    by rewrite EB in HB.
Qed.

Lemma cols_of_Normal cols m t :
  groupBy cols Column.table_name = Normal m →
  t ∉ Object_prototype_keys →
  cols_of m t = Normal (filter (λ c, Column.table_name c = t) cols).
Proof.
  intros (_ & _ & Hget)%groupBy_Normal Hp. unfold cols_of, obj_get.
  rewrite Hget. case_decide as Hin; [done|].
  rewrite decide_False by done. f_equal. symmetry.
  apply filter_nil_iff, Forall_forall. intros c Hc <-. apply Hin.
  by apply list_elem_of_fmap_2.
Qed.

Lemma diffColumns_table_Normal a b mapA mapB result t :
  groupBy (Schema.columns a) Column.table_name = Normal mapA →
  groupBy (Schema.columns b) Column.table_name = Normal mapB →
  t ∉ Object_prototype_keys →
  diffColumns_table mapA mapB result t
  = Normal (if decide (delta_empty (table_delta a b t)) then result
            else obj_set result t (table_delta a b t)).
Proof.
  intros HA HB Hp. unfold diffColumns_table.
  rewrite (cols_of_Normal _ _ _ HA Hp), (cols_of_Normal _ _ _ HB Hp). csimpl.
  rewrite changed_columns_Normal. csimpl.
  fold (table_delta a b t). unfold delta_empty, table_delta. simpl.
  destruct (filter _ (new_Set (Column.column_name <$>
              filter (λ c, Column.table_name c = t) (Schema.columns a))));
    [|by rewrite decide_False by (intros (? & ? & ?); done)].
  destruct (filter _ (new_Set (Column.column_name <$>
              filter (λ c, Column.table_name c = t) (Schema.columns b))));
    [|by rewrite decide_False by (intros (? & ? & ?); done)].
  destruct (omap _ _);
    [by rewrite decide_True | by rewrite decide_False by (intros (? & ? & ?); done)].
Qed.

(** A loop that stores [v t] under [t] unless [E t] holds. *)
Lemma for_of_conditional_set {V} (body : JSObject V → jsstring → Completion (JSObject V))
    (E : jsstring → Prop) `{∀ t, Decision (E t)} (v : jsstring → V) ts r0 :
  (∀ t r, t ∈ ts → body r t = Normal (if decide (E t) then r else obj_set r t (v t))) →
  ∃ r, for_of body ts r0 = Normal r
       ∧ Map_keys r = foldl Set_add (Map_keys r0) (filter (λ t, ¬ E t) ts)
       ∧ ∀ t, Map_get r t = if decide (t ∈ ts ∧ ¬ E t) then Some (v t)
                            else Map_get r0 t.
Proof.
  induction ts as [|t ts IH] using rev_ind; intros Hbody.
  - exists r0. split_and!; [done..|]. intros t.
    rewrite decide_False; [done|]. by intros [?%elem_of_nil _].
  - destruct IH as (r1 & H1 & Hkeys & Hget).
    { intros; apply Hbody, elem_of_app; by left. }
    eexists. split_and!.
    + apply for_of_snoc_Normal. exists r1. split; [done|].
      apply Hbody, elem_of_app. right. left.
    + rewrite filter_app, foldl_app, <- Hkeys, filter_cons, filter_nil.
      destruct (decide (E t)) as [HE|HE].
      * by rewrite decide_False by naive_solver.
      * rewrite decide_True by done. simpl. unfold obj_set.
        by rewrite Map_keys_set.
    + intros t'. destruct (decide (E t)) as [HE|HE].
      * rewrite Hget. destruct (decide (t' ∈ ts ∧ ¬ E t')) as [[]|Hn].
        -- rewrite decide_True; [done|]. split; [|done].
           apply elem_of_app. by left.
        -- rewrite decide_False; [done|].
           intros [[?|?%list_elem_of_singleton]%elem_of_app ?]; naive_solver.
      * unfold obj_set. rewrite Map_get_set, Hget.
        destruct (decide (t' = t)) as [->|Hne].
        -- rewrite decide_True; [done|]. split; [|done].
           apply elem_of_app. right. left.
        -- destruct (decide (t' ∈ ts ∧ ¬ E t')) as [[]|Hn].
           ++ rewrite decide_True; [done|]. split; [|done].
              apply elem_of_app. by left.
           ++ rewrite decide_False; [done|].
              intros [[?|?%list_elem_of_singleton]%elem_of_app ?]; naive_solver.
Qed.

Lemma table_delta_unknown a b t :
  t ∉ Column.table_name <$> Schema.columns a →
  t ∉ Column.table_name <$> Schema.columns b →
  delta_empty (table_delta a b t).
Proof.
  intros HA HB. unfold table_delta.
  rewrite (proj2 (filter_nil_iff (λ c, Column.table_name c = t) (Schema.columns a))).
  2:{ apply Forall_forall. intros c Hc <-. apply HA. by apply list_elem_of_fmap_2. }
  rewrite (proj2 (filter_nil_iff (λ c, Column.table_name c = t) (Schema.columns b))).
  2:{ apply Forall_forall. intros c Hc <-. apply HB. by apply list_elem_of_fmap_2. }
  done.
Qed.

Lemma groupBy_returns {T} (arr : list T) fn :
  (∀ x, x ∈ arr → fn x ∉ Object_prototype_keys) → ∃ r, groupBy arr fn = Normal r.
Proof. apply (group_returns fn id). Qed.

Lemma groupBy_throws {T} (arr : list T) fn x :
  x ∈ arr → fn x ∈ Object_prototype_keys → groupBy arr fn = Throw TypeError.
Proof. apply (group_throws fn id). Qed.

Lemma diffColumns_returns a b :
  (∀ c, c ∈ Schema.columns a → Column.table_name c ∉ Object_prototype_keys) →
  (∀ c, c ∈ Schema.columns b → Column.table_name c ∉ Object_prototype_keys) →
  ∃ r, diffColumns a b = Normal r.
Proof.
  intros HA HB. unfold diffColumns.
  destruct (groupBy_returns (Schema.columns a) Column.table_name HA) as [mapA EA].
  destruct (groupBy_returns (Schema.columns b) Column.table_name HB) as [mapB EB].
  rewrite EA, EB. csimpl.
  destruct (for_of_conditional_set (diffColumns_table mapA mapB)
              (λ t, delta_empty (table_delta a b t)) (table_delta a b)
              (new_Set (Object_keys mapA ++ Object_keys mapB)) [])
    as (r & Hr & _); [|by exists r].
  intros t r0 Ht. apply diffColumns_table_Normal; [done..|].
  rewrite new_Set_elem_of, elem_of_app, !Object_keys_elem_of in Ht.
  apply groupBy_Normal in EA as (HkA & _ & _).
  apply groupBy_Normal in EB as (HkB & _ & _).
  rewrite HkA, HkB, !new_Set_elem_of in Ht.
  destruct Ht as [Ht|Ht]; apply list_elem_of_fmap in Ht as (c & -> & Hc); auto.
Qed.

Lemma diffColumns_Normal a b r :
  diffColumns a b = Normal r →
  (∀ c, c ∈ Schema.columns a → Column.table_name c ∉ Object_prototype_keys)
  ∧ (∀ c, c ∈ Schema.columns b → Column.table_name c ∉ Object_prototype_keys)
  ∧ NoDup (Map_keys r)
  ∧ ∀ t, Map_get r t = if decide (delta_empty (table_delta a b t)) then None
                       else Some (table_delta a b t).
Proof.
  unfold diffColumns.
  intros (mapA & EA & (mapB & EB & Hr)%bind_Normal_inv)%bind_Normal_inv.
  destruct (groupBy_Normal _ _ _ EA) as (HkA & HpA & _).
  destruct (groupBy_Normal _ _ _ EB) as (HkB & HpB & _).
  assert (∀ t, t ∈ new_Set (Object_keys mapA ++ Object_keys mapB) ↔
               t ∈ Column.table_name <$> Schema.columns a
               ∨ t ∈ Column.table_name <$> Schema.columns b) as Hall.
  { intros t. rewrite new_Set_elem_of, elem_of_app, !Object_keys_elem_of.
    by rewrite HkA, HkB, !new_Set_elem_of. }
  destruct (for_of_conditional_set (diffColumns_table mapA mapB)
              (λ t, delta_empty (table_delta a b t)) (table_delta a b)
              (new_Set (Object_keys mapA ++ Object_keys mapB)) [])
    as (r' & Hr' & Hkeys & Hget).
  { intros t r0 Ht. apply diffColumns_table_Normal; [done..|].
    apply Hall in Ht as [Ht|Ht];
      apply list_elem_of_fmap in Ht as (c & -> & Hc); auto. }
  simpl in Hr. rewrite Hr' in Hr. injection Hr as <-.
  split_and!; [done..| |].
  - rewrite Hkeys. apply foldl_Set_add_nodup, NoDup_nil_2.
  - intros t. rewrite Hget. simpl.
    destruct (decide (delta_empty (table_delta a b t))) as [HE|HE].
    + rewrite decide_False; [done|]. naive_solver.
    + rewrite decide_True; [done|]. split; [|done].
      apply Hall. destruct (decide (t ∈ Column.table_name <$> Schema.columns a));
        [by left|].
      destruct (decide (t ∈ Column.table_name <$> Schema.columns b));
        [by right|].
      exfalso. by apply HE, table_delta_unknown.
Qed.

Lemma columns_named_alt s t n :
  filter (λ c, Column.column_name c = n)
         (filter (λ c, Column.table_name c = t) (Schema.columns s))
  = columns_named s t n.
Proof.
  unfold columns_named. rewrite list_filter_filter. apply filter_ext_in.
  naive_solver.
Qed.

Lemma has_column_iff s t n :
  has_column s t n ↔
  n ∈ Column.column_name <$>
        filter (λ c, Column.table_name c = t) (Schema.columns s).
Proof.
  unfold has_column. rewrite <- columns_named_alt. split.
  - intros Hne. destruct (filter _ _) as [|c l] eqn:E; [done|].
    assert (c ∈ filter (λ c, Column.column_name c = n)
                  (filter (λ c, Column.table_name c = t) (Schema.columns s)))
      as Hc by (rewrite E; left).
    apply list_elem_of_filter in Hc as [<- Hc]. by apply list_elem_of_fmap_2.
  - intros (c & -> & Hc)%list_elem_of_fmap Hnil.
    assert (c ∈ filter (λ c', Column.column_name c' = Column.column_name c)
                  (filter (λ c, Column.table_name c = t) (Schema.columns s)))
      as Hin by by apply list_elem_of_filter.
    rewrite Hnil in Hin. by apply elem_of_nil in Hin.
Qed.

Lemma table_delta_onlyInA a b t n :
  n ∈ Keyed.onlyInA (table_delta a b t) ↔ column_only_in a b t n.
Proof.
  unfold column_only_in. rewrite !has_column_iff. simpl.
  rewrite list_elem_of_filter, negb_True, Set_has_new_Set, new_Set_elem_of.
  naive_solver.
Qed.

Lemma table_delta_onlyInB a b t n :
  n ∈ Keyed.onlyInB (table_delta a b t) ↔ column_only_in b a t n.
Proof.
  unfold column_only_in. rewrite !has_column_iff. simpl.
  rewrite list_elem_of_filter, negb_True, Set_has_new_Set, new_Set_elem_of.
  naive_solver.
Qed.

Lemma column_change_Some a b t n ch :
  column_change (filter (λ c, Column.table_name c = t) (Schema.columns a))
                (filter (λ c, Column.table_name c = t) (Schema.columns b)) n
  = Some ch ↔
  ∃ cA cB, head (columns_named a t n) = Some cA
           ∧ head (columns_named b t n) = Some cB
           ∧ compareColumnDetails cA cB ≠ []
           ∧ ch = {| column := n; differences := compareColumnDetails cA cB |}.
Proof.
  unfold column_change. rewrite !columns_named_alt.
  destruct (head (columns_named a t n)) as [cA|]; csimpl; [|naive_solver].
  destruct (head (columns_named b t n)) as [cB|]; csimpl; [|naive_solver].
  case_decide; naive_solver.
Qed.

Lemma table_delta_changed a b t ch :
  ch ∈ Keyed.changed (table_delta a b t) ↔
  ∃ cA cB, head (columns_named a t (column ch)) = Some cA
           ∧ head (columns_named b t (column ch)) = Some cB
           ∧ compareColumnDetails cA cB ≠ []
           ∧ differences ch = compareColumnDetails cA cB.
Proof.
  simpl. rewrite list_elem_of_omap. split.
  - intros (n & _ & (cA & cB & HA & HB & Hne & ->)%column_change_Some).
    simpl. eauto 10.
  - intros (cA & cB & HA & HB & Hne & Hd). exists (column ch). split.
    + apply new_Set_elem_of, has_column_iff. unfold has_column.
      by destruct (columns_named a t (column ch)).
    + apply column_change_Some. exists cA, cB. split_and!; [done..|].
      destruct ch as [n ds]. simpl in *. by subst.
Qed.

Lemma table_delta_changed_name a b t n :
  n ∈ column <$> Keyed.changed (table_delta a b t) ↔ column_changed a b t n.
Proof.
  rewrite list_elem_of_fmap. unfold column_changed. split.
  - intros (ch & -> & (cA & cB & ? & ? & ? & _)%table_delta_changed). eauto.
  - intros (cA & cB & HA & HB & Hne).
    exists {| column := n; differences := compareColumnDetails cA cB |}.
    split; [done|]. apply table_delta_changed. simpl. eauto 10.
Qed.

Lemma NoDup_omap_key {A B} (f : A → option B) (g : B → A) (l : list A) :
  (∀ x y, f x = Some y → g y = x) → NoDup l → NoDup (g <$> omap f l).
Proof.
  intros Hfg. induction 1 as [|x l Hx Hnd IH]; csimpl; [constructor|].
  destruct (f x) as [y|] eqn:E; csimpl; [|done].
  constructor; [|done]. rewrite (Hfg _ _ E).
  intros (y' & -> & (x' & Hx' & E')%list_elem_of_omap)%list_elem_of_fmap.
  by rewrite (Hfg _ _ E') in Hx.
Qed.

(** A column name shows up at most once in a table's record. *)
Lemma table_delta_nodup a b t :
  NoDup (Keyed.onlyInA (table_delta a b t) ++ Keyed.onlyInB (table_delta a b t)
         ++ (column <$> Keyed.changed (table_delta a b t))).
Proof.
  apply NoDup_app. split_and!; [| |apply NoDup_app; split_and!].
  - apply NoDup_filter, new_Set_nodup.
  - intros n [HA HnB]%table_delta_onlyInA
      [[HB HnA]%table_delta_onlyInB | Hch%table_delta_changed_name]%elem_of_app;
      [done|].
    destruct Hch as (cA & cB & _ & HB & _). apply HnB. unfold has_column.
    by destruct (columns_named b t n).
  - apply NoDup_filter, new_Set_nodup.
  - intros n [HB HnA]%table_delta_onlyInB
      (cA & cB & HA & _)%table_delta_changed_name.
    apply HnA. unfold has_column. by destruct (columns_named a t n).
  - apply NoDup_omap_key; [|apply new_Set_nodup].
    intros n ch (cA & cB & _ & _ & _ & ->)%column_change_Some. done.
Qed.

Lemma table_delta_self s t : delta_empty (table_delta s s t).
Proof.
  unfold delta_empty, table_delta. simpl.
  rewrite filter_not_has_self. split_and!; [done..|].
  set (cols := filter (λ c, Column.table_name c = t) (Schema.columns s)).
  generalize (new_Set (Column.column_name <$> cols)) as ns.
  induction ns as [|n ns IH]; [done|]. csimpl. rewrite IH.
  unfold column_change. destruct (head (filter _ cols)); csimpl; [|done].
  by rewrite compareColumnDetails_self.
Qed.

(** What a returned columns result holds under a key. *)
Lemma diffColumns_entry a b r t d :
  diffColumns a b = Normal r →
  (t, d) ∈ r ↔ d = table_delta a b t ∧ ¬ delta_empty d.
Proof.
  intros (_ & _ & Hnd & Hget)%diffColumns_Normal. split.
  - intros Hin%(Map_get_nodup _ _ _ Hnd). rewrite Hget in Hin.
    case_decide; naive_solver.
  - intros [-> Hne]. apply Map_get_elem_of. rewrite Hget.
    by rewrite decide_False.
Qed.

Lemma diffColumns_key a b r t :
  diffColumns a b = Normal r →
  t ∈ Map_keys r ↔ ¬ delta_empty (table_delta a b t).
Proof.
  intros (_ & _ & _ & Hget)%diffColumns_Normal.
  rewrite <- Map_get_is_Some, Hget. case_decide; [|naive_solver].
  split; [intros []; done | done].
Qed.

Lemma diffColumns_self s r : diffColumns s s = Normal r → r = [].
Proof.
  intros H. destruct r as [|[t d] r]; [done|].
  assert ((t, d) ∈ (t, d) :: r) as Hin by left.
  apply (diffColumns_entry _ _ _ _ _ H) in Hin as [-> Hne].
  destruct Hne. apply table_delta_self.
Qed.

(** ** JSON.stringify keeps arrays of strings apart *)

Lemma hex_value_digit d : d < 16 → hex_value (hex_digit d) = d.
Proof.
  intros Hd. unfold hex_value, hex_digit.
  destruct (N.ltb_spec d 10).
  - destruct (N.ltb_spec (48 + d) 58); lia.
  - destruct (N.ltb_spec (87 + d) 58); lia.
Qed.

Lemma hex_digits_value c :
  c < 65536 →
  4096 * (c / 4096 mod 16) + 256 * (c / 256 mod 16) + 16 * (c / 16 mod 16)
  + c mod 16 = c.
Proof.
  intros Hc. zify. Z.to_euclidean_division_equations. lia.
Qed.

Lemma unquote_UnicodeEscape c tail s rest :
  c < 65536 →
  unquote_body tail = Some (s, rest) →
  unquote_body (UnicodeEscape c ++ tail) = Some (c :: s, rest).
Proof.
  intros Hc Ht. unfold UnicodeEscape. cbn -[N.mul N.div N.modulo hex_digit hex_value].
  rewrite Ht. rewrite !hex_value_digit by (apply N.mod_lt; lia).
  by rewrite hex_digits_value.
Qed.

Lemma unquote_quote_unit c tail s rest :
  unquote_body tail = Some (s, rest) →
  unquote_body (quote_unit c ++ tail) = Some (c :: s, rest).
Proof.
  intros Ht. unfold quote_unit.
  repeat match goal with
    | |- context [N.eqb c ?k] =>
        destruct (N.eqb_spec c k) as [->|?]; [simpl; by rewrite Ht|]
    end.
  destruct (_ || _) eqn:E.
  - apply unquote_UnicodeEscape; [|done].
    unfold is_high_surrogate, is_low_surrogate in E.
    apply orb_prop in E as [[E|E]%orb_prop|E].
    + apply N.ltb_lt in E. lia.
    + apply andb_prop in E as [_ E]. apply N.leb_le in E. lia.
    + apply andb_prop in E as [_ E]. apply N.leb_le in E. lia.
  - simpl. rewrite (proj2 (N.eqb_neq c 0x22)), (proj2 (N.eqb_neq c 0x5C)) by done.
    by rewrite Ht.
Qed.

Lemma unquote_raw c tail s rest :
  c ≠ 0x22 → c ≠ 0x5C →
  unquote_body tail = Some (s, rest) →
  unquote_body (c :: tail) = Some (c :: s, rest).
Proof.
  intros H1 H2 Ht. simpl.
  rewrite (proj2 (N.eqb_neq c 0x22)), (proj2 (N.eqb_neq c 0x5C)) by done.
  by rewrite Ht.
Qed.

Lemma unquote_quote_body s rest :
  unquote_body (quote_body s ++ 0x22 :: rest) = Some (s, rest).
Proof.
  enough ((∀ rest, unquote_body (quote_body s ++ 0x22 :: rest) = Some (s, rest))
          ∧ ∀ a rest, unquote_body (quote_body (a :: s) ++ 0x22 :: rest)
                      = Some (a :: s, rest)) as [H _] by apply H.
  clear rest. induction s as [|b s [IH1 IH2]].
  - split; [done|]. intros a rest. simpl. by apply unquote_quote_unit.
  - split; [apply IH2|]. intros a rest.
    change (quote_body (a :: b :: s))
      with (if is_high_surrogate a && is_low_surrogate b
            then a :: b :: quote_body s
            else quote_unit a ++ quote_body (b :: s)).
    destruct (is_high_surrogate a && is_low_surrogate b) eqn:E.
    + apply andb_prop in E as [[Ea1 Ea2]%andb_prop [Eb1 Eb2]%andb_prop].
      apply N.leb_le in Ea1, Ea2, Eb1, Eb2.
      rewrite <- !app_comm_cons.
      apply unquote_raw; [lia..|]. apply unquote_raw; [lia..|]. apply IH1.
    + rewrite <- app_assoc. apply unquote_quote_unit, IH2.
Qed.

Lemma QuoteJSONString_inj s1 s2 r1 r2 :
  QuoteJSONString s1 ++ r1 = QuoteJSONString s2 ++ r2 → s1 = s2 ∧ r1 = r2.
Proof.
  unfold QuoteJSONString. rewrite <- !app_assoc. simpl. intros [= H].
  pose proof (unquote_quote_body s1 r1) as H1.
  rewrite H, unquote_quote_body in H1. by injection H1 as -> ->.
Qed.

Lemma QuoteJSONString_head s : ∃ tl, QuoteJSONString s = 0x22 :: tl.
Proof. by eexists. Qed.

Lemma JSON_stringify_strings_unfold l :
  JSON_stringify_strings l
  = [0x5B] ++ Array_join [0x2C] (QuoteJSONString <$> l) ++ [0x5D].
Proof.
  unfold JSON_stringify_strings. simpl.
  match goal with
  | |- context [Array_join _ ?e] => assert (e = QuoteJSONString <$> l) as ->
  end.
  { induction l as [|s l IH]; [done|]. csimpl. by f_equal. }
  reflexivity.
Qed.

Lemma Array_join_cons_cons sep (x y : jsstring) l :
  Array_join sep (x :: y :: l) = x ++ sep ++ Array_join sep (y :: l).
Proof. done. Qed.

Lemma Array_join_quoted_inj l1 l2 r1 r2 :
  Array_join [0x2C] (QuoteJSONString <$> l1) ++ 0x5D :: r1
  = Array_join [0x2C] (QuoteJSONString <$> l2) ++ 0x5D :: r2 →
  l1 = l2.
Proof.
  revert l2. induction l1 as [|s1 l1 IH]; intros [|s2 l2]; try done.
  - destruct l2; rewrite !fmap_cons; [|rewrite Array_join_cons_cons];
      unfold QuoteJSONString; simpl; intros [=].
  - destruct l1; rewrite !fmap_cons; [|rewrite Array_join_cons_cons];
      unfold QuoteJSONString; simpl; intros [=].
  - destruct l1 as [|s1' l1], l2 as [|s2' l2]; rewrite !fmap_cons;
      rewrite ?Array_join_cons_cons, <- ?app_assoc.
    + intros [-> _]%QuoteJSONString_inj. done.
    + intros [_ [=]]%QuoteJSONString_inj.
    + intros [_ [=]]%QuoteJSONString_inj.
    + intros [-> H]%QuoteJSONString_inj.
      f_equal. apply IH. rewrite !fmap_cons. simpl in H. by injection H.
Qed.

Lemma JSON_stringify_strings_inj l1 l2 :
  JSON_stringify_strings l1 = JSON_stringify_strings l2 → l1 = l2.
Proof.
  rewrite !JSON_stringify_strings_unfold. simpl. intros [= H].
  by apply (Array_join_quoted_inj _ _ [] []).
Qed.

(** ** Enums *)

Lemma enum_values_nil s n :
  enum_values s n = [] ↔ n ∉ Enum.enum_name <$> Schema.enums s.
Proof.
  unfold enum_values. rewrite list_elem_of_fmap. split.
  - intros H%fmap_nil_inv (e & -> & He).
    apply filter_nil_iff in H. rewrite Forall_forall in H. by apply (H e).
  - intros Hn. rewrite (proj2 (filter_nil_iff _ _)); [done|].
    apply Forall_forall. naive_solver.
Qed.

Lemma buildMap_get s m n :
  buildMap (Schema.enums s) = Normal m →
  n ∈ Enum.enum_name <$> Schema.enums s →
  obj_get m n = Own (enum_values s n).
Proof.
  intros (_ & _ & Hget)%buildMap_Normal Hn. apply obj_get_Own.
  rewrite Hget. by rewrite decide_True.
Qed.

Lemma changed_enums_Normal a b mapA mapB :
  buildMap (Schema.enums a) = Normal mapA →
  buildMap (Schema.enums b) = Normal mapB →
  changed_enums mapA mapB (new_Set (Object_keys mapA))
                (new_Set (Object_keys mapB))
  = Normal (omap (enum_change a b) (new_Set (Object_keys mapA))).
Proof.
  intros HA HB. unfold changed_enums.
  destruct (buildMap_Normal _ _ HA) as (HkA & _ & _).
  destruct (buildMap_Normal _ _ HB) as (HkB & _ & _).
  assert (∀ n, n ∈ new_Set (Object_keys mapA) →
               n ∈ Enum.enum_name <$> Schema.enums a) as Hsub.
  { intros n. by rewrite new_Set_elem_of, Object_keys_elem_of, HkA,
      new_Set_elem_of. }
  assert (∀ n, Set_has (new_Set (Object_keys mapB)) n ↔
               n ∈ Enum.enum_name <$> Schema.enums b) as HhasB.
  { intros n. by rewrite Set_has_new_Set, Object_keys_elem_of, HkB,
      new_Set_elem_of. }
  revert Hsub. generalize (new_Set (Object_keys mapA)) as ns.
  induction ns as [|n ns IH] using rev_ind; intros Hsub; [done|].
  apply for_of_snoc_Normal. eexists. split.
  { apply IH. intros; apply Hsub, elem_of_app; by left. }
  rewrite omap_app. csimpl.
  destruct (decide (n ∈ Enum.enum_name <$> Schema.enums b)) as [HnB|HnB].
  - rewrite (Is_true_true_1 _ (proj2 (HhasB n) HnB)). simpl.
    rewrite (buildMap_get a mapA n HA), (buildMap_get b mapB n HB HnB).
    2:{ apply Hsub, elem_of_app. right. left. }
    assert (enum_change a b n
            = if decide (Array_sort (enum_values a n) = Array_sort (enum_values b n))
              then None
              else Some {| name := n; valuesA := Array_sort (enum_values a n);
                           valuesB := Array_sort (enum_values b n) |}) as ->.
    { unfold enum_change. by rewrite decide_True. }
    destruct (decide (Array_sort (enum_values a n) = Array_sort (enum_values b n)))
      as [Heq|Hne].
    + rewrite decide_False by (rewrite Heq; naive_solver).
      by rewrite app_nil_r.
    + rewrite decide_True; [done|].
      intros Hj. by apply JSON_stringify_strings_inj in Hj.
  - assert (enum_change a b n = None) as ->.
    { unfold enum_change. by rewrite decide_False. }
    destruct (Set_has _ n) eqn:E.
    + exfalso. apply HnB, HhasB. by rewrite E.
    + simpl. by rewrite app_nil_r.
Qed.

Lemma diffEnums_Normal a b r :
  diffEnums a b = Normal r →
  (∀ e, e ∈ Schema.enums a → Enum.enum_name e ∉ Object_prototype_keys)
  ∧ (∀ e, e ∈ Schema.enums b → Enum.enum_name e ∉ Object_prototype_keys)
  ∧ ∃ namesA namesB,
      NoDup namesA ∧ NoDup namesB
      ∧ (∀ n, n ∈ namesA ↔ n ∈ Enum.enum_name <$> Schema.enums a)
      ∧ (∀ n, n ∈ namesB ↔ n ∈ Enum.enum_name <$> Schema.enums b)
      ∧ r = {| Keyed.onlyInA :=
                 Array_sort (filter (λ n, negb (Set_has namesB n)) namesA);
               Keyed.onlyInB :=
                 Array_sort (filter (λ n, negb (Set_has namesA n)) namesB);
               Keyed.changed := omap (enum_change a b) namesA |}.
Proof.
  unfold diffEnums.
  intros (mapA & HA & (mapB & HB & Hr)%bind_Normal_inv)%bind_Normal_inv.
  rewrite (changed_enums_Normal a b) in Hr by done. simpl in Hr.
  injection Hr as <-.
  destruct (buildMap_Normal _ _ HA) as (HkA & HpA & _).
  destruct (buildMap_Normal _ _ HB) as (HkB & HpB & _).
  split_and!; [done..|].
  exists (new_Set (Object_keys mapA)), (new_Set (Object_keys mapB)).
  split_and!; try apply new_Set_nodup; try done.
  - intros n. by rewrite new_Set_elem_of, Object_keys_elem_of, HkA,
      new_Set_elem_of.
  - intros n. by rewrite new_Set_elem_of, Object_keys_elem_of, HkB,
      new_Set_elem_of.
Qed.

Lemma diffEnums_returns a b :
  (∀ e, e ∈ Schema.enums a → Enum.enum_name e ∉ Object_prototype_keys) →
  (∀ e, e ∈ Schema.enums b → Enum.enum_name e ∉ Object_prototype_keys) →
  ∃ r, diffEnums a b = Normal r.
Proof.
  intros HA HB. unfold diffEnums, buildMap.
  destruct (group_returns Enum.enum_name Enum.enum_value _ HA) as [mapA EA].
  destruct (group_returns Enum.enum_name Enum.enum_value _ HB) as [mapB EB].
  rewrite EA, EB. csimpl. rewrite (changed_enums_Normal a b) by done.
  by eexists.
Qed.

Lemma filter_omap_key {A B} `{EqDecision A} (f : A → option B) (g : B → A)
    (l : list A) n :
  (∀ x y, f x = Some y → g y = x) → NoDup l →
  filter (λ y, g y = n) (omap f l)
  = if decide (n ∈ l) then option_list (f n) else [].
Proof.
  intros Hfg. induction 1 as [|x l Hx Hnd IH]; csimpl; [done|].
  destruct (decide (x = n)) as [->|Hne].
  - rewrite (decide_True (P := n ∈ n :: l)) by left.
    rewrite (decide_False (P := n ∈ l)) in IH by done.
    destruct (f n) as [y|] eqn:E; csimpl; [|done].
    rewrite filter_cons, IH. by rewrite decide_True by eauto.
  - assert ((if decide (n ∈ x :: l) then option_list (f n) else [])
            = if decide (n ∈ l) then option_list (f n) else []) as ->.
    { destruct (decide (n ∈ l)).
      + by rewrite decide_True by (by right).
      + rewrite decide_False; [done|]. intros [?|?]%elem_of_cons; done. }
    destruct (f x) as [y|] eqn:E; [|done].
    rewrite filter_cons, IH. rewrite decide_False; [done|].
    by rewrite (Hfg _ _ E).
Qed.

Lemma enum_change_name a b n e : enum_change a b n = Some e → name e = n.
Proof.
  unfold enum_change. repeat case_decide; try done. by intros [= <-].
Qed.

(** The entries reported for a type name known on both sides. *)
Lemma diffEnums_entries a b r n :
  diffEnums a b = Normal r →
  enum_values a n ≠ [] → enum_values b n ≠ [] →
  enum_entries r n
  = if decide (Array_sort (enum_values a n) = Array_sort (enum_values b n))
    then []
    else [{| name := n; valuesA := Array_sort (enum_values a n);
             valuesB := Array_sort (enum_values b n) |}].
Proof.
  intros (_ & _ & nsA & nsB & HndA & _ & HA & _ & ->)%diffEnums_Normal HnA HnB.
  unfold enum_entries. simpl.
  rewrite (filter_omap_key _ name); [|apply enum_change_name|done].
  rewrite decide_True.
  2:{ apply HA. destruct (decide (n ∈ Enum.enum_name <$> Schema.enums a));
        [done|]. by apply enum_values_nil in n0. }
  unfold enum_change. rewrite decide_True.
  2:{ destruct (decide (n ∈ Enum.enum_name <$> Schema.enums b));
        [done|]. by apply enum_values_nil in n0. }
  by case_decide.
Qed.

Lemma diffEnums_onlyInA a b r n :
  diffEnums a b = Normal r →
  n ∈ Keyed.onlyInA r
  ↔ n ∈ Enum.enum_name <$> Schema.enums a
    ∧ n ∉ Enum.enum_name <$> Schema.enums b.
Proof.
  intros (_ & _ & nsA & nsB & _ & _ & HA & HB & ->)%diffEnums_Normal. simpl.
  rewrite Array_sort_elem_of, list_elem_of_filter, negb_True, Set_has_spec.
  rewrite HA, HB. naive_solver.
Qed.

Lemma diffEnums_onlyInB a b r n :
  diffEnums a b = Normal r →
  n ∈ Keyed.onlyInB r
  ↔ n ∈ Enum.enum_name <$> Schema.enums b
    ∧ n ∉ Enum.enum_name <$> Schema.enums a.
Proof.
  intros (_ & _ & nsA & nsB & _ & _ & HA & HB & ->)%diffEnums_Normal. simpl.
  rewrite Array_sort_elem_of, list_elem_of_filter, negb_True, Set_has_spec.
  rewrite HA, HB. naive_solver.
Qed.

Lemma diffEnums_sorted a b r :
  diffEnums a b = Normal r →
  sorted_nodup (Keyed.onlyInA r) ∧ sorted_nodup (Keyed.onlyInB r).
Proof.
  intros (_ & _ & nsA & nsB & HndA & HndB & _ & _ & ->)%diffEnums_Normal.
  split; by apply Array_sort_sorted_nodup, NoDup_filter.
Qed.

Lemma diffEnums_self s r :
  diffEnums s s = Normal r → delta_empty r.
Proof.
  intros H. pose proof H as (_ & _ & nsA & nsB & _ & _ & HA & HB & ->)%diffEnums_Normal.
  unfold delta_empty. simpl. split_and!.
  - apply Array_sort_nil_inv, filter_nil_iff, Forall_forall.
    intros n Hn Hneg. apply negb_True in Hneg. apply Hneg, Set_has_spec, HB.
    by apply HA.
  - apply Array_sort_nil_inv, filter_nil_iff, Forall_forall.
    intros n Hn Hneg. apply negb_True in Hneg. apply Hneg, Set_has_spec, HA.
    by apply HB.
  - clear. induction nsA as [|n ns IH]; [done|]. csimpl. rewrite IH.
    unfold enum_change. case_decide; [|done]. by rewrite decide_True.
Qed.

(** ** Trimming and [normalize] *)

Lemma dropWhile_all {A} (p : A → bool) pad l :
  Forall (λ x, p x = true) pad → dropWhile p (pad ++ l) = dropWhile p l.
Proof. induction 1 as [|x pad Hx _ IH]; simpl; [done|]. by rewrite Hx. Qed.

Lemma dropWhile_app_all {A} (p : A → bool) l pad :
  Forall (λ x, p x = true) pad →
  dropWhile p (l ++ pad) = match dropWhile p l with
                           | [] => []
                           | x :: l' => (x :: l') ++ pad
                           end.
Proof.
  intros Hpad. induction l as [|x l IH]; simpl.
  - rewrite <- (app_nil_r pad). by rewrite dropWhile_all.
  - destruct (p x); [apply IH | done].
Qed.

Lemma dropWhile_split {A} (p : A → bool) l :
  ∃ pad, l = pad ++ dropWhile p l
         ∧ Forall (λ x, p x = true) pad
         ∧ (∀ x, head (dropWhile p l) = Some x → p x = false).
Proof.
  induction l as [|x l (pad & Hl & Hpad & Hhd)]; simpl.
  - exists []. split_and!; [done..|]. by intros x [=].
  - destruct (p x) eqn:E.
    + exists (x :: pad). split_and!; [by rewrite Hl at 1 | by constructor | done].
    + exists []. split_and!; [done..|]. by intros ? [= <-].
Qed.

Lemma trimEnd_app_all s pad :
  Forall (λ c, is_whitespace c = true) pad → trimEnd (s ++ pad) = trimEnd s.
Proof.
  intros Hpad. unfold trimEnd. rewrite reverse_app, dropWhile_all; [done|].
  by apply Forall_reverse.
Qed.

(** Whitespace around a string does not survive [trim]. *)
Lemma trim_padding p1 s p2 :
  Forall (λ c, is_whitespace c = true) p1 →
  Forall (λ c, is_whitespace c = true) p2 →
  trim (p1 ++ s ++ p2) = trim s.
Proof.
  intros H1 H2. unfold trim, trimStart.
  rewrite dropWhile_all, dropWhile_app_all by done.
  destruct (dropWhile is_whitespace s) as [|x l]; [done|].
  by apply trimEnd_app_all.
Qed.

(** [trim] removes exactly the whitespace at both ends. *)
Lemma trim_spec s :
  ∃ p1 p2, s = p1 ++ trim s ++ p2
           ∧ Forall (λ c, is_whitespace c = true) p1
           ∧ Forall (λ c, is_whitespace c = true) p2
           ∧ (∀ c, head (trim s) = Some c → is_whitespace c = false)
           ∧ (∀ c, last (trim s) = Some c → is_whitespace c = false).
Proof.
  unfold trim, trimStart, trimEnd.
  destruct (dropWhile_split is_whitespace s) as (p1 & Hs & Hp1 & Hhd).
  set (t := dropWhile is_whitespace s) in *.
  destruct (dropWhile_split is_whitespace (reverse t)) as (q & Ht & Hq & Hlast).
  set (u := dropWhile is_whitespace (reverse t)) in *.
  assert (t = reverse u ++ reverse q) as Ht'.
  { rewrite <- reverse_app, <- Ht. by rewrite reverse_involutive. }
  exists p1, (reverse q). split_and!.
  - by rewrite <- Ht'.
  - done.
  - by apply Forall_reverse.
  - intros c Hc. apply Hhd. rewrite Ht'.
    destruct (reverse u); [done|]. by simpl in *.
  - intros c Hc. apply Hlast. by rewrite <- last_reverse.
Qed.




(** ** The orchestrator *)

Lemma diffSchemas_Normal a b la lb r :
  diffSchemas a b la lb = Normal r ↔
  ∃ cols en,
    diffColumns a b = Normal cols ∧ diffEnums a b = Normal en
    ∧ r = {| DiffResult.labelA := la; DiffResult.labelB := lb;
             DiffResult.tables := diffTables a b;
             DiffResult.columns := cols;
             DiffResult.indexes := diffIndexes a b;
             DiffResult.foreignKeys := diffForeignKeys a b;
             DiffResult.enums := en;
             DiffResult.policies := diffPolicies a b;
             DiffResult.functions := diffFunctions a b;
             DiffResult.triggers := diffTriggers a b |}.
Proof.
  unfold diffSchemas. split.
  - intros (cols & Hc & (en & He & Hr)%bind_Normal_inv)%bind_Normal_inv.
    exists cols, en. split_and!; [done..|]. by injection Hr.
  - intros (cols & en & -> & He & ->). simpl. by rewrite He.
Qed.

Lemma diffSchemas_parts a b la lb r :
  diffSchemas a b la lb = Normal r →
  diffColumns a b = Normal (DiffResult.columns r)
  ∧ diffEnums a b = Normal (DiffResult.enums r)
  ∧ DiffResult.tables r = diffTables a b
  ∧ DiffResult.indexes r = diffIndexes a b
  ∧ DiffResult.foreignKeys r = diffForeignKeys a b
  ∧ DiffResult.policies r = diffPolicies a b
  ∧ DiffResult.functions r = diffFunctions a b
  ∧ DiffResult.triggers r = diffTriggers a b.
Proof. intros (cols & en & ? & ? & ->)%diffSchemas_Normal. done. Qed.

(** [diffSchemas] returns exactly on the snapshots in which no grouping
    key collides with an inherited property name. *)
Lemma diffSchemas_returns_iff a b la lb :
  (∃ r, diffSchemas a b la lb = Normal r) ↔ prototype_free a ∧ prototype_free b.
Proof.
  unfold prototype_free. rewrite !Forall_forall. split.
  - intros [r (Hc & He & _)%diffSchemas_parts].
    apply diffColumns_Normal in Hc as (? & ? & _).
    apply diffEnums_Normal in He as (? & ? & _). by repeat split.
  - intros [[HcA HeA] [HcB HeB]].
    destruct (diffColumns_returns a b HcA HcB) as [cols Hc].
    destruct (diffEnums_returns a b HeA HeB) as [en He].
    eexists. apply diffSchemas_Normal. by exists cols, en.
Qed.

Lemma diffSchemas_throws a b la lb :
  ¬ (prototype_free a ∧ prototype_free b) →
  diffSchemas a b la lb = Throw TypeError.
Proof.
  intros Hn. destruct (diffSchemas a b la lb) as [r|[]] eqn:E; [|done].
  destruct Hn. apply (diffSchemas_returns_iff a b la lb). by exists r.
Qed.

(** ** Stats *)

Lemma foldl_column_counts {C} (l : list (Keyed.t C)) oa ob ch :
  foldl (λ '(oa, ob, ch) table,
           (oa + length (Keyed.onlyInA table),
            ob + length (Keyed.onlyInB table),
            ch + length (Keyed.changed table))%nat)
        (oa, ob, ch) l
  = (oa + sum_list_with (λ t, length (Keyed.onlyInA t)) l,
     ob + sum_list_with (λ t, length (Keyed.onlyInB t)) l,
     ch + sum_list_with (λ t, length (Keyed.changed t)) l)%nat.
Proof.
  revert oa ob ch. induction l as [|t l IH]; intros oa ob ch; simpl.
  - by rewrite !Nat.add_0_r.
  - rewrite IH. by rewrite !Nat.add_assoc.
Qed.

Lemma sum_list_with_perm {A} (f : A → nat) l1 l2 :
  l1 ≡ₚ l2 → sum_list_with f l1 = sum_list_with f l2.
Proof. induction 1; simpl; lia. Qed.

(** * The claims *)

(** ** C1: the orchestrator on well-formed snapshots *)

(** C1 — the claim says that [diffSchemas] returns a result for every
    pair of well-formed snapshots. It does not: a snapshot with one
    column whose table is named [constructor], compared with the empty
    snapshot, makes [groupBy] find the inherited [Object.prototype]
    property under that key, skip the initialisation, and call the
    missing [push]; the call throws a [TypeError], whatever the labels. *)
Theorem C1_diffSchemas_throws_on_inherited_name la lb :
  diffSchemas (with_columns [mk_column "constructor" "id" "NO"]) empty_schema
              la lb
  = Throw TypeError.
Proof. reflexivity. Qed.

(** Outside that defect the first half of C1 holds: a result is returned
    as soon as no grouping key is an inherited property name. *)
Lemma diffSchemas_returns a b la lb :
  prototype_free a → prototype_free b → ∃ r, diffSchemas a b la lb = Normal r.
Proof. intros. by apply diffSchemas_returns_iff. Qed.

Lemma diffColumns_no_columns a b r :
  diffColumns a b = Normal r →
  Schema.columns a = [] → Schema.columns b = [] → r = [].
Proof.
  intros H HA HB. destruct r as [|[t d] r]; [done|].
  assert ((t, d) ∈ (t, d) :: r) as Hin by left.
  apply (diffColumns_entry _ _ _ _ _ H) in Hin as [-> Hne].
  destruct Hne. apply table_delta_unknown; rewrite ?HA, ?HB; apply not_elem_of_nil.
Qed.

Lemma diffEnums_no_enums a b r :
  diffEnums a b = Normal r →
  Schema.enums a = [] → Schema.enums b = [] → delta_empty r.
Proof.
  intros (_ & _ & nsA & nsB & _ & _ & HA & HB & ->)%diffEnums_Normal EA EB.
  rewrite EA in HA. rewrite EB in HB.
  assert (nsA = []) as ->.
  { destruct nsA as [|n ?]; [done|].
    assert (n ∈ Enum.enum_name <$> []) as Hn by (apply HA; left).
    by apply elem_of_nil in Hn. }
  assert (nsB = []) as ->.
  { destruct nsB as [|n ?]; [done|].
    assert (n ∈ Enum.enum_name <$> []) as Hn by (apply HB; left).
    by apply elem_of_nil in Hn. }
  done.
Qed.

(** The second half of C1: a category that is empty on both sides yields
    an empty section of any returned result. *)
Lemma diffSchemas_empty_sections a b la lb r :
  diffSchemas a b la lb = Normal r →
  (Schema.tables a = [] → Schema.tables b = [] →
   TableDiff.onlyInA (DiffResult.tables r) = []
   ∧ TableDiff.onlyInB (DiffResult.tables r) = []
   ∧ TableDiff.common (DiffResult.tables r) = [])
  ∧ (Schema.columns a = [] → Schema.columns b = [] → DiffResult.columns r = [])
  ∧ (Schema.indexes a = [] → Schema.indexes b = [] →
     delta_empty (DiffResult.indexes r))
  ∧ (Schema.foreignKeys a = [] → Schema.foreignKeys b = [] →
     delta_empty (DiffResult.foreignKeys r))
  ∧ (Schema.enums a = [] → Schema.enums b = [] →
     delta_empty (DiffResult.enums r))
  ∧ (Schema.policies a = [] → Schema.policies b = [] →
     delta_empty (DiffResult.policies r))
  ∧ (Schema.functions a = [] → Schema.functions b = [] →
     delta_empty (DiffResult.functions r))
  ∧ (Schema.triggers a = [] → Schema.triggers b = [] →
     delta_empty (DiffResult.triggers r)).
Proof.
  intros (Hc & He & -> & -> & -> & -> & -> & ->)%diffSchemas_parts.
  split_and!.
  - intros HA HB. unfold diffTables. by rewrite HA, HB.
  - by apply diffColumns_no_columns.
  - intros HA HB. unfold diffIndexes. by rewrite HA, HB.
  - intros HA HB. unfold diffForeignKeys. by rewrite HA, HB.
  - by apply diffEnums_no_enums.
  - intros HA HB. unfold diffPolicies. by rewrite HA, HB.
  - intros HA HB. unfold diffFunctions. by rewrite HA, HB.
  - intros HA HB. unfold diffTriggers. by rewrite HA, HB.
Qed.

(** ** C2: a snapshot compared with itself *)

(** C2 — the claim says that [diffSchemas s s] yields empty sections
    for every snapshot [s]. For the snapshot whose only column belongs
    to a table named [constructor], compared with itself under any
    labels, [diffSchemas] yields no result at all: [groupBy] finds the
    inherited property under that key and the call throws a
    [TypeError]. This is the defect of C1, reached with the same
    snapshot on both sides. *)
Theorem C2_self_diff_throws_on_inherited_name la lb :
  diffSchemas (with_columns [mk_column "constructor" "id" "NO"])
              (with_columns [mk_column "constructor" "id" "NO"]) la lb
  = Throw TypeError.
Proof. reflexivity. Qed.

(** What holds of a snapshot compared with itself: a result is returned
    when no grouping key is an inherited property name, and every
    returned result has empty [onlyInA], [onlyInB] and [changed] in all
    eight categories, no table key in the columns result, and for
    [tables.common] the sorted duplicate-free list of exactly the table
    names of [s]. *)
Lemma self_diff_is_empty s la lb :
  (prototype_free s → ∃ r, diffSchemas s s la lb = Normal r)
  ∧ ∀ r, diffSchemas s s la lb = Normal r →
      TableDiff.onlyInA (DiffResult.tables r) = []
      ∧ TableDiff.onlyInB (DiffResult.tables r) = []
      ∧ sorted_nodup (TableDiff.common (DiffResult.tables r))
      ∧ (∀ n, n ∈ TableDiff.common (DiffResult.tables r)
              ↔ n ∈ Table.table_name <$> Schema.tables s)
      ∧ DiffResult.columns r = []
      ∧ delta_empty (DiffResult.indexes r)
      ∧ delta_empty (DiffResult.foreignKeys r)
      ∧ delta_empty (DiffResult.enums r)
      ∧ delta_empty (DiffResult.policies r)
      ∧ delta_empty (DiffResult.functions r)
      ∧ delta_empty (DiffResult.triggers r).
Proof.
  split; [intros; by apply diffSchemas_returns|].
  intros r (Hc & He & -> & -> & -> & -> & -> & ->)%diffSchemas_parts.
  destruct (diffTables_self s) as (HA & HB & _).
  destruct (diffTables_sorted s s) as (_ & _ & Hsorted).
  split_and!; try done.
  - intros n. rewrite diffTables_common. naive_solver.
  - by apply diffColumns_self in Hc.
  - unfold diffIndexes. by rewrite diffKeyed_self.
  - unfold diffForeignKeys. by rewrite diffKeyed_self.
  - by apply diffEnums_self in He.
  - unfold diffPolicies. by rewrite diffKeyed_self.
  - unfold diffFunctions. by rewrite diffKeyed_self.
  - unfold diffTriggers. by rewrite diffKeyed_self.
Qed.

Lemma sample_A_prototype_free : prototype_free sample_A.
Proof. apply (bool_decide_unpack _). by vm_compute. Qed.

Lemma self_diff_of_sample_A :
  ∃ r, diffSchemas sample_A sample_A [] [] = Normal r
       ∧ TableDiff.common (DiffResult.tables r) = [js "orders"; js "users"]
       ∧ DiffResult.columns r = []
       ∧ delta_empty (DiffResult.indexes r)
       ∧ delta_empty (DiffResult.enums r).
Proof.
  destruct (self_diff_is_empty sample_A [] []) as [Hret Hempty].
  destruct (Hret sample_A_prototype_free) as [r Hr].
  exists r. destruct (Hempty r Hr) as (_ & _ & _ & _ & Hc & Hi & _ & He & _).
  split_and!; try done.
  apply diffSchemas_parts in Hr as (_ & _ & -> & _). reflexivity.
Qed.

(** ** C3: the sort invariant *)

(** C3 — the claim says that every [onlyInA] and [onlyInB] list of a
    result is sorted and duplicate-free, the per-table column lists
    included. [diffColumns] filters the two column-name sets without
    sorting them, unlike the seven other routines: for a table [users]
    whose columns [zeta] and [alpha] exist in A only, in this order, the
    result is returned and its [onlyInA] list for [users] is
    [zeta, alpha], which is not sorted. *)
Theorem C3_column_lists_are_not_sorted :
  ∃ r, diffSchemas (with_columns [mk_column "users" "zeta" "YES";
                                  mk_column "users" "alpha" "YES"])
                   empty_schema [] []
       = Normal r
     ∧ Map_get (DiffResult.columns r) (js "users")
       = Some {| Keyed.onlyInA := [js "zeta"; js "alpha"];
                 Keyed.onlyInB := []; Keyed.changed := [] |}
     ∧ ¬ sort_invariant r.
Proof.
  eexists. split; [reflexivity|]. split; [reflexivity|].
  intros (_ & _ & Hcols & _).
  destruct (Hcols (js "users")
              {| Keyed.onlyInA := [js "zeta"; js "alpha"];
                 Keyed.onlyInB := []; Keyed.changed := [] |})
    as [[Hsorted _] _]; [left|].
  apply Sorted_inv in Hsorted as [_ Hhd]. apply HdRel_inv in Hhd.
  discriminate Hhd.
Qed.

(** What does hold of every returned result: the lists of the seven
    other categories are sorted and duplicate-free, and the per-table
    column lists are duplicate-free. *)
Lemma sort_invariant_outside_columns a b la lb r :
  diffSchemas a b la lb = Normal r →
  sorted_nodup (TableDiff.onlyInA (DiffResult.tables r))
  ∧ sorted_nodup (TableDiff.onlyInB (DiffResult.tables r))
  ∧ sorted_nodup (TableDiff.common (DiffResult.tables r))
  ∧ keyed_sorted (DiffResult.indexes r)
  ∧ keyed_sorted (DiffResult.foreignKeys r)
  ∧ keyed_sorted (DiffResult.enums r)
  ∧ keyed_sorted (DiffResult.policies r)
  ∧ keyed_sorted (DiffResult.functions r)
  ∧ keyed_sorted (DiffResult.triggers r)
  ∧ ∀ t d, (t, d) ∈ DiffResult.columns r →
           NoDup (Keyed.onlyInA d) ∧ NoDup (Keyed.onlyInB d).
Proof.
  intros (Hc & He & -> & -> & -> & -> & -> & ->)%diffSchemas_parts.
  destruct (diffTables_sorted a b) as (? & ? & ?).
  split_and!; try done; try apply diffKeyed_sorted.
  - by apply diffEnums_sorted in He.
  - intros t d [-> _]%(diffColumns_entry _ _ _ _ _ Hc).
    pose proof (table_delta_nodup a b t) as (? & _ & (? & _)%NoDup_app)%NoDup_app.
    done.
Qed.

(** ** C4: the shape of a [changed] entry *)

(** C4, as stated, fails: the entry [diffIndexes] reports for an index
    whose definition differs has the properties [key], [defA] and
    [defB], not [key], [valueA] and [valueB]. *)
Lemma C4_index_entry_has_other_names :
  ¬ value_fields_only (diffIndexes (with_indexes [mk_index "t" "i" "d1"])
                                   (with_indexes [mk_index "t" "i" "d2"])).
Proof.
  intros H.
  specialize (H (entry_literal "defA" "defB" (js "t::i") (js "d1") (js "d2"))).
  assert (Keyed.changed (diffIndexes (with_indexes [mk_index "t" "i" "d1"])
                                     (with_indexes [mk_index "t" "i" "d2"]))
          = [entry_literal "defA" "defB" (js "t::i") (js "d1") (js "d2")])
    as Heq by reflexivity.
  rewrite Heq in H. discriminate H. left.
Qed.

Lemma changed_entry_named {R} (keyFn valFn : R → jsstring) nameA nameB
    recsA recsB e :
  e ∈ Keyed.changed (diffKeyed keyFn valFn nameA nameB recsA recsB) →
  named_entry keyFn valFn nameA nameB recsA recsB e.
Proof.
  intros He%diffKeyed_changed_entry. split; [|done].
  by destruct He as (k & rA & rB & _ & _ & _ & ->).
Qed.

(** C4, amended — for every pair of snapshots, each entry of [changed]
    is an object with exactly three properties: [key], [valueA],
    [valueB] for foreign keys, policies and triggers; [key], [defA],
    [defB] for indexes; [key], [signatureA], [signatureB] for functions.
    In each case the key is one present on both sides, and the two other
    properties hold the comparison value strings derived from A and from
    B for that key, which differ. *)
Theorem C4_changed_entry_shape a b e :
  (e ∈ Keyed.changed (diffIndexes a b) →
   named_entry diffIndexes_keyFn Index.indexdef "defA" "defB"
     (Schema.indexes a) (Schema.indexes b) e)
  ∧ (e ∈ Keyed.changed (diffForeignKeys a b) →
     named_entry diffForeignKeys_keyFn diffForeignKeys_valFn "valueA" "valueB"
       (Schema.foreignKeys a) (Schema.foreignKeys b) e)
  ∧ (e ∈ Keyed.changed (diffPolicies a b) →
     named_entry diffPolicies_keyFn diffPolicies_valFn "valueA" "valueB"
       (Schema.policies a) (Schema.policies b) e)
  ∧ (e ∈ Keyed.changed (diffFunctions a b) →
     named_entry diffFunctions_keyFn diffFunctions_valFn
       "signatureA" "signatureB"
       (Schema.functions a) (Schema.functions b) e)
  ∧ (e ∈ Keyed.changed (diffTriggers a b) →
     named_entry diffTriggers_keyFn diffTriggers_valFn "valueA" "valueB"
       (Schema.triggers a) (Schema.triggers b) e).
Proof. split_and!; apply changed_entry_named. Qed.

Lemma C4_witness :
  named_entry diffFunctions_keyFn diffFunctions_valFn "signatureA" "signatureB"
    (Schema.functions sample_A) (Schema.functions sample_B)
    (entry_literal "signatureA" "signatureB" (js "f(int)")
       (diffFunctions_valFn (mk_function "f" "int" true))
       (diffFunctions_valFn (mk_function "f" "int" false))).
Proof.
  apply (C4_changed_entry_shape sample_A sample_B).
  assert (Keyed.changed (diffFunctions sample_A sample_B)
          = [entry_literal "signatureA" "signatureB" (js "f(int)")
               (diffFunctions_valFn (mk_function "f" "int" true))
               (diffFunctions_valFn (mk_function "f" "int" false))])
    as -> by reflexivity.
  left.
Defined.

(** ** C5: duplicate keys in the routines built on [Map] *)

(** C5 — in the five keyed-set routines, when several records of one
    collection have the same identity key, the last of them in the
    collection's order supplies the comparison value: a key present on
    both sides is reported in [changed] exactly when the values of the
    two last records differ, and then with those two values. The
    routines are total functions, and a key occurs at most once across
    [onlyInA], [onlyInB] and the keys of [changed]. *)
Theorem C5_last_record_wins a b :
  last_record_wins diffIndexes_keyFn Index.indexdef
    (Schema.indexes a) (Schema.indexes b) (diffIndexes a b)
  ∧ last_record_wins diffForeignKeys_keyFn diffForeignKeys_valFn
      (Schema.foreignKeys a) (Schema.foreignKeys b) (diffForeignKeys a b)
  ∧ last_record_wins diffPolicies_keyFn diffPolicies_valFn
      (Schema.policies a) (Schema.policies b) (diffPolicies a b)
  ∧ last_record_wins diffFunctions_keyFn diffFunctions_valFn
      (Schema.functions a) (Schema.functions b) (diffFunctions a b)
  ∧ last_record_wins diffTriggers_keyFn diffTriggers_valFn
      (Schema.triggers a) (Schema.triggers b) (diffTriggers a b).
Proof. split_and!; apply diffKeyed_last_record_wins. Qed.

(** In [sample_A] the index [users_pkey] is recorded twice, first with
    definition [d1], then with [d2]; [sample_B] has it with [d2]. The
    last record is the one compared, so the key is not reported. *)
Lemma C5_witness :
  last_with_key diffIndexes_keyFn (js "users::users_pkey")
    (Schema.indexes sample_A)
  = Some (mk_index "users" "users_pkey" "d2")
  ∧ JStr (js "users::users_pkey") ∉ changed_keys (diffIndexes sample_A sample_B).
Proof.
  split; [reflexivity|].
  destruct (C5_last_record_wins sample_A sample_B) as [[_ Hlast] _].
  destruct (Hlast (js "users::users_pkey")
              (mk_index "users" "users_pkey" "d2")
              (mk_index "users" "users_pkey" "d2") eq_refl eq_refl)
    as (_ & _ & H).
  exact H.
Defined.

(** ** C6: field comparison after normalization *)



(** ** C7: which tables appear in the columns result *)

Lemma delta_nonempty_iff a b t :
  ¬ delta_empty (table_delta a b t)
  ↔ (∃ n, column_only_in a b t n) ∨ (∃ n, column_only_in b a t n)
    ∨ (∃ n, column_changed a b t n).
Proof.
  unfold delta_empty. split.
  - intros Hne.
    destruct (Keyed.onlyInA (table_delta a b t)) as [|n l] eqn:EA.
    2:{ left. exists n. apply table_delta_onlyInA. rewrite EA. left. }
    destruct (Keyed.onlyInB (table_delta a b t)) as [|n l] eqn:EB.
    2:{ right. left. exists n. apply table_delta_onlyInB. rewrite EB. left. }
    destruct (Keyed.changed (table_delta a b t)) as [|ch l] eqn:EC;
      [by destruct Hne|].
    right. right. exists (column ch). apply table_delta_changed_name.
    rewrite EC. left.
  - intros [[n Hn]|[[n Hn]|[n Hn]]] (HA & HB & HC).
    + apply table_delta_onlyInA in Hn. rewrite HA in Hn.
      by apply elem_of_nil in Hn.
    + apply table_delta_onlyInB in Hn. rewrite HB in Hn.
      by apply elem_of_nil in Hn.
    + apply table_delta_changed_name in Hn. rewrite HC in Hn.
      by apply elem_of_nil in Hn.
Qed.

(** C7 — for every returned result and every table name [t]: [t] is a
    key of the columns result exactly when some column of [t] is
    recorded in A only, or in B only, or is recorded on both sides with a
    difference in a compared field; and no key is mapped to a record
    with three empty lists. *)
Theorem C7_table_listed_iff_delta a b la lb r t :
  diffSchemas a b la lb = Normal r →
  (t ∈ Object_keys (DiffResult.columns r)
   ↔ (∃ n, column_only_in a b t n) ∨ (∃ n, column_only_in b a t n)
     ∨ (∃ n, column_changed a b t n))
  ∧ (∀ d, (t, d) ∈ DiffResult.columns r → ¬ delta_empty d).
Proof.
  intros (Hc & _)%diffSchemas_parts. split.
  - rewrite Object_keys_elem_of, (diffColumns_key _ _ _ _ Hc).
    apply delta_nonempty_iff.
  - intros d Hd. by apply (diffColumns_entry _ _ _ _ _ Hc) in Hd as [_ ?].
Qed.

Lemma sample_B_prototype_free : prototype_free sample_B.
Proof. apply (bool_decide_unpack _). by vm_compute. Qed.

(** [users] is listed for the two samples, [orders] is not. *)
Lemma C7_witness :
  ∃ r, diffSchemas sample_A sample_B [] [] = Normal r
       ∧ js "users" ∈ Object_keys (DiffResult.columns r)
       ∧ js "orders" ∉ Object_keys (DiffResult.columns r).
Proof.
  destruct (diffSchemas_returns sample_A sample_B [] []
              sample_A_prototype_free sample_B_prototype_free) as [r Hr].
  exists r. split; [done|]. split.
  - apply (C7_table_listed_iff_delta _ _ _ _ _ _ Hr).
    left. exists (js "zeta"). split; by vm_compute.
  - intros H. apply (C7_table_listed_iff_delta _ _ _ _ _ _ Hr) in H
      as [[n [H _]]|[[n [H _]]|(n & cA & cB & H & _)]]; by vm_compute in H.
Defined.

(** ** C8: enum types present on both sides *)

(** With a value recorded twice for a type the sequences are compared
    with their repetitions: [a, a] against [a] is reported. Such a
    snapshot is not one the extraction delivers, a label being unique
    within its type. *)
Remark repeated_value_is_reported :
  ∃ r, diffEnums (with_enums [mk_enum "status" "a"; mk_enum "status" "a"])
                 (with_enums [mk_enum "status" "a"])
       = Normal r
     ∧ enum_entries r (js "status")
       = [{| name := js "status"; valuesA := [js "a"; js "a"];
             valuesB := [js "a"] |}].
Proof. eexists. split; reflexivity. Qed.

(** Without any assumption on repetitions: no [changed] entry when one
    value sequence is a permutation of the other, exactly one entry,
    holding the two sorted sequences, otherwise. *)
Lemma enum_changed_iff_not_permutation a b la lb r n :
  diffSchemas a b la lb = Normal r →
  enum_values a n ≠ [] → enum_values b n ≠ [] →
  enum_multiset_rule a b (DiffResult.enums r) n.
Proof.
  intros (_ & He & _)%diffSchemas_parts HA HB.
  pose proof (diffEnums_entries _ _ _ _ He HA HB) as Hent. split.
  - intros Hp%Array_sort_eq_iff. rewrite Hent. by rewrite decide_True.
  - intros Hp. rewrite Hent. rewrite decide_False.
    2:{ intros Heq. by apply Hp, Array_sort_eq_iff. }
    eexists. split; [done|]. simpl.
    split_and!; try done; try apply Array_sort_sorted;
      apply Array_sort_perm.
Qed.

(** On sequences without repetition, equality as sets is being a
    permutation. *)
Lemma same_set_iff_perm l1 l2 :
  NoDup l1 → NoDup l2 → same_set l1 l2 ↔ l1 ≡ₚ l2.
Proof.
  intros N1 N2. split.
  - intros Hs. by apply NoDup_Permutation.
  - intros Hp x. by rewrite Hp.
Qed.

(** C8 — for every result returned for two snapshots and every enum
    type name with values on both sides, the values of a type being
    pairwise distinct on each side (a type does not hold a label twice):
    if the two value sequences are equal as sets, whatever their order,
    no [changed] entry is produced for the name; if they differ, exactly
    one is produced, and it holds the name and the two value sequences
    sorted. Every entry produced for the name holds sorted lists with
    exactly the values of the two sides. *)
Theorem C8_enum_changed_iff_sets_differ a b la lb r n :
  diffSchemas a b la lb = Normal r →
  enum_values a n ≠ [] → enum_values b n ≠ [] →
  NoDup (enum_values a n) → NoDup (enum_values b n) →
  enum_set_rule a b (DiffResult.enums r) n
  ∧ ∀ e, e ∈ enum_entries (DiffResult.enums r) n →
         name e = n
         ∧ Sorted str_le (valuesA e) ∧ valuesA e ≡ₚ enum_values a n
         ∧ Sorted str_le (valuesB e) ∧ valuesB e ≡ₚ enum_values b n.
Proof.
  intros (_ & He & _)%diffSchemas_parts HA HB NA NB.
  pose proof (diffEnums_entries _ _ _ _ He HA HB) as Hent.
  split; [split|].
  - intros Hs%same_set_iff_perm; [|done..]. apply Array_sort_eq_iff in Hs.
    rewrite Hent. by rewrite decide_True.
  - intros Hs. rewrite Hent. rewrite decide_False; [done|].
    intros Heq%Array_sort_eq_iff. by apply Hs, same_set_iff_perm.
  - intros e. rewrite Hent. case_decide; [by intros ?%elem_of_nil|].
    intros ->%list_elem_of_singleton. simpl.
    split_and!; try done; try apply Array_sort_sorted; apply Array_sort_perm.
Qed.

(** The two scenarios of the specification: one more value on one side
    gives one entry with the sorted values; the same values in another
    order give no entry. *)
Lemma C8_witness :
  (∃ r, diffSchemas sample_A sample_B [] [] = Normal r
        ∧ enum_entries (DiffResult.enums r) (js "status")
          = [{| name := js "status";
                valuesA := [js "active"; js "inactive"];
                valuesB := [js "active"; js "archived"; js "inactive"] |}])
  ∧ (∃ r, diffSchemas (with_enums [mk_enum "mood" "sad"; mk_enum "mood" "happy"])
                      (with_enums [mk_enum "mood" "happy"; mk_enum "mood" "sad"])
                      [] []
          = Normal r
        ∧ enum_entries (DiffResult.enums r) (js "mood") = []).
Proof.
  split.
  - eexists. split; [reflexivity|].
    edestruct (C8_enum_changed_iff_sets_differ
                 sample_A sample_B [] [] _ (js "status") eq_refl)
      as [[_ Hne] _].
    + by vm_compute.
    + by vm_compute.
    + apply (bool_decide_unpack _). by vm_compute.
    + apply (bool_decide_unpack _). by vm_compute.
    + rewrite Hne; [reflexivity|].
      intros Hs. specialize (Hs (js "archived")).
      assert (js "archived" ∈ enum_values sample_A (js "status")) as Hin.
      { apply Hs. apply (bool_decide_unpack _). by vm_compute. }
      apply (bool_decide_pack _) in Hin. by vm_compute in Hin.
  - eexists. split; [reflexivity|].
    edestruct (C8_enum_changed_iff_sets_differ
                 (with_enums [mk_enum "mood" "sad"; mk_enum "mood" "happy"])
                 (with_enums [mk_enum "mood" "happy"; mk_enum "mood" "sad"])
                 [] [] _ (js "mood") eq_refl)
      as [[Heq _] _].
    + by vm_compute.
    + by vm_compute.
    + apply (bool_decide_unpack _). by vm_compute.
    + apply (bool_decide_unpack _). by vm_compute.
    + apply Heq. intros x.
      change (x ∈ [js "sad"; js "happy"] ↔ x ∈ [js "happy"; js "sad"]).
      rewrite !elem_of_cons. naive_solver.
Defined.

(** ** C9: the stats *)

(** C9 — for every result returned by [diffSchemas], [computeStats]
    yields a record whose three column counts are the sums, over all the
    table entries of the columns result, of the lengths of their
    [onlyInA], [onlyInB] and [changed] lists, whose [tablesCommon] is
    the length of [tables.common], and whose other fields are the
    lengths of the corresponding lists of their category. The function
    is total and reads its argument only. *)
Theorem C9_computeStats_counts a b la lb diff :
  diffSchemas a b la lb = Normal diff →
  let st := computeStats diff in
  columnsOnlyA st
  = sum_list_with (λ d, length (Keyed.onlyInA d)) (DiffResult.columns diff).*2
  ∧ columnsOnlyB st
    = sum_list_with (λ d, length (Keyed.onlyInB d)) (DiffResult.columns diff).*2
  ∧ columnsChanged st
    = sum_list_with (λ d, length (Keyed.changed d)) (DiffResult.columns diff).*2
  ∧ tablesOnlyA st = length (TableDiff.onlyInA (DiffResult.tables diff))
  ∧ tablesOnlyB st = length (TableDiff.onlyInB (DiffResult.tables diff))
  ∧ tablesCommon st = length (TableDiff.common (DiffResult.tables diff))
  ∧ indexesOnlyA st = length (Keyed.onlyInA (DiffResult.indexes diff))
  ∧ indexesOnlyB st = length (Keyed.onlyInB (DiffResult.indexes diff))
  ∧ indexesChanged st = length (Keyed.changed (DiffResult.indexes diff))
  ∧ fksOnlyA st = length (Keyed.onlyInA (DiffResult.foreignKeys diff))
  ∧ fksOnlyB st = length (Keyed.onlyInB (DiffResult.foreignKeys diff))
  ∧ fksChanged st = length (Keyed.changed (DiffResult.foreignKeys diff))
  ∧ enumsOnlyA st = length (Keyed.onlyInA (DiffResult.enums diff))
  ∧ enumsOnlyB st = length (Keyed.onlyInB (DiffResult.enums diff))
  ∧ enumsChanged st = length (Keyed.changed (DiffResult.enums diff))
  ∧ policiesOnlyA st = length (Keyed.onlyInA (DiffResult.policies diff))
  ∧ policiesOnlyB st = length (Keyed.onlyInB (DiffResult.policies diff))
  ∧ policiesChanged st = length (Keyed.changed (DiffResult.policies diff))
  ∧ functionsOnlyA st = length (Keyed.onlyInA (DiffResult.functions diff))
  ∧ functionsOnlyB st = length (Keyed.onlyInB (DiffResult.functions diff))
  ∧ functionsChanged st = length (Keyed.changed (DiffResult.functions diff))
  ∧ triggersOnlyA st = length (Keyed.onlyInA (DiffResult.triggers diff))
  ∧ triggersOnlyB st = length (Keyed.onlyInB (DiffResult.triggers diff))
  ∧ triggersChanged st = length (Keyed.changed (DiffResult.triggers diff)).
Proof.
  intros (Hc & _)%diffSchemas_parts.
  apply diffColumns_Normal in Hc as (_ & _ & Hnd & _).
  pose proof (Object_values_perm _ Hnd) as Hperm.
  unfold computeStats. rewrite foldl_column_counts. simpl.
  rewrite !(sum_list_with_perm _ _ _ Hperm). done.
Qed.

Lemma C9_witness :
  ∃ diff, diffSchemas sample_A sample_B [] [] = Normal diff
          ∧ columnsOnlyA (computeStats diff) = 2%nat
          ∧ columnsChanged (computeStats diff) = 1%nat.
Proof.
  destruct (diffSchemas_returns sample_A sample_B [] []
              sample_A_prototype_free sample_B_prototype_free) as [diff Hd].
  exists diff. split; [done|].
  destruct (C9_computeStats_counts _ _ _ _ _ Hd) as (HA & _ & HC & _).
  rewrite HA, HC.
  assert (diffSchemas sample_A sample_B [] [] = Normal diff → 
          (DiffResult.columns diff).*2 
          = [table_delta sample_A sample_B (js "users")]) as Hcols.
  { clear. vm_compute. by intros [= <-]. }
  rewrite (Hcols Hd). by vm_compute.
Defined.

(** ** C10: duplicate column records *)

(** C10 — in the column diff, for every table entry of a returned
    result: each [changed] entry compares the first record of A and the
    first record of B, in snapshot order, that carry this table name and
    column name; a column name is in [changed] exactly when those two
    first records differ in a compared field; and a column name occurs
    at most once across [onlyInA], [onlyInB] and [changed]. Later
    records with the same two names are not compared. *)
Theorem C10_first_column_record_wins a b la lb r t d :
  diffSchemas a b la lb = Normal r →
  (t, d) ∈ DiffResult.columns r →
  NoDup (Keyed.onlyInA d ++ Keyed.onlyInB d ++ (column <$> Keyed.changed d))
  ∧ (∀ ch, ch ∈ Keyed.changed d →
           ∃ cA cB, head (columns_named a t (column ch)) = Some cA
                    ∧ head (columns_named b t (column ch)) = Some cB
                    ∧ differences ch = compareColumnDetails cA cB)
  ∧ (∀ n, n ∈ column <$> Keyed.changed d ↔ column_changed a b t n).
Proof.
  intros (Hc & _)%diffSchemas_parts [-> _]%(diffColumns_entry _ _ _ _ _ Hc).
  split_and!.
  - apply table_delta_nodup.
  - intros ch (cA & cB & ? & ? & _ & ?)%table_delta_changed. eauto.
  - apply table_delta_changed_name.
Qed.

(** [sample_A] records [users.email] twice, first nullable, then not;
    [sample_B] records it once, not nullable. The first record is the
    one compared: the column is reported as changed, which it would not
    be against the last record. *)
Lemma C10_witness :
  ∃ r d, diffSchemas sample_A sample_B [] [] = Normal r
         ∧ (js "users", d) ∈ DiffResult.columns r
         ∧ js "email" ∈ column <$> Keyed.changed d
         ∧ last (columns_named sample_A (js "users") (js "email"))
           = head (columns_named sample_B (js "users") (js "email")).
Proof.
  destruct (diffSchemas_returns sample_A sample_B [] []
              sample_A_prototype_free sample_B_prototype_free) as [r Hr].
  assert ((js "users", table_delta sample_A sample_B (js "users"))
          ∈ DiffResult.columns r) as Hin.
  { revert Hr. vm_compute. intros [= <-]. left. }
  exists r, (table_delta sample_A sample_B (js "users")).
  split_and!; [done..| |reflexivity].
  destruct (C10_first_column_record_wins _ _ _ _ _ _ _ Hr Hin) as (_ & _ & Hiff).
  apply Hiff. eexists _, _. split_and!; [reflexivity..|]. by vm_compute.
Defined.

(** * Further properties of the code *)

(** ** Tables *)

(** X1 — [diffTables] splits the table names three ways: [onlyInA]
    holds exactly the names of A that B lacks, [onlyInB] the names of B
    that A lacks, [common] the names both have; each list is sorted and
    free of duplicates, whatever repetitions the snapshots contain. *)
Theorem X1_diffTables_partition a b n :
  (n ∈ TableDiff.onlyInA (diffTables a b)
   ↔ n ∈ Table.table_name <$> Schema.tables a
     ∧ n ∉ Table.table_name <$> Schema.tables b)
  ∧ (n ∈ TableDiff.onlyInB (diffTables a b)
     ↔ n ∈ Table.table_name <$> Schema.tables b
       ∧ n ∉ Table.table_name <$> Schema.tables a)
  ∧ (n ∈ TableDiff.common (diffTables a b)
     ↔ n ∈ Table.table_name <$> Schema.tables a
       ∧ n ∈ Table.table_name <$> Schema.tables b)
  ∧ sorted_nodup (TableDiff.onlyInA (diffTables a b))
  ∧ sorted_nodup (TableDiff.onlyInB (diffTables a b))
  ∧ sorted_nodup (TableDiff.common (diffTables a b)).
Proof.
  destruct (diffTables_sorted a b) as (? & ? & ?).
  split_and!; try done.
  - apply diffTables_onlyInA.
  - apply diffTables_onlyInB.
  - apply diffTables_common.
Qed.

Lemma sorted_nodup_unique l1 l2 :
  sorted_nodup l1 → sorted_nodup l2 → (∀ x, x ∈ l1 ↔ x ∈ l2) → l1 = l2.
Proof.
  intros [S1 N1] [S2 N2] Hiff.
  apply (Sorted_unique str_le); [done..|]. by apply NoDup_Permutation.
Qed.

(** X2 — exchanging the two snapshots exchanges [onlyInA] and
    [onlyInB] and leaves [common] as it is, although [common] is then
    computed from the other side's names. *)
Theorem X2_diffTables_swap a b :
  TableDiff.onlyInA (diffTables b a) = TableDiff.onlyInB (diffTables a b)
  ∧ TableDiff.onlyInB (diffTables b a) = TableDiff.onlyInA (diffTables a b)
  ∧ TableDiff.common (diffTables b a) = TableDiff.common (diffTables a b).
Proof.
  split_and!; [done..|].
  destruct (diffTables_sorted a b) as (_ & _ & ?).
  destruct (diffTables_sorted b a) as (_ & _ & ?).
  apply sorted_nodup_unique; [done..|].
  intros n. rewrite !diffTables_common. naive_solver.
Qed.

(** ** The routines built on [Map] *)

(** X3 — in each of the five keyed routines, [onlyInA] holds exactly
    the identity keys that some record of A has and no record of B has,
    and [onlyInB] the converse. *)
Theorem X3_keyed_only_in_exact a b :
  only_in_exact diffIndexes_keyFn (Schema.indexes a) (Schema.indexes b)
    (diffIndexes a b)
  ∧ only_in_exact diffForeignKeys_keyFn (Schema.foreignKeys a)
      (Schema.foreignKeys b) (diffForeignKeys a b)
  ∧ only_in_exact diffPolicies_keyFn (Schema.policies a) (Schema.policies b)
      (diffPolicies a b)
  ∧ only_in_exact diffFunctions_keyFn (Schema.functions a)
      (Schema.functions b) (diffFunctions a b)
  ∧ only_in_exact diffTriggers_keyFn (Schema.triggers a) (Schema.triggers b)
      (diffTriggers a b).
Proof.
  split_and!; intros k; split;
    apply diffKeyed_onlyInA || apply diffKeyed_onlyInB.
Qed.

Lemma diffKeyed_swapped {R} (keyFn valFn : R → jsstring) nameA nameB recsA recsB :
  keyed_swapped (diffKeyed keyFn valFn nameA nameB recsA recsB)
                (diffKeyed keyFn valFn nameA nameB recsB recsA).
Proof.
  split_and!; [done..|].
  destruct (diffKeyed_changed_keys keyFn valFn nameA nameB recsA recsB)
    as (ks & -> & Hnd & Hks).
  destruct (diffKeyed_changed_keys keyFn valFn nameA nameB recsB recsA)
    as (ks' & -> & Hnd' & Hks').
  apply fmap_Permutation, NoDup_Permutation; [done..|].
  intros k. rewrite Hks, Hks'. naive_solver.
Qed.

(** X4 — exchanging the two snapshots in any of the five keyed routines
    exchanges [onlyInA] and [onlyInB], and reports the same keys as
    changed, possibly in another order. *)
Theorem X4_keyed_swap a b :
  keyed_swapped (diffIndexes a b) (diffIndexes b a)
  ∧ keyed_swapped (diffForeignKeys a b) (diffForeignKeys b a)
  ∧ keyed_swapped (diffPolicies a b) (diffPolicies b a)
  ∧ keyed_swapped (diffFunctions a b) (diffFunctions b a)
  ∧ keyed_swapped (diffTriggers a b) (diffTriggers b a).
Proof. split_and!; apply diffKeyed_swapped. Qed.

Lemma omap_key_keyed_entry nameA nameB (mapA mapB : list (jsstring * jsstring))
    (ks : list jsstring) :
  omap (λ e, Map_get e (js "key")) (keyed_entry nameA nameB mapA mapB <$> ks)
  = JStr <$> ks.
Proof. induction ks as [|k ks IH]; [done|]. csimpl. by rewrite IH. Qed.

Lemma diffKeyed_changed_order {R} (keyFn valFn : R → jsstring) nameA nameB
    recsA recsB :
  changed_in_order_of keyFn recsA (diffKeyed keyFn valFn nameA nameB recsA recsB).
Proof.
  unfold changed_in_order_of, changed_keys. simpl.
  eexists. split; [apply omap_key_keyed_entry|].
  rewrite map_of_keys. apply sublist_filter.
Qed.

(** X5 — in each of the five keyed routines the entries of [changed]
    come in the order in which their keys first occur among the records
    of A (they are not sorted). *)
Theorem X5_changed_follows_A_order a b :
  changed_in_order_of diffIndexes_keyFn (Schema.indexes a) (diffIndexes a b)
  ∧ changed_in_order_of diffForeignKeys_keyFn (Schema.foreignKeys a)
      (diffForeignKeys a b)
  ∧ changed_in_order_of diffPolicies_keyFn (Schema.policies a)
      (diffPolicies a b)
  ∧ changed_in_order_of diffFunctions_keyFn (Schema.functions a)
      (diffFunctions a b)
  ∧ changed_in_order_of diffTriggers_keyFn (Schema.triggers a)
      (diffTriggers a b).
Proof. split_and!; apply diffKeyed_changed_order. Qed.

(** ** When the orchestrator throws *)

(** X6 — [diffSchemas] returns a result exactly when no column's table
    name and no enum type name, in either snapshot, is a property name
    inherited from [Object.prototype] ([constructor], [toString],
    [__proto__], ...); in every other case it throws a [TypeError]. The
    names of tables, indexes, foreign keys, policies, functions and
    triggers never make it throw. *)
Theorem X6_diffSchemas_throws_exactly a b la lb :
  ((∃ r, diffSchemas a b la lb = Normal r)
   ↔ prototype_free a ∧ prototype_free b)
  ∧ (diffSchemas a b la lb = Throw TypeError
     ↔ ¬ (prototype_free a ∧ prototype_free b)).
Proof.
  split; [apply diffSchemas_returns_iff|]. split.
  - intros Ht [r Hr]%(diffSchemas_returns_iff a b la lb). congruence.
  - apply diffSchemas_throws.
Qed.

(** ** [groupBy] *)

Lemma concat_groups_perm {T} (fn : T → jsstring) (ks : list jsstring) (arr : list T) :
  NoDup ks → (∀ x, x ∈ arr → fn x ∈ ks) →
  concat ((λ k, filter (λ x, fn x = k) arr) <$> ks) ≡ₚ arr.
Proof.
  intros Hnd. revert arr. induction Hnd as [|k ks Hk Hnd IH]; intros arr Hcov.
  - destruct arr as [|x arr]; [done|].
    assert (fn x ∈ []) as Hx by (apply Hcov; left).
    by apply elem_of_nil in Hx.
  - csimpl. etrans; [|apply (filter_app_complement (λ x, fn x = k) arr)].
    apply Permutation_app_head.
    rewrite <- (IH (filter (λ x, ¬ fn x = k) arr)).
    + assert (((λ k0, filter (λ x, fn x = k0) arr) <$> ks)
              = ((λ k0, filter (λ x, fn x = k0)
                          (filter (λ x, ¬ fn x = k) arr)) <$> ks)) as ->; [|done].
      apply Forall_fmap_ext_1, Forall_forall. intros k' Hk'.
      rewrite list_filter_filter. apply filter_ext_in.
      intros x _. split; [|naive_solver]. intros Heq. split; [done|].
      intros Hk2. apply Hk. by rewrite <- Hk2, Heq.
    + intros x [Hne Hx]%list_elem_of_filter.
      apply Hcov in Hx. apply elem_of_cons in Hx as [?|?]; done.
Qed.

Lemma omap_Map_get_groups {T} (fn : T → jsstring) (arr : list T)
    (m : JSObject (list T)) (ks : list jsstring) :
  (∀ k, Map_get m k =
        if decide (k ∈ fn <$> arr)
        then Some (filter (λ x, fn x = k) arr) else None) →
  (∀ k, k ∈ ks → k ∈ fn <$> arr) →
  omap (Map_get m) ks = (λ k, filter (λ x, fn x = k) arr) <$> ks.
Proof.
  intros Hget. induction ks as [|k ks IH]; intros Hin; [done|]. csimpl.
  rewrite Hget, decide_True by (apply Hin; left).
  rewrite IH; [done|]. intros. apply Hin. by right.
Qed.

(** X7 — when [groupBy] returns an object, [Object.keys] lists each
    distinct key value once: the key values that are array indices
    first, in ascending numeric order, then the others in the order of
    their first occurrence (so for keys none of which is an array index,
    the distinct key values in first-occurrence order). The property
    read under a key value is the non-empty list of exactly the items
    with that key, in their original order; [Object.values] lists these
    groups in the order of the keys, and together they contain every
    item once. *)
Theorem X7_groupBy_partitions {T} (arr : list T) (fn : T → jsstring) m :
  groupBy arr fn = Normal m →
  NoDup (Object_keys m)
  ∧ (∀ k, k ∈ Object_keys m ↔ k ∈ fn <$> arr)
  ∧ Object_keys m
    = merge_sort index_le
        (filter (λ k, is_Some (array_index k)) (new_Set (fn <$> arr)))
      ++ filter (λ k, ¬ is_Some (array_index k)) (new_Set (fn <$> arr))
  ∧ (Forall (λ k, array_index k = None) (fn <$> arr) →
     Object_keys m = new_Set (fn <$> arr))
  ∧ (∀ k, k ∈ fn <$> arr →
          obj_get m k = Own (filter (λ x, fn x = k) arr)
          ∧ filter (λ x, fn x = k) arr ≠ [])
  ∧ Object_values m = (λ k, filter (λ x, fn x = k) arr) <$> Object_keys m
  ∧ concat (Object_values m) ≡ₚ arr.
Proof.
  intros (Hkeys & _ & Hget)%groupBy_Normal.
  assert (NoDup (Object_keys m)) as Hnd.
  { rewrite Object_keys_perm, Hkeys. apply new_Set_nodup. }
  assert (∀ k, k ∈ Object_keys m ↔ k ∈ fn <$> arr) as Hin.
  { intros k. by rewrite Object_keys_elem_of, Hkeys, new_Set_elem_of. }
  assert (Object_keys m
          = merge_sort index_le
              (filter (λ k, is_Some (array_index k)) (new_Set (fn <$> arr)))
            ++ filter (λ k, ¬ is_Some (array_index k)) (new_Set (fn <$> arr)))
    as Hord.
  { unfold Object_keys. change (m.*1) with (Map_keys m). by rewrite Hkeys. }
  assert (Object_values m
          = (λ k, filter (λ x, fn x = k) arr) <$> Object_keys m) as Hvals.
  { unfold Object_values. apply omap_Map_get_groups; [done|].
    intros k. by rewrite Hin. }
  split_and!; try done.
  - intros Hno. rewrite Hord.
    assert (Forall (λ k, ¬ is_Some (array_index k)) (new_Set (fn <$> arr)))
      as Hall.
    { apply Forall_forall. intros k Hk. rewrite new_Set_elem_of in Hk.
      rewrite Forall_forall in Hno. rewrite (Hno k Hk). by intros [? ?]. }
    rewrite (filter_all _ _ Hall).
    assert (filter (λ k, is_Some (array_index k)) (new_Set (fn <$> arr)) = [])
      as ->; [|done].
    by apply filter_nil_iff.
  - intros k Hk. split.
    + apply obj_get_Own. rewrite Hget. by rewrite decide_True.
    + apply list_elem_of_fmap in Hk as (x & -> & Hx). intros Hnil.
      assert (x ∈ filter (λ x0, fn x0 = fn x) arr) as Hf
        by by apply list_elem_of_filter.
      rewrite Hnil in Hf. by apply elem_of_nil in Hf.
  - rewrite Hvals. apply concat_groups_perm; [done|].
    intros x Hx. apply Hin. by apply list_elem_of_fmap_2.
Qed.

(** Grouping the columns of the first sample; and grouping by the keys
    [b], [1], [b]: the array index [1] is listed first. *)
Lemma X7_witness :
  (∃ m, groupBy (Schema.columns sample_A) Column.table_name = Normal m
        ∧ Object_keys m = [js "users"]
        ∧ concat (Object_values m) ≡ₚ Schema.columns sample_A)
  ∧ (∃ m, groupBy [js "b"; js "1"; js "b"] id = Normal m
          ∧ Object_keys m = [js "1"; js "b"]
          ∧ Object_values m = [[js "1"]; [js "b"; js "b"]]).
Proof.
  split.
  - eexists. split; [reflexivity|].
    edestruct (X7_groupBy_partitions (Schema.columns sample_A)
                 Column.table_name)
      as (_ & _ & _ & Hk & _ & _ & Hperm); [reflexivity|].
    split; [|exact Hperm].
    rewrite Hk; [reflexivity|].
    apply (bool_decide_unpack _). by vm_compute.
  - eexists. split; [reflexivity|].
    edestruct (X7_groupBy_partitions [js "b"; js "1"; js "b"] id)
      as (_ & _ & Hord & _ & _ & Hvals & _); [reflexivity|].
    split.
    + rewrite Hord. reflexivity.
    + rewrite Hvals, Hord. reflexivity.
Defined.

(** ** [normalize] and [compareColumnDetails] *)

Lemma dropWhile_head_false {A} (p : A → bool) l :
  (∀ x, head l = Some x → p x = false) → dropWhile p l = l.
Proof. destruct l as [|x l]; [done|]. intros H. simpl. by rewrite H. Qed.

Lemma trim_idempotent s : trim (trim s) = trim s.
Proof.
  destruct (trim_spec s) as (p1 & p2 & _ & _ & _ & Hhd & Hlast).
  unfold trim at 1. unfold trimStart, trimEnd.
  rewrite (dropWhile_head_false _ (trim s)) by done.
  rewrite dropWhile_head_false; [apply reverse_involutive|].
  intros c. rewrite head_reverse. apply Hlast.
Qed.

(** X8 — [normalize] is idempotent: applied to its own result it gives
    this result again; and [null], [undefined], the empty string and a
    string of whitespace all normalize to the empty string. *)
Theorem X8_normalize_idempotent v :
  normalize (JStr (normalize v)) = normalize v
  ∧ normalize JNull = normalize (JStr [])
  ∧ normalize JUndefined = normalize (JStr [])
  ∧ ∀ pad, Forall (λ c, is_whitespace c = true) pad →
           normalize (JStr pad) = normalize (JStr []).
Proof.
  split_and!; try done.
  - destruct v; try done; apply trim_idempotent.
  - intros pad Hpad. simpl.
    pose proof (trim_padding pad [] [] Hpad (Forall_nil_2 _)) as H.
    simpl in H. by rewrite app_nil_r in H.
Qed.

Lemma X8_witness :
  normalize (JStr (js "   ")) = normalize (JStr []).
Proof.
  destruct (X8_normalize_idempotent JNull) as (_ & _ & _ & H).
  apply H. repeat constructor.
Defined.

Lemma compareColumnDetails_fields a b :
  field <$> compareColumnDetails a b
  = filter (λ f, normalize (Column.get a f) ≠ normalize (Column.get b f)) fields.
Proof.
  rewrite compareColumnDetails_alt, <- list_fmap_compose. apply list_fmap_id.
Qed.

(** X9 — the differences [compareColumnDetails] reports follow the fixed
    order of the eleven compared fields, name each field at most once,
    and are at most eleven. *)
Theorem X9_differences_in_field_order a b :
  field <$> compareColumnDetails a b `sublist_of` fields
  ∧ NoDup (field <$> compareColumnDetails a b)
  ∧ (length (compareColumnDetails a b) ≤ 11)%nat.
Proof.
  assert (field <$> compareColumnDetails a b `sublist_of` fields) as Hsub.
  { rewrite compareColumnDetails_fields. apply sublist_filter. }
  split_and!; [done| |].
  - eapply sublist_NoDup; [|done]. by apply (bool_decide_unpack _).
  - apply sublist_length in Hsub. by rewrite length_fmap in Hsub.
Qed.

(** X10 — comparing two column records the other way round reports the
    same fields in the same order, with the two values of every entry
    exchanged. *)
Theorem X10_compareColumnDetails_swap a b :
  compareColumnDetails b a = swap_values <$> compareColumnDetails a b.
Proof.
  rewrite !compareColumnDetails_alt, <- list_fmap_compose.
  rewrite (filter_ext_in
             (λ f, normalize (Column.get b f) ≠ normalize (Column.get a f))
             (λ f, normalize (Column.get a f) ≠ normalize (Column.get b f)));
    [done|].
  intros f _. split; intros H Heq; by apply H.
Qed.

(** ** The per-table column lists *)

(** X11 — for every table entry of a returned result, [onlyInA] holds
    exactly the column names recorded under the table in A and not in B,
    in the order in which they first occur in A's columns, and
    [onlyInB] the converse in the order of B's columns. *)
Theorem X11_column_lists_in_snapshot_order a b la lb r t d :
  diffSchemas a b la lb = Normal r →
  (t, d) ∈ DiffResult.columns r →
  (∀ n, n ∈ Keyed.onlyInA d ↔ column_only_in a b t n)
  ∧ (∀ n, n ∈ Keyed.onlyInB d ↔ column_only_in b a t n)
  ∧ Keyed.onlyInA d
    `sublist_of` new_Set (Column.column_name
                            <$> filter (λ c, Column.table_name c = t)
                                       (Schema.columns a))
  ∧ Keyed.onlyInB d
    `sublist_of` new_Set (Column.column_name
                            <$> filter (λ c, Column.table_name c = t)
                                       (Schema.columns b)).
Proof.
  intros (Hc & _)%diffSchemas_parts [-> _]%(diffColumns_entry _ _ _ _ _ Hc).
  split_and!.
  - intros n. apply table_delta_onlyInA.
  - intros n. apply table_delta_onlyInB.
  - apply sublist_filter.
  - apply sublist_filter.
Qed.

Lemma X11_witness :
  ∃ r d, diffSchemas sample_A sample_B [] [] = Normal r
         ∧ (js "users", d) ∈ DiffResult.columns r
         ∧ Keyed.onlyInA d `sublist_of` [js "email"; js "zeta"; js "alpha"].
Proof.
  destruct (diffSchemas_returns sample_A sample_B [] []
              sample_A_prototype_free sample_B_prototype_free) as [r Hr].
  assert ((js "users", table_delta sample_A sample_B (js "users"))
          ∈ DiffResult.columns r) as Hin.
  { revert Hr. vm_compute. intros [= <-]. left. }
  exists r, (table_delta sample_A sample_B (js "users")).
  split_and!; [done..|].
  destruct (X11_column_lists_in_snapshot_order _ _ _ _ _ _ _ Hr Hin)
    as (_ & _ & H & _).
  exact H.
Defined.

Lemma compareColumnDetails_nil_swap a b :
  compareColumnDetails a b = [] → compareColumnDetails b a = [].
Proof.
  rewrite !compareColumnDetails_alt. intros H%fmap_nil_inv.
  rewrite (proj2 (filter_nil_iff _ fields)); [done|].
  apply filter_nil_iff in H. eapply Forall_impl; [done|].
  intros f Hf Hne. apply Hf. intros Heq. by apply Hne.
Qed.

Lemma column_changed_swap a b t n : column_changed a b t n ↔ column_changed b a t n.
Proof.
  unfold column_changed. split; intros (c1 & c2 & H1 & H2 & Hne);
    exists c2, c1; split_and!; try done;
    intros Hnil; by apply Hne, compareColumnDetails_nil_swap.
Qed.

Lemma table_delta_swap a b t :
  Keyed.onlyInA (table_delta b a t) = Keyed.onlyInB (table_delta a b t)
  ∧ Keyed.onlyInB (table_delta b a t) = Keyed.onlyInA (table_delta a b t)
  ∧ ∀ n, n ∈ column <$> Keyed.changed (table_delta b a t)
         ↔ n ∈ column <$> Keyed.changed (table_delta a b t).
Proof.
  split_and!; [done..|]. intros n.
  rewrite !table_delta_changed_name. apply column_changed_swap.
Qed.

Lemma delta_empty_swap a b t :
  delta_empty (table_delta a b t) → delta_empty (table_delta b a t).
Proof.
  destruct (table_delta_swap a b t) as (HA & HB & HC).
  intros (EA & EB & EC). unfold delta_empty. rewrite HA, HB. split_and!; [done..|].
  destruct (Keyed.changed (table_delta b a t)) as [|ch l] eqn:E; [done|].
  assert (column ch ∈ column <$> Keyed.changed (table_delta a b t)) as Hin.
  { apply HC. csimpl. left. }
  rewrite EC in Hin. by apply elem_of_nil in Hin.
Qed.

(** X12 — exchanging the two snapshots in [diffColumns] keeps the set of
    table keys; under each key the two "only in" lists are exchanged as
    they are, and the same column names are reported as changed. The
    exchange also does not change whether the call returns. *)
Theorem X12_diffColumns_swap a b r :
  diffColumns a b = Normal r →
  ∃ r', diffColumns b a = Normal r'
        ∧ ∀ t, (t ∈ Map_keys r' ↔ t ∈ Map_keys r)
               ∧ ∀ d d', (t, d) ∈ r → (t, d') ∈ r' →
                   Keyed.onlyInA d' = Keyed.onlyInB d
                   ∧ Keyed.onlyInB d' = Keyed.onlyInA d
                   ∧ ∀ n, n ∈ column <$> Keyed.changed d'
                          ↔ n ∈ column <$> Keyed.changed d.
Proof.
  intros Hr. pose proof Hr as (HpA & HpB & _)%diffColumns_Normal.
  destruct (diffColumns_returns b a HpB HpA) as [r' Hr'].
  exists r'. split; [done|]. intros t. split.
  - rewrite (diffColumns_key _ _ _ _ Hr), (diffColumns_key _ _ _ _ Hr').
    split; intros Hne He; apply Hne; by apply delta_empty_swap.
  - intros d d' [-> _]%(diffColumns_entry _ _ _ _ _ Hr)
      [-> _]%(diffColumns_entry _ _ _ _ _ Hr').
    apply table_delta_swap.
Qed.

Lemma X12_witness :
  ∃ r', diffColumns sample_B sample_A = Normal r' ∧ Map_keys r' = [js "users"].
Proof.
  edestruct (X12_diffColumns_swap sample_A sample_B) as (r' & Hr' & _);
    [reflexivity|].
  exists r'. split; [done|]. revert Hr'. vm_compute. by intros [= <-].
Defined.

(** ** Enums *)

(** X13 — when [diffEnums] returns: [onlyInA] holds exactly the type
    names with a value in A and none in B, [onlyInB] the converse; and
    every [changed] entry names a type with values on both sides, holds
    the sorted values of each side, which differ, and is the only entry
    of that name. *)
Theorem X13_diffEnums_result a b r :
  diffEnums a b = Normal r →
  (∀ n, n ∈ Keyed.onlyInA r
        ↔ n ∈ Enum.enum_name <$> Schema.enums a
          ∧ n ∉ Enum.enum_name <$> Schema.enums b)
  ∧ (∀ n, n ∈ Keyed.onlyInB r
          ↔ n ∈ Enum.enum_name <$> Schema.enums b
            ∧ n ∉ Enum.enum_name <$> Schema.enums a)
  ∧ (∀ e, e ∈ Keyed.changed r →
          name e ∈ Enum.enum_name <$> Schema.enums a
          ∧ name e ∈ Enum.enum_name <$> Schema.enums b
          ∧ valuesA e = Array_sort (enum_values a (name e))
          ∧ valuesB e = Array_sort (enum_values b (name e))
          ∧ valuesA e ≠ valuesB e)
  ∧ NoDup (name <$> Keyed.changed r).
Proof.
  intros Hr. split_and!.
  - intros n. by apply diffEnums_onlyInA.
  - intros n. by apply diffEnums_onlyInB.
  - apply diffEnums_Normal in Hr
      as (_ & _ & nsA & nsB & _ & _ & HA & _ & ->). simpl.
    intros e (n & Hn & He)%list_elem_of_omap.
    unfold enum_change in He. repeat case_decide; try done.
    injection He as <-. simpl. split_and!; try done. by apply HA.
  - apply diffEnums_Normal in Hr
      as (_ & _ & nsA & nsB & HndA & _ & _ & _ & ->). simpl.
    apply NoDup_omap_key; [|done]. apply enum_change_name.
Qed.

Lemma X13_witness :
  ∃ r, diffEnums sample_A sample_B = Normal r
       ∧ Keyed.onlyInA r = [] ∧ name <$> Keyed.changed r = [js "status"].
Proof.
  eexists. split; [reflexivity|].
  edestruct (X13_diffEnums_result sample_A sample_B) as (_ & _ & _ & _);
    [reflexivity|].
  split; reflexivity.
Defined.

(** ** The HTML escape *)

Lemma replace_all_app c rep s1 s2 :
  replace_all c rep (s1 ++ s2) = replace_all c rep s1 ++ replace_all c rep s2.
Proof. unfold replace_all. by rewrite fmap_app, concat_app. Qed.

Lemma replace_all_cons c rep x s :
  replace_all c rep (x :: s)
  = (if x =? c then rep else [x]) ++ replace_all c rep s.
Proof. done. Qed.

Lemma esc_unit_single x :
  replace_all 0x22 (js "&quot;")
    (replace_all 0x3E (js "&gt;")
       (replace_all 0x3C (js "&lt;") (replace_all 0x26 (js "&amp;") [x])))
  = esc_unit x.
Proof.
  unfold esc_unit. rewrite (replace_all_cons 0x26).
  destruct (N.eqb_spec x 0x26) as [->|?]; [reflexivity|].
  simpl. rewrite (replace_all_cons 0x3C).
  destruct (N.eqb_spec x 0x3C) as [->|?]; [reflexivity|].
  simpl. rewrite (replace_all_cons 0x3E).
  destruct (N.eqb_spec x 0x3E) as [->|?]; [reflexivity|].
  simpl. rewrite (replace_all_cons 0x22).
  destruct (N.eqb_spec x 0x22) as [->|?]; [reflexivity|].
  reflexivity.
Qed.

(** The four passes amount to one pass that rewrites each code unit. *)
Lemma esc_one_pass s : esc s = concat (esc_unit <$> ToString s).
Proof.
  unfold esc. induction (ToString s) as [|x l IH]; [done|].
  change (x :: l) with ([x] ++ l). rewrite !replace_all_app, IH.
  by rewrite esc_unit_single.
Qed.

Lemma esc_unit_no_markup x c :
  c ∈ esc_unit x → c ≠ 0x3C ∧ c ≠ 0x3E ∧ c ≠ 0x22.
Proof.
  unfold esc_unit.
  destruct (N.eqb_spec x 0x26); [|destruct (N.eqb_spec x 0x3C);
    [|destruct (N.eqb_spec x 0x3E); [|destruct (N.eqb_spec x 0x22)]]];
    intros Hc; repeat (apply elem_of_cons in Hc as [->|Hc]; [done|]);
    try by apply elem_of_nil in Hc.
Qed.

Lemma elem_of_concat {A} (ls : list (list A)) x :
  x ∈ concat ls ↔ ∃ l, x ∈ l ∧ l ∈ ls.
Proof.
  induction ls as [|l ls IH]; simpl.
  - split; [by intros ?%elem_of_nil | by intros (? & _ & ?%elem_of_nil)].
  - rewrite elem_of_app, IH. split.
    + intros [?|(l' & ? & ?)]; [exists l; split; [done|left] |
                                exists l'; split; [done|by right]].
    + intros (l' & Hx & [->|?]%elem_of_cons); [by left | right; eauto].
Qed.

(** X14 — the text [esc] returns contains no [<], no [>] and no double
    quote, whatever value it is given. *)
Theorem X14_esc_output_has_no_markup s c :
  c ∈ esc s → c ≠ 0x3C ∧ c ≠ 0x3E ∧ c ≠ 0x22.
Proof.
  rewrite esc_one_pass. intros (u & Hc & (x & -> & _)%list_elem_of_fmap)%elem_of_concat.
  by apply esc_unit_no_markup in Hc.
Qed.

Lemma X14_witness : 0x3C ∉ esc (JStr (js "a<b")).
Proof. intros H. by apply X14_esc_output_has_no_markup in H as (? & _). Defined.

Lemma esc_unit_inj x y r1 r2 :
  esc_unit x ++ r1 = esc_unit y ++ r2 → x = y ∧ r1 = r2.
Proof.
  unfold esc_unit.
  destruct (N.eqb_spec x 0x26) as [->|?]; [|destruct (N.eqb_spec x 0x3C) as [->|?];
    [|destruct (N.eqb_spec x 0x3E) as [->|?]; [|destruct (N.eqb_spec x 0x22) as [->|?]]]];
  (destruct (N.eqb_spec y 0x26) as [->|?]; [|destruct (N.eqb_spec y 0x3C) as [->|?];
    [|destruct (N.eqb_spec y 0x3E) as [->|?]; [|destruct (N.eqb_spec y 0x22) as [->|?]]]]);
  cbn; intros [=]; subst; done.
Qed.

Lemma esc_body_inj s1 s2 :
  concat (esc_unit <$> s1) = concat (esc_unit <$> s2) → s1 = s2.
Proof.
  revert s2. induction s1 as [|x s1 IH]; intros [|y s2]; csimpl; try done.
  - intros H. pose proof (f_equal length H) as Hl. rewrite length_app in Hl.
    unfold esc_unit in Hl. simpl in Hl. repeat case_match; simpl in Hl; lia.
  - intros H. pose proof (f_equal length H) as Hl. rewrite length_app in Hl.
    unfold esc_unit in Hl. simpl in Hl. repeat case_match; simpl in Hl; lia.
  - intros [-> H]%esc_unit_inj. f_equal. by apply IH.
Qed.

(** X15 — [esc] loses nothing: two values with the same escaped text
    have the same string form. *)
Theorem X15_esc_injective s1 s2 : esc s1 = esc s2 → ToString s1 = ToString s2.
Proof. rewrite !esc_one_pass. apply esc_body_inj. Qed.

Lemma X15_witness : ToString (JNum 5) = ToString (JStr (js "5")).
Proof. apply X15_esc_injective. reflexivity. Defined.

(** ** The command line *)

Lemma Map_set_elem_of {K V} `{EqDecision K} (m : list (K * V)) k v k' v' :
  (k', v') ∈ Map_set m k v → (k', v') = (k, v) ∨ (k', v') ∈ m.
Proof.
  induction m as [|[k0 v0] m IH]; simpl.
  - intros ->%list_elem_of_singleton. by left.
  - case_decide.
    + intros [->|?]%elem_of_cons; [by left | right; by right].
    + intros [->|Hin]%elem_of_cons; [right; left|].
      destruct (IH Hin); [by left | right; by right].
Qed.

(** What the loop keeps true of every entry it stores. *)
Lemma parseFlags_from_entries n args flags (P : jsstring → JSValue → Prop) :
  (length args ≤ n)%nat →
  (∀ k v, (k, v) ∈ flags → P k v) →
  (∀ k, k ∈ args → startsWith (js "-") k = true → P k (JBool true)) →
  (∀ k s, k ∈ args → s ∈ args → startsWith (js "-") k = true →
          flag_value s → P k (JStr s)) →
  ∀ k v, (k, v) ∈ parseFlags_from flags args → P k v.
Proof.
  revert args flags. induction n as [|n IH]; intros args flags Hlen Hfl Ht Hs.
  { destruct args; [done | simpl in Hlen; lia]. }
  destruct args as [|arg rest]; [done|]. simpl in Hlen. simpl.
  destruct (startsWith (js "-") arg) eqn:Earg.
  - destruct rest as [|next rest'].
    + intros k v [[= -> ->]|?]%Map_set_elem_of; [|by apply Hfl].
      apply Ht; [left | done].
    + destruct (negb (bool_decide (next = [])) && negb (startsWith (js "-") next))
        eqn:Enext.
      * apply IH; [simpl in Hlen; lia | | |].
        -- intros k v [[= -> ->]|?]%Map_set_elem_of; [|by apply Hfl].
           apply andb_prop in Enext as [E1 E2].
           apply Hs; [left | right; left | done |].
           split; [|by destruct (startsWith (js "-") next)].
           intros ->. done.
        -- intros k Hk. apply Ht. by do 2 right.
        -- intros k s Hk Hs'. apply Hs; by do 2 right.
      * apply IH; [lia | | |].
        -- intros k v [[= -> ->]|?]%Map_set_elem_of; [|by apply Hfl].
           apply Ht; [left | done].
        -- intros k Hk. apply Ht. by right.
        -- intros k s Hk Hs'. apply Hs; by right.
  - apply IH; [lia | done | |].
    + intros k Hk. apply Ht. by right.
    + intros k s Hk Hs'. apply Hs; by right.
Qed.

(** X16 — every entry of the object [parseFlags] returns has a key that
    is one of the arguments and starts with [-], and a value that is
    either [true] or one of the arguments, non-empty and not starting
    with [-]: an argument that starts with [-] is never taken as a
    value, and arguments that follow no flag are dropped. *)
Theorem X16_parseFlags_entries args k v :
  (k, v) ∈ parseFlags args →
  k ∈ args ∧ startsWith (js "-") k = true
  ∧ (v = JBool true ∨ ∃ s, v = JStr s ∧ s ∈ args ∧ flag_value s).
Proof.
  apply (parseFlags_from_entries (length args) args []
           (λ k v, k ∈ args ∧ startsWith (js "-") k = true
                   ∧ (v = JBool true ∨ ∃ s, v = JStr s ∧ s ∈ args ∧ flag_value s))).
  - done.
  - by intros ?? ?%elem_of_nil.
  - intros k' Hk Hst. split_and!; [done..|]. by left.
  - intros k' s Hk Hs Hst Hv. split_and!; [done..|]. right. eauto.
Qed.

Lemma X16_witness :
  js "--json" ∈ (js <$> ["pos"; "--json"; "out.json"]%string)
  ∧ startsWith (js "-") (js "--json") = true.
Proof.
  destruct (X16_parseFlags_entries (js <$> ["pos"; "--json"; "out.json"]%string)
              (js "--json") (JStr (js "out.json"))) as (H1 & H2 & _).
  - vm_compute. left.
  - by split.
Defined.

(** An argument that starts with [-] is always read as a flag, whatever
    precedes it. *)
Lemma parseFlags_from_resync f suf n pre flags :
  startsWith (js "-") f = true → (length pre ≤ n)%nat →
  ∃ flags', parseFlags_from flags (pre ++ f :: suf)
            = parseFlags_from flags' (f :: suf).
Proof.
  intros Hf. revert pre flags. induction n as [|n IH]; intros pre flags Hlen.
  { destruct pre; [by eexists | simpl in Hlen; lia]. }
  destruct pre as [|a pre]; [by eexists|]. simpl in Hlen.
  rewrite <- app_comm_cons.
  change (parseFlags_from flags (a :: pre ++ f :: suf))
    with (if startsWith (js "-") a then
            match pre ++ f :: suf with
            | next :: rest' =>
                if negb (bool_decide (next = [])) && negb (startsWith (js "-") next)
                then parseFlags_from (obj_set flags a (JStr next)) rest'
                else parseFlags_from (obj_set flags a (JBool true)) (pre ++ f :: suf)
            | [] => obj_set flags a (JBool true)
            end
          else parseFlags_from flags (pre ++ f :: suf)).
  destruct (startsWith (js "-") a); [|apply IH; lia].
  destruct pre as [|b pre].
  - cbn [app]. rewrite Hf. rewrite andb_false_r. by eexists.
  - rewrite <- app_comm_cons.
    destruct (negb (bool_decide (b = [])) && negb (startsWith (js "-") b)).
    + apply IH. simpl in Hlen. lia.
    + apply (IH (b :: pre)). simpl in *. lia.
Qed.

(** X17 — the last occurrence of a flag decides: a flag that is the last
    argument maps to [true], and a flag followed by a last argument that
    is non-empty and does not start with [-] maps to that argument,
    whatever comes before. *)
Theorem X17_parseFlags_last_occurrence pre f v :
  startsWith (js "-") f = true →
  Map_get (parseFlags (pre ++ [f])) f = Some (JBool true)
  ∧ (flag_value v → Map_get (parseFlags (pre ++ [f; v])) f = Some (JStr v)).
Proof.
  intros Hf. unfold parseFlags. split.
  - destruct (parseFlags_from_resync f [] (length pre) pre [] Hf) as [fl ->];
      [done|].
    simpl. rewrite Hf. unfold obj_set. rewrite Map_get_set.
    by rewrite decide_True.
  - intros [Hne Hv].
    destruct (parseFlags_from_resync f [v] (length pre) pre [] Hf) as [fl ->];
      [done|].
    simpl. rewrite Hf, Hv. rewrite bool_decide_eq_false_2 by done. simpl.
    unfold obj_set. rewrite Map_get_set. by rewrite decide_True.
Qed.

Lemma X17_witness :
  Map_get (parseFlags (js <$> ["--html"; "a.html"; "--html"]%string)) (js "--html")
  = Some (JBool true).
Proof.
  destruct (X17_parseFlags_last_occurrence (js <$> ["--html"; "a.html"]%string)
              (js "--html") []) as [H _]; [reflexivity|].
  exact H.
Defined.

(** ** The terminal report *)

Lemma only_in_block_length color side label keys :
  length (only_in_block color side label keys) = block_lines 15 (length keys).
Proof.
  unfold only_in_block, block_lines.
  destruct (Nat.ltb_spec 0 (length keys)); [|done].
  rewrite !length_app, length_fmap, length_take. cbn [length].
  destruct (Nat.ltb_spec 15 (length keys)); cbn [length]; lia.
Qed.

Lemma block_lines_bound cap n : (block_lines cap n ≤ cap + 2)%nat.
Proof.
  unfold block_lines. destruct (0 <? n)%nat; [|lia].
  destruct (cap <? n)%nat; lia.
Qed.

Lemma length_zero_iff_nil {A} (l : list A) : (0 <? length l)%nat = false ↔ l = [].
Proof. destruct l; simpl; naive_solver. Qed.

Lemma printSimpleSection_length title section labelA labelB :
  length (printSimpleSection title section labelA labelB)
  = if decide (delta_empty section) then 0%nat
    else (2 + block_lines 15 (length (Keyed.onlyInA section))
          + block_lines 15 (length (Keyed.onlyInB section))
          + block_lines 10 (length (Keyed.changed section)))%nat.
Proof.
  unfold printSimpleSection.
  destruct (negb _ && negb _ && negb _) eqn:E.
  - apply andb_prop in E as [[E1%negb_true_iff E2%negb_true_iff]%andb_prop
                              E3%negb_true_iff].
    apply length_zero_iff_nil in E1, E2, E3.
    by rewrite decide_True by done.
  - rewrite decide_False.
    2:{ intros (H1 & H2 & H3). rewrite H1, H2, H3 in E. done. }
    rewrite !length_app, !only_in_block_length. cbn [length].
    unfold block_lines.
    repeat match goal with
      | |- context [(?x <? ?y)%nat] => destruct (Nat.ltb_spec x y)
      end;
      repeat (rewrite ?length_app, ?length_fmap, ?length_take; cbn [length]);
      lia.
Qed.

(** X18 — [printSimpleSection] logs nothing exactly when the section has
    three empty lists. Otherwise it logs a title line, for each
    non-empty "only in" list a heading, its first fifteen keys at most
    and a remainder line if keys were left out, the same for [changed]
    with ten entries at most, and a closing empty line: never more than
    forty-eight lines, however large the section. *)
Theorem X18_printSimpleSection_lines title section labelA labelB :
  (printSimpleSection title section labelA labelB = [] ↔ delta_empty section)
  ∧ (¬ delta_empty section →
     length (printSimpleSection title section labelA labelB)
     = (2 + block_lines 15 (length (Keyed.onlyInA section))
        + block_lines 15 (length (Keyed.onlyInB section))
        + block_lines 10 (length (Keyed.changed section)))%nat
     ∧ last (printSimpleSection title section labelA labelB) = Some [])
  ∧ (length (printSimpleSection title section labelA labelB) ≤ 48)%nat.
Proof.
  pose proof (printSimpleSection_length title section labelA labelB) as Hlen.
  split_and!.
  - destruct (decide (delta_empty section)) as [He|He].
    + split; [done|]. intros _. by apply nil_length_inv.
    + split; [|done]. intros Hnil. rewrite Hnil in Hlen. simpl in Hlen. lia.
  - intros He. rewrite decide_False in Hlen by done. split; [done|].
    unfold printSimpleSection.
    destruct (negb _ && negb _ && negb _) eqn:E.
    + apply andb_prop in E as [[E1%negb_true_iff E2%negb_true_iff]%andb_prop
                                E3%negb_true_iff].
      apply length_zero_iff_nil in E1, E2, E3. by destruct He.
    + rewrite !app_assoc. apply last_snoc.
  - rewrite Hlen. case_decide; [lia|].
    pose proof (block_lines_bound 15 (length (Keyed.onlyInA section))).
    pose proof (block_lines_bound 15 (length (Keyed.onlyInB section))).
    pose proof (block_lines_bound 10 (length (Keyed.changed section))).
    lia.
Qed.

Lemma X18_witness :
  length (printSimpleSection (js "INDEXES")
            (diffIndexes (with_indexes [mk_index "t" "i" "d1"; mk_index "t" "j" "d1"])
                         (with_indexes [mk_index "t" "i" "d2"]))
            (js "A") (js "B")) = 6%nat.
Proof.
  destruct (X18_printSimpleSection_lines (js "INDEXES")
            (diffIndexes (with_indexes [mk_index "t" "i" "d1"; mk_index "t" "j" "d1"])
                         (with_indexes [mk_index "t" "i" "d2"]))
            (js "A") (js "B")) as (_ & H & _).
  destruct H as [H _]; [intros (H1 & _); by vm_compute in H1|].
  rewrite H. reflexivity.
Defined.

(** ** Stats of particular comparisons *)

Lemma length_new_Set_remove_dups (l : list jsstring) :
  length (new_Set l) = length (remove_dups l).
Proof.
  apply Permutation_length, NoDup_Permutation.
  - apply new_Set_nodup.
  - apply NoDup_remove_dups.
  - intros x. by rewrite new_Set_elem_of, elem_of_remove_dups.
Qed.

(** X19 — the stats of a snapshot compared with itself are all zero,
    except [tablesCommon], which is the number of distinct table
    names. *)
Theorem X19_stats_of_self_diff s la lb r :
  diffSchemas s s la lb = Normal r →
  computeStats r
  = {| tablesOnlyA := 0; tablesOnlyB := 0;
       tablesCommon := length (remove_dups (Table.table_name <$> Schema.tables s));
       columnsOnlyA := 0; columnsOnlyB := 0; columnsChanged := 0;
       indexesOnlyA := 0; indexesOnlyB := 0; indexesChanged := 0;
       fksOnlyA := 0; fksOnlyB := 0; fksChanged := 0;
       enumsOnlyA := 0; enumsOnlyB := 0; enumsChanged := 0;
       policiesOnlyA := 0; policiesOnlyB := 0; policiesChanged := 0;
       functionsOnlyA := 0; functionsOnlyB := 0; functionsChanged := 0;
       triggersOnlyA := 0; triggersOnlyB := 0; triggersChanged := 0 |}.
Proof.
  intros (cols & en & Hc & He & ->)%diffSchemas_Normal.
  apply diffColumns_self in Hc as ->.
  apply diffEnums_self in He as (HA & HB & HC).
  destruct (diffTables_self s) as (TA & TB & TC).
  unfold computeStats. simpl DiffResult.columns. cbn [Object_values]. 
  unfold diffIndexes, diffForeignKeys, diffPolicies, diffFunctions, diffTriggers.
  rewrite !diffKeyed_self. cbn [DiffResult.tables DiffResult.indexes
    DiffResult.foreignKeys DiffResult.enums DiffResult.policies
    DiffResult.functions DiffResult.triggers Keyed.onlyInA Keyed.onlyInB
    Keyed.changed].
  rewrite HA, HB, HC, TA, TB, TC.
  rewrite Array_sort_length, length_new_Set_remove_dups. reflexivity.
Qed.

Lemma X19_witness :
  ∃ r, diffSchemas sample_A sample_A [] [] = Normal r
       ∧ tablesCommon (computeStats r) = 2%nat
       ∧ columnsChanged (computeStats r) = 0%nat.
Proof.
  destruct (diffSchemas_returns sample_A sample_A [] []
              sample_A_prototype_free sample_A_prototype_free) as [r Hr].
  exists r. split; [done|].
  rewrite (X19_stats_of_self_diff _ _ _ _ Hr). split; reflexivity.
Defined.

Lemma sum_list_with_fmap {A B} (f : B → nat) (g : A → B) (l : list A) :
  sum_list_with f (g <$> l) = sum_list_with (f ∘ g) l.
Proof. induction l as [|x l IH]; [done|]. csimpl. by rewrite IH. Qed.

Lemma sum_list_with_ext {A} (f g : A → nat) (l : list A) :
  (∀ x, f x = g x) → sum_list_with f l = sum_list_with g l.
Proof. intros H. induction l as [|x l IH]; [done|]. simpl. by rewrite H, IH. Qed.

Lemma diffColumns_values a b r :
  diffColumns a b = Normal r → r.*2 = table_delta a b <$> Map_keys r.
Proof.
  intros Hr. unfold Map_keys. rewrite <- list_fmap_compose.
  apply Forall_fmap_ext_1, Forall_forall. intros [t d] Hin. simpl.
  by apply (diffColumns_entry _ _ _ _ _ Hr) in Hin as [-> _].
Qed.

Lemma diffColumns_keys_swap a b r r' :
  diffColumns a b = Normal r → diffColumns b a = Normal r' →
  Map_keys r' ≡ₚ Map_keys r.
Proof.
  intros Hr Hr'.
  pose proof Hr as (_ & _ & Hnd & _)%diffColumns_Normal.
  pose proof Hr' as (_ & _ & Hnd' & _)%diffColumns_Normal.
  apply NoDup_Permutation; [done..|]. intros t.
  rewrite (diffColumns_key _ _ _ _ Hr), (diffColumns_key _ _ _ _ Hr').
  split; intros Hne He; apply Hne; by apply delta_empty_swap.
Qed.

Lemma table_delta_changed_length_swap a b t :
  length (Keyed.changed (table_delta b a t))
  = length (Keyed.changed (table_delta a b t)).
Proof.
  rewrite <- (length_fmap column (Keyed.changed (table_delta b a t))).
  rewrite <- (length_fmap column (Keyed.changed (table_delta a b t))).
  apply Permutation_length, NoDup_Permutation.
  - pose proof (table_delta_nodup b a t)
      as (_ & _ & (_ & _ & ?)%NoDup_app)%NoDup_app. done.
  - pose proof (table_delta_nodup a b t)
      as (_ & _ & (_ & _ & ?)%NoDup_app)%NoDup_app. done.
  - apply table_delta_swap.
Qed.

Lemma diffColumns_sums_swap a b r r' :
  diffColumns a b = Normal r → diffColumns b a = Normal r' →
  sum_list_with (λ d, length (Keyed.onlyInA d)) r'.*2
  = sum_list_with (λ d, length (Keyed.onlyInB d)) r.*2
  ∧ sum_list_with (λ d, length (Keyed.onlyInB d)) r'.*2
    = sum_list_with (λ d, length (Keyed.onlyInA d)) r.*2
  ∧ sum_list_with (λ d, length (Keyed.changed d)) r'.*2
    = sum_list_with (λ d, length (Keyed.changed d)) r.*2.
Proof.
  intros Hr Hr'.
  rewrite (diffColumns_values _ _ _ Hr), (diffColumns_values _ _ _ Hr').
  rewrite !sum_list_with_fmap.
  rewrite !(sum_list_with_perm _ _ _ (diffColumns_keys_swap _ _ _ _ Hr Hr')).
  split_and!; apply sum_list_with_ext; intros t; simpl; try done.
  apply table_delta_changed_length_swap.
Qed.

Lemma diffKeyed_changed_length_swap {R} (keyFn valFn : R → jsstring)
    nameA nameB recsA recsB :
  length (Keyed.changed (diffKeyed keyFn valFn nameA nameB recsB recsA))
  = length (Keyed.changed (diffKeyed keyFn valFn nameA nameB recsA recsB)).
Proof.
  destruct (diffKeyed_changed keyFn valFn nameA nameB recsA recsB)
    as (ks & -> & Hnd & Hks).
  destruct (diffKeyed_changed keyFn valFn nameA nameB recsB recsA)
    as (ks' & -> & Hnd' & Hks').
  rewrite !length_fmap. apply Permutation_length, NoDup_Permutation; [done..|].
  intros k. rewrite Hks, Hks'. naive_solver.
Qed.

Lemma enum_change_swap a b n :
  is_Some (enum_change a b n) →
  n ∈ Enum.enum_name <$> Schema.enums a →
  is_Some (enum_change b a n).
Proof.
  unfold enum_change. intros [e He] Ha. repeat case_decide; try done.
  all: exfalso; congruence.
Qed.

Lemma diffEnums_changed_names a b r n :
  diffEnums a b = Normal r →
  n ∈ name <$> Keyed.changed r
  ↔ n ∈ Enum.enum_name <$> Schema.enums a ∧ is_Some (enum_change a b n).
Proof.
  intros (_ & _ & nsA & nsB & _ & _ & HA & _ & ->)%diffEnums_Normal. simpl.
  rewrite list_elem_of_fmap. setoid_rewrite list_elem_of_omap. split.
  - intros (e & -> & n' & Hn' & He). pose proof (enum_change_name _ _ _ _ He) as <-.
    split; [by apply HA | by eexists].
  - intros [Hn [e He]]. exists e. split.
    + symmetry. by apply enum_change_name in He.
    + exists n. split; [by apply HA | done].
Qed.

Lemma enum_change_both a b n :
  is_Some (enum_change a b n) → n ∈ Enum.enum_name <$> Schema.enums b.
Proof. unfold enum_change. intros [e He]. by case_decide. Qed.

Lemma diffEnums_swap a b r r' :
  diffEnums a b = Normal r → diffEnums b a = Normal r' →
  Keyed.onlyInA r' = Keyed.onlyInB r
  ∧ Keyed.onlyInB r' = Keyed.onlyInA r
  ∧ length (Keyed.changed r') = length (Keyed.changed r).
Proof.
  intros Hr Hr'.
  destruct (diffEnums_sorted _ _ _ Hr) as [SA SB].
  destruct (diffEnums_sorted _ _ _ Hr') as [SA' SB'].
  split_and!.
  - apply sorted_nodup_unique; [done..|]. intros n.
    by rewrite (diffEnums_onlyInA _ _ _ _ Hr'), (diffEnums_onlyInB _ _ _ _ Hr).
  - apply sorted_nodup_unique; [done..|]. intros n.
    by rewrite (diffEnums_onlyInB _ _ _ _ Hr'), (diffEnums_onlyInA _ _ _ _ Hr).
  - rewrite <- (length_fmap name (Keyed.changed r')).
    rewrite <- (length_fmap name (Keyed.changed r)).
    apply Permutation_length, NoDup_Permutation.
    + apply diffEnums_Normal in Hr'
        as (_ & _ & nsA & nsB & HndA & _ & _ & _ & ->). simpl.
      apply NoDup_omap_key; [apply enum_change_name | done].
    + apply diffEnums_Normal in Hr
        as (_ & _ & nsA & nsB & HndA & _ & _ & _ & ->). simpl.
      apply NoDup_omap_key; [apply enum_change_name | done].
    + intros n.
      rewrite (diffEnums_changed_names _ _ _ _ Hr'),
              (diffEnums_changed_names _ _ _ _ Hr).
      split; intros [Hn Hs]; (split; [by apply enum_change_both in Hs|]);
        by apply enum_change_swap.
Qed.

(** X20 — comparing B with A instead of A with B exchanges the "only in
    A" and "only in B" counts of every category in the stats and keeps
    the "changed" counts and the number of common tables. *)
Theorem X20_stats_of_swapped_diff a b la lb r r' :
  diffSchemas a b la lb = Normal r →
  diffSchemas b a lb la = Normal r' →
  stats_swapped (computeStats r) (computeStats r').
Proof.
  intros (cols & en & Hc & He & ->)%diffSchemas_Normal
         (cols' & en' & Hc' & He' & ->)%diffSchemas_Normal.
  pose proof Hc as (_ & _ & Hnd & _)%diffColumns_Normal.
  pose proof Hc' as (_ & _ & Hnd' & _)%diffColumns_Normal.
  destruct (diffColumns_sums_swap _ _ _ _ Hc Hc') as (CA & CB & CC).
  destruct (diffEnums_swap _ _ _ _ He He') as (EA & EB & EC).
  destruct (diffTables_sorted a b) as (_ & _ & TS).
  destruct (diffTables_sorted b a) as (_ & _ & TS').
  assert (TableDiff.common (diffTables b a) = TableDiff.common (diffTables a b))
    as TC.
  { apply sorted_nodup_unique; [done..|]. intros n.
    rewrite !diffTables_common. naive_solver. }
  unfold stats_swapped, computeStats. rewrite !foldl_column_counts.
  cbn [DiffResult.columns DiffResult.tables DiffResult.indexes
       DiffResult.foreignKeys DiffResult.enums DiffResult.policies
       DiffResult.functions DiffResult.triggers
       tablesOnlyA tablesOnlyB tablesCommon columnsOnlyA columnsOnlyB
       columnsChanged indexesOnlyA indexesOnlyB indexesChanged fksOnlyA
       fksOnlyB fksChanged enumsOnlyA enumsOnlyB enumsChanged policiesOnlyA
       policiesOnlyB policiesChanged functionsOnlyA functionsOnlyB
       functionsChanged triggersOnlyA triggersOnlyB triggersChanged].
  rewrite !(sum_list_with_perm _ _ _ (Object_values_perm cols Hnd)).
  rewrite !(sum_list_with_perm _ _ _ (Object_values_perm cols' Hnd')).
  rewrite CA, CB, CC, EA, EB, EC, TC.
  unfold diffIndexes, diffForeignKeys, diffPolicies, diffFunctions, diffTriggers.
  split_and!; try done; apply diffKeyed_changed_length_swap.
Qed.

Lemma X20_witness :
  ∃ r r', diffSchemas sample_A sample_B [] [] = Normal r
          ∧ diffSchemas sample_B sample_A [] [] = Normal r'
          ∧ columnsOnlyB (computeStats r') = columnsOnlyA (computeStats r).
Proof.
  destruct (diffSchemas_returns sample_A sample_B [] []
              sample_A_prototype_free sample_B_prototype_free) as [r Hr].
  destruct (diffSchemas_returns sample_B sample_A [] []
              sample_B_prototype_free sample_A_prototype_free) as [r' Hr'].
  exists r, r'. split_and!; [done..|].
  by destruct (X20_stats_of_swapped_diff _ _ _ _ _ _ Hr Hr')
    as (_ & _ & _ & _ & ? & _).
Defined.
